(** * Uuid25: the 25-digit base-36 encoding of 128-bit UUIDs

    A shallow embedding of [src/cjs/uuid25.cjs] and the proofs of its
    specification.

    Conventions of the embedding.
    - A JavaScript string is the list of its UTF-16 code units ([list Z]);
      [js "..."] writes the literals of the source.
    - A digit-value array ([Uint8Array] or plain array) is a [list Z]; a store
      into a [Uint8Array] goes through [u8].
    - A JavaScript number is a [Z].  The numbers of [convertBase] are
      integers that stay at or below [MAX_SAFE_INTEGER], where the arithmetic
      of doubles is exact: [wordLoop_spec] gives
      [wordBase * dstBase <= MAX_SAFE_INTEGER] and [sweep_step_safe] the
      bound on the sums of the inner loop.  [Math.trunc(a / b)] is
      [Z.quot a b] and [a % b] is [Z.rem a b].
    - Exceptions and loops: the [result] monad, with [Throw] for a thrown
      exception and [OutOfFuel] for a loop that used up its fuel; no loop of
      the source does ([convertBase_terminates], [parse_terminates]). *)

From Stdlib Require Import ZArith Lia Bool.
From stdpp Require Import base option list strings.

Open Scope Z_scope.

(** ** Exceptions *)

Inductive exn : Type :=
| SyntaxError (msg : string)
| TypeError (msg : string)
| Error (msg : string).

Inductive result (A : Type) : Type :=
| Ok (a : A)
| Throw (e : exn)
| OutOfFuel.

Arguments Ok {A} a.
Arguments Throw {A} e.
Arguments OutOfFuel {A}.

#[global] Instance result_ret : MRet result := λ A a, Ok a.
#[global] Instance result_bind : MBind result := λ A B k m,
  match m with
  | Ok a => k a
  | Throw e => Throw e
  | OutOfFuel => OutOfFuel
  end.

(** [const assert = (cond, msg) => { if (!cond) throw new Error(...) }] *)
Definition assert (cond : bool) (msg : string) : result unit :=
  if cond then Ok tt else Throw (Error ("Assertion failed: " +:+ msg)).

(** [const newParseError = () => new SyntaxError(...)] *)
Definition newParseError : exn := SyntaxError "could not parse a UUID string".

(** ** JavaScript strings *)

Fixpoint js (s : string) : list Z :=
  match s with
  | EmptyString => []
  | String c s' => Z.of_nat (Ascii.nat_of_ascii c) :: js s'
  end.

(** [s.charAt(e)]: the one-character string at index [e], the empty string
    when [e] is out of range. *)
Definition charAt (s : list Z) (e : Z) : list Z :=
  if 0 <=? e then option_list (s !! Z.to_nat e) else [].

(** [a < b] and [a <= b] on strings: code-unit-wise lexicographic order. *)
Fixpoint js_lt (a b : list Z) : bool :=
  match a, b with
  | _, [] => false
  | [], _ :: _ => true
  | x :: a', y :: b' =>
      if x <? y then true else if y <? x then false else js_lt a' b'
  end.

Definition js_le (a b : list Z) : bool := negb (js_lt b a).

(** Case mapping of one code unit.  On the ASCII range this is what
    [toLowerCase], [toUpperCase] and the canonicalisation of a regular
    expression with the [i] flag (and without the [u] flag) do; a code unit
    of 128 or more is never mapped to an ASCII one by that canonicalisation.
    The strings the parsers lower-case have passed an ASCII-only pattern. *)
Definition toUpper1 (c : Z) : Z :=
  if (97 <=? c) && (c <=? 122) then c - 32 else c.
Definition toLower1 (c : Z) : Z :=
  if (65 <=? c) && (c <=? 90) then c + 32 else c.

Definition toUpperCase (s : list Z) : list Z := toUpper1 <$> s.
Definition toLowerCase (s : list Z) : list Z := toLower1 <$> s.

(** [parts.join(sep)] *)
Fixpoint join (sep : list Z) (parts : list (list Z)) : list Z :=
  match parts with
  | [] => []
  | [p] => p
  | p :: ps => p ++ sep ++ join sep ps
  end.

(** ** The regular expressions of the source

    Every pattern of the source is anchored at both ends and is a sequence
    of literal text and of fixed-count character classes, some of them
    captured. *)

Inductive piece : Type :=
| Lit (text : list Z)                       (* literal text *)
| Rep (cls : list (Z * Z)) (n : nat)        (* [cls]{n} *)
| Cap (cls : list (Z * Z)) (n : nat).       (* ([cls]{n}) *)

Definition in_class (cls : list (Z * Z)) (c : Z) : bool :=
  existsb (λ r, (r.1 <=? c) && (c <=? r.2)) cls.

Definition class_match (ignoreCase : bool) (cls : list (Z * Z)) (c : Z) : bool :=
  in_class cls c
  || (ignoreCase && (in_class cls (toUpper1 c) || in_class cls (toLower1 c))).

Definition char_match (ignoreCase : bool) (p c : Z) : bool :=
  if ignoreCase then toUpper1 p =? toUpper1 c else p =? c.

Fixpoint lit_match (ignoreCase : bool) (text s : list Z) : bool :=
  match text, s with
  | [], [] => true
  | p :: text', c :: s' => char_match ignoreCase p c && lit_match ignoreCase text' s'
  | _, _ => false
  end.

Definition class_run (ignoreCase : bool) (cls : list (Z * Z)) (n : nat) (g : list Z) : bool :=
  (length g =? n)%nat && forallb (class_match ignoreCase cls) g.

(** [re.exec(s)]: the captured groups (what [.slice(1, 6)] keeps of the
    match array), [None] for [null]. *)
Fixpoint exec (ignoreCase : bool) (re : list piece) (s : list Z)
  : option (list (list Z)) :=
  match re with
  | [] => match s with [] => Some [] | _ :: _ => None end
  | Lit text :: re' =>
      if lit_match ignoreCase text (take (length text) s)
      then exec ignoreCase re' (drop (length text) s) else None
  | Rep cls n :: re' =>
      if class_run ignoreCase cls n (take n s)
      then exec ignoreCase re' (drop n s) else None
  | Cap cls n :: re' =>
      if class_run ignoreCase cls n (take n s)
      then cons (take n s) <$> exec ignoreCase re' (drop n s) else None
  end.

(** [re.test(s)] *)
Definition test (ignoreCase : bool) (re : list piece) (s : list Z) : bool :=
  match exec ignoreCase re s with Some _ => true | None => false end.

Definition cls_0_9a_z : list (Z * Z) := [(48, 57); (97, 122)].
Definition cls_0_9A_Za_z : list (Z * Z) := [(48, 57); (65, 90); (97, 122)].
Definition cls_0_9a_f : list (Z * Z) := [(48, 57); (97, 102)].

(** ** convertBase *)

Definition MAX_SAFE_INTEGER : Z := 2 ^ 53 - 1.

(** A store into an element of a [Uint8Array]. *)
Definition u8 (x : Z) : Z := x mod 256.

(** [while (wordBase <= MAX_SAFE_INTEGER / (srcBase * dstBase))]: [wordBase]
    is an integer, so the test against the quotient is the test against the
    quotient rounded down. *)
Fixpoint wordLoop (fuel : nat) (srcBase dstBase wordLen wordBase : Z)
  : result (Z * Z) :=
  if wordBase <=? MAX_SAFE_INTEGER / (srcBase * dstBase) then
    match fuel with
    | O => OutOfFuel
    | S fuel' => wordLoop fuel' srcBase dstBase (wordLen + 1) (wordBase * srcBase)
    end
  else Ok (wordLen, wordBase).

(** The loop that reads one word, [n] digits of [src] from index [i]:
    [for (let i = ...; i < wordHead + wordLen; i++)]. *)
Fixpoint readWord (n : nat) (src : list Z) (srcBase : Z) (i : nat) (carry : Z)
  : result Z :=
  match n with
  | O => Ok carry
  | S n' =>
      match src !! i with
      | Some d =>
          assert (d <? srcBase) "invalid src digit";;
          readWord n' src srcBase (S i) (carry * srcBase + d)
      | None => assert false "invalid src digit";; Ok carry
      end
  end.

(** The loop that fills [dst] from right to left,
    [for (let i = dstSize - 1; i >= 0; i--)], entered with [n = i + 1];
    it returns [dst], [carry] and [dstUsed]. *)
Fixpoint sweep (n : nat) (wordBase dstBase : Z) (dst : list Z) (carry : Z)
    (dstUsed : nat) : list Z * Z * nat :=
  match n with
  | O => (dst, carry, dstUsed)
  | S i =>
      let carry := carry + default 0 (dst !! i) * wordBase in
      let quo := Z.quot carry dstBase in
      let dst := <[i := u8 (carry - quo * dstBase)]> dst in
      let carry := quo in
      if (carry =? 0) && (i <=? dstUsed)%nat then (dst, carry, i)
      else sweep i wordBase dstBase dst carry dstUsed
  end.

(** The outer loop, [for (; wordHead < srcSize; wordHead += wordLen)]. *)
Fixpoint wordsLoop (fuel : nat) (src : list Z) (srcBase dstBase wordLen wordBase : Z)
    (dstSize : nat) (wordHead : Z) (dst : list Z) (dstUsed : nat)
  : result (list Z) :=
  if wordHead <? Z.of_nat (length src) then
    match fuel with
    | O => OutOfFuel
    | S fuel' =>
        let lo := if wordHead <? 0 then 0 else wordHead in
        carry ← readWord (Z.to_nat (wordHead + wordLen - lo)) src srcBase
                  (Z.to_nat lo) 0;
        let '(dst, carry, dstUsed) := sweep dstSize wordBase dstBase dst carry dstUsed in
        assert (carry =? 0) "too small dst";;
        wordsLoop fuel' src srcBase dstBase wordLen wordBase dstSize
          (wordHead + wordLen) dst dstUsed
    end
  else Ok dst.

Definition convertBase (src : list Z) (srcBase dstBase : Z) (dstSize : nat)
  : result (list Z) :=
  assert ((2 <=? srcBase) && (srcBase <=? 256) && (2 <=? dstBase) && (dstBase <=? 256))
    "invalid base";;
  '(wordLen, wordBase) ← wordLoop 64 srcBase dstBase 1 srcBase;
  let dst := replicate dstSize 0 in
  let srcSize := Z.of_nat (length src) in
  if srcSize =? 0 then Ok dst
  else
    assert (0 <? dstSize)%nat "too small dst";;
    let dstUsed := (dstSize - 1)%nat in
    let wordHead := Z.rem srcSize wordLen in
    let wordHead := if 0 <? wordHead then wordHead - wordLen else wordHead in
    wordsLoop (length src) src srcBase dstBase wordLen wordBase dstSize
      wordHead dst dstUsed.

(** ** The digit decoders *)

(** O(1) map from ASCII code points to Base36 digit values *)
Definition DECODE_MAP : list Z := [
  0x7f; 0x7f; 0x7f; 0x7f; 0x7f; 0x7f; 0x7f; 0x7f; 0x7f; 0x7f; 0x7f; 0x7f;
  0x7f; 0x7f; 0x7f; 0x7f; 0x7f; 0x7f; 0x7f; 0x7f; 0x7f; 0x7f; 0x7f; 0x7f;
  0x7f; 0x7f; 0x7f; 0x7f; 0x7f; 0x7f; 0x7f; 0x7f; 0x7f; 0x7f; 0x7f; 0x7f;
  0x7f; 0x7f; 0x7f; 0x7f; 0x7f; 0x7f; 0x7f; 0x7f; 0x7f; 0x7f; 0x7f; 0x7f;
  0x00; 0x01; 0x02; 0x03; 0x04; 0x05; 0x06; 0x07; 0x08; 0x09; 0x7f; 0x7f;
  0x7f; 0x7f; 0x7f; 0x7f; 0x7f; 0x0a; 0x0b; 0x0c; 0x0d; 0x0e; 0x0f; 0x10;
  0x11; 0x12; 0x13; 0x14; 0x15; 0x16; 0x17; 0x18; 0x19; 0x1a; 0x1b; 0x1c;
  0x1d; 0x1e; 0x1f; 0x20; 0x21; 0x22; 0x23; 0x7f; 0x7f; 0x7f; 0x7f; 0x7f;
  0x7f; 0x0a; 0x0b; 0x0c; 0x0d; 0x0e; 0x0f; 0x10; 0x11; 0x12; 0x13; 0x14;
  0x15; 0x16; 0x17; 0x18; 0x19; 0x1a; 0x1b; 0x1c; 0x1d; 0x1e; 0x1f; 0x20;
  0x21; 0x22; 0x23; 0x7f; 0x7f; 0x7f; 0x7f; 0x7f
].

(** [digitValues[i] = DECODE_MAP[digitChars.charCodeAt(i)] ?? 0x7f] *)
Definition decodeDigitChar (code : Z) : Z :=
  u8 (default 0x7f (DECODE_MAP !! Z.to_nat code)).

(** The loop of [decodeDigitChars] over the characters of [digitChars]. *)
Fixpoint decodeDigitLoop (digitChars : list Z) (base : Z) : result (list Z) :=
  match digitChars with
  | [] => Ok []
  | code :: rest =>
      let v := decodeDigitChar code in
      assert (v <? base) "invalid digit character";;
      digitValues ← decodeDigitLoop rest base;
      Ok (v :: digitValues)
  end.

Definition decodeDigitChars (digitChars : list Z) (base : Z) : result (list Z) :=
  assert ((2 <=? base) && (base <=? 36)) "invalid base";;
  decodeDigitLoop digitChars base.

(** The table of the Crockford decoder, built by the assignments of the
    source in their order. *)
Definition CROCKFORD_DECODE_MAP : list Z :=
  let m := replicate 128 0x7f in
  let m := foldl (λ m i, <[(48 + i)%nat := Z.of_nat i]> m) m (seq 0 10) in
  let m := foldl (λ m i, <[(97 + i)%nat := 10 + Z.of_nat i]>
                           (<[(65 + i)%nat := 10 + Z.of_nat i]> m)) m (seq 0 8) in
  let m := <[74%nat := 18]> m in
  let m := <[106%nat := 18]> m in
  let m := <[75%nat := 19]> m in
  let m := <[107%nat := 19]> m in
  let m := <[77%nat := 20]> m in
  let m := <[109%nat := 20]> m in
  let m := <[78%nat := 21]> m in
  let m := <[110%nat := 21]> m in
  let m := foldl (λ m i, <[(112 + i)%nat := 22 + Z.of_nat i]>
                           (<[(80 + i)%nat := 22 + Z.of_nat i]> m)) m (seq 0 5) in
  let m := foldl (λ m i, <[(118 + i)%nat := 27 + Z.of_nat i]>
                           (<[(86 + i)%nat := 27 + Z.of_nat i]> m)) m (seq 0 5) in
  let m := <[73%nat := 1]> m in
  let m := <[105%nat := 1]> m in
  let m := <[76%nat := 1]> m in
  let m := <[108%nat := 1]> m in
  let m := <[79%nat := 0]> m in
  let m := <[111%nat := 0]> m in
  m.

(** [digitValues[i] = code < 128 ? CROCKFORD_DECODE_MAP[code] : 0x7f] *)
Definition decodeCrockfordChar (code : Z) : Z :=
  u8 (if code <? 128 then default 0x7f (CROCKFORD_DECODE_MAP !! Z.to_nat code)
      else 0x7f).

Fixpoint decodeCrockfordChars (digitChars : list Z) : result (list Z) :=
  match digitChars with
  | [] => Ok []
  | code :: rest =>
      let v := decodeCrockfordChar code in
      assert (v <? 32) "invalid Crockford Base32 character";;
      digitValues ← decodeCrockfordChars rest;
      Ok (v :: digitValues)
  end.

(** ** The class Uuid25 *)

Record Uuid25 : Type := new_Uuid25 { value : list Z }.

#[global] Instance Uuid25_eq_dec : EqDecision Uuid25.
Proof. solve_decision. Defined.

(** [equals(other) { return this.value === other.value; }] *)
Definition equals (this other : Uuid25) : bool :=
  bool_decide (value this = value other).

Definition toString (this : Uuid25) : list Z := value this.

Definition MAX : list Z := js "f5lxx1zz5pnorynqglhzmsp33".

Definition digits36 : list Z := js "0123456789abcdefghijklmnopqrstuvwxyz".
Definition digits16 : list Z := js "0123456789abcdef".
Definition digits32 : list Z := js "0123456789ABCDEFGHJKMNPQRSTVWXYZ".

(** [for (const e of digitValues) { buffer += digits.charAt(e); }] *)
Fixpoint encodeLoop (digits digitValues buffer : list Z) : list Z :=
  match digitValues with
  | [] => buffer
  | e :: rest => encodeLoop digits rest (buffer ++ charAt digits e)
  end.

(** The loop of [fromDigitValues], which also asserts each digit value. *)
Fixpoint fromDigitValuesLoop (digits digitValues buffer : list Z) : result (list Z) :=
  match digitValues with
  | [] => Ok buffer
  | e :: rest =>
      assert (e <? Z.of_nat (length digits)) "invalid digit value";;
      fromDigitValuesLoop digits rest (buffer ++ charAt digits e)
  end.

Definition fromDigitValues (digitValues : list Z) : result Uuid25 :=
  assert (length digitValues =? 25)%nat "invalid length of digit value array";;
  buffer ← fromDigitValuesLoop digits36 digitValues [];
  assert (js_le buffer MAX) "128-bit overflow";;
  Ok (new_Uuid25 buffer).

Definition fromBytes (uuidBytes : list Z) : result Uuid25 :=
  if negb (length uuidBytes =? 16)%nat
  then Throw (TypeError "the length of byte array must be 16")
  else convertBase uuidBytes 256 36 25 ≫= fromDigitValues.

Definition toBytes (this : Uuid25) : result (list Z) :=
  src ← decodeDigitChars (value this) 36;
  convertBase src 36 256 16.

Definition parseUuid25 (uuidString : list Z) : result Uuid25 :=
  if test true [Rep cls_0_9a_z 25] uuidString then
    let value := toLowerCase uuidString in
    if js_le value MAX then Ok (new_Uuid25 value) else Throw newParseError
  else Throw newParseError.

(** The argument is [None] for [undefined]. *)
Definition parseHexImpl (uuidString : option (list Z)) : result Uuid25 :=
  match uuidString with
  | None => Throw newParseError
  | Some uuidString =>
      src ← decodeDigitChars uuidString 16;
      convertBase src 16 36 25 ≫= fromDigitValues
  end.

Definition parseHex (uuidString : list Z) : result Uuid25 :=
  parseHexImpl (if test true [Rep cls_0_9a_f 32] uuidString
                then Some uuidString else None).

Definition hyphenated : list piece :=
  [Cap cls_0_9a_f 8; Lit (js "-"); Cap cls_0_9a_f 4; Lit (js "-");
   Cap cls_0_9a_f 4; Lit (js "-"); Cap cls_0_9a_f 4; Lit (js "-");
   Cap cls_0_9a_f 12].

(** [re.exec(uuidString)?.slice(1, 6).join("")] *)
Definition parseHyphenated (uuidString : list Z) : result Uuid25 :=
  parseHexImpl (join [] <$> exec true hyphenated uuidString).

Definition parseBraced (uuidString : list Z) : result Uuid25 :=
  parseHexImpl
    (join [] <$> exec true ([Lit (js "{")] ++ hyphenated ++ [Lit (js "}")]) uuidString).

Definition parseUrn (uuidString : list Z) : result Uuid25 :=
  parseHexImpl
    (join [] <$> exec true (Lit (js "urn:uuid:") :: hyphenated) uuidString).

Definition parseCrockford (uuidString : list Z) : result Uuid25 :=
  if negb (test false [Rep cls_0_9A_Za_z 26] uuidString)
  then Throw newParseError
  else
    src ← decodeCrockfordChars uuidString;
    convertBase src 32 36 25 ≫= fromDigitValues.

Definition parse (uuidString : list Z) : result Uuid25 :=
  match length uuidString with
  | 25%nat => parseUuid25 uuidString
  | 26%nat => parseCrockford uuidString
  | 32%nat => parseHex uuidString
  | 36%nat => parseHyphenated uuidString
  | 38%nat => parseBraced uuidString
  | 45%nat => parseUrn uuidString
  | _ => Throw newParseError
  end.

Definition toHex (this : Uuid25) : result (list Z) :=
  src ← decodeDigitChars (value this) 36;
  digitValues ← convertBase src 36 16 32;
  Ok (encodeLoop digits16 digitValues []).

(** [re.exec(this.toHex()).slice(1, 6).join("-")]; reading [slice] of [null]
    is a [TypeError]. *)
Definition toHyphenated (this : Uuid25) : result (list Z) :=
  hex ← toHex this;
  match exec false [Cap cls_0_9a_f 8; Cap cls_0_9a_f 4; Cap cls_0_9a_f 4;
                    Cap cls_0_9a_f 4; Cap cls_0_9a_f 12] hex with
  | Some groups => Ok (join (js "-") groups)
  | None => Throw (TypeError "Cannot read properties of null (reading 'slice')")
  end.

Definition toBraced (this : Uuid25) : result (list Z) :=
  h ← toHyphenated this; Ok (js "{" ++ h ++ js "}").

Definition toUrn (this : Uuid25) : result (list Z) :=
  h ← toHyphenated this; Ok (js "urn:uuid:" ++ h).

Definition toCrockford (this : Uuid25) : result (list Z) :=
  src ← decodeDigitChars (value this) 36;
  digitValues ← convertBase src 36 32 26;
  Ok (encodeLoop digits32 digitValues []).

(** * The vocabulary of the specification *)

(** The integer a digit-value array denotes, most significant digit first. *)
Definition digitsValue (base : Z) (ds : list Z) : Z :=
  foldl (λ acc d, acc * base + d) 0 ds.

(** A digit-value array of [base]: every element is a digit of that base. *)
Definition isDigits (base : Z) (ds : list Z) : Prop :=
  Forall (λ d, 0 <= d < base) ds.

(** The value the words of [src] before [wordHead] denote. *)
Definition wordsPrefix (srcBase : Z) (src : list Z) (wordHead : Z) : Z :=
  digitsValue srcBase (take (Z.to_nat wordHead) src).

(** The state of the outer loop of [convertBase]: [dst] holds the digits of
    the words read so far, and is zero to the left of [dstUsed]. *)
Definition wordsInvariant (srcBase dstBase : Z) (dstSize : nat) (src : list Z)
    (wordHead : Z) (dst : list Z) (dstUsed : nat) : Prop :=
  length dst = dstSize ∧ isDigits dstBase dst
  ∧ (dstUsed < dstSize)%nat
  ∧ (∀ j, (j < dstUsed)%nat → dst !! j = Some 0)
  ∧ digitsValue dstBase dst = wordsPrefix srcBase src wordHead.

(** The character [digits.charAt(e)] of an in-range digit value. *)
Definition encodeDigit (digits : list Z) (e : Z) : Z :=
  default 0 (digits !! Z.to_nat e).

(** The digit values of [Uuid25.MAX]. *)
Definition MAX_digits : list Z := decodeDigitChar <$> MAX.

(** The invariant of the data model: a 25-character string over [0-9a-z],
    at most [Uuid25.MAX]. *)
Definition canonical (s : list Z) : Prop :=
  length s = 25%nat
  ∧ Forall (λ c, in_class cls_0_9a_z c = true) s
  ∧ js_le s MAX = true.

(** A string of 32 lower-case hexadecimal digits, what [toHex] returns. *)
Definition isHex (s : list Z) : Prop :=
  length s = 32%nat ∧ Forall (λ c, class_match false cls_0_9a_f c = true) s.

(** The five groups of a 32-digit hexadecimal string. *)
Definition hexGroups (hex : list Z) : list (list Z) :=
  [take 8 hex; take 4 (drop 8 hex); take 4 (drop 12 hex); take 4 (drop 16 hex);
   drop 20 hex].

(** [parse] of the text [format v] returns a value equal to [v]. *)
Definition roundtrips (format : Uuid25 → result (list Z)) (v : Uuid25) : Prop :=
  ∃ text v', format v = Ok text ∧ parse text = Ok v' ∧ equals v' v = true.

(** The code units of ASCII, and the patterns that match nothing else. *)
Definition isAscii (s : list Z) : Prop := Forall (λ c, 0 <= c < 128) s.

Definition asciiClass (cls : list (Z * Z)) : Prop :=
  Forall (λ r, 0 <= r.1 ∧ r.2 < 128) cls.

Definition asciiPiece (p : piece) : Prop :=
  match p with
  | Lit text => isAscii text
  | Rep cls _ | Cap cls _ => asciiClass cls
  end.

(** The two case mappings of a code unit. *)
Definition caseMapping (m : Z → Z) : Prop := m = toUpper1 ∨ m = toLower1.

(** The replacement of the confusable letters: I, i, L, l by 1 and O, o by
    0. *)
Definition replaceConfusable (c : Z) : Z :=
  if bool_decide (c ∈ js "IiLl") then 49
  else if bool_decide (c ∈ js "Oo") then 48
  else c.

(** The number a value's string denotes in base 36. *)
Definition numberOf (v : Uuid25) : Z :=
  digitsValue 36 (decodeDigitChar <$> value v).

(** The alphanumeric digits in closed form: ['0'-'9'] are 0 to 9, the
    letters of either case 10 to 35, anything else the invalid value. *)
Definition alphanumericValue (c : Z) : Z :=
  if (48 <=? c) && (c <=? 57) then c - 48
  else if (65 <=? c) && (c <=? 90) then c - 55
  else if (97 <=? c) && (c <=? 122) then c - 87
  else 0x7f.

(** The Crockford digits in closed form, as the comments of
    [decodeCrockfordChars] lay them out: digits, A-H, J-K, M-N, P-T and V-Z
    of either case in this order, I and L for 1, O for 0, anything else
    (U among it) the invalid value. *)
Definition crockfordValue (c : Z) : Z :=
  let u := toUpper1 c in
  if (48 <=? u) && (u <=? 57) then u - 48
  else if (65 <=? u) && (u <=? 72) then u - 55
  else if (u =? 73) || (u =? 76) then 1
  else if (74 <=? u) && (u <=? 75) then u - 56
  else if (77 <=? u) && (u <=? 78) then u - 57
  else if u =? 79 then 0
  else if (80 <=? u) && (u <=? 84) then u - 58
  else if (86 <=? u) && (u <=? 90) then u - 59
  else 0x7f.

(** An element of a [Uint8Array]. *)
Definition isByte (d : Z) : Prop := 0 <= d < 256.


(** A string of 32 hexadecimal digits of either case, what [parseHex]
    accepts. *)
Definition isHexI (s : list Z) : Prop :=
  length s = 32%nat ∧ Forall (λ c, class_match true cls_0_9a_f c = true) s.

(** The value whose string is the numeral of the digits [ds]. *)
Definition valueOfDigits (ds : list Z) : Uuid25 :=
  new_Uuid25 (encodeDigit digits36 <$> ds).

(** What a parser of a format with lower-case text does: it throws the
    syntax error, or it returns the value of some digits for which the
    formatter of the format gives back the text in lower case. *)
Definition hexOutcome (s : list Z) (parsed : result Uuid25)
    (format : Uuid25 → result (list Z)) : Prop :=
  parsed = Throw newParseError
  ∨ ∃ ds, length ds = 25%nat ∧ isDigits 36 ds ∧ digitsValue 36 ds <= 2 ^ 128 - 1
          ∧ parsed = Ok (valueOfDigits ds)
          ∧ format (valueOfDigits ds) = Ok (toLowerCase s).

(** * Tactics *)

(** Steps of the [result] monad. *)
Ltac result_simpl := cbn [mbind result_bind mret result_ret assert].

(** Closed instances of [isDigits]. *)
Ltac solve_isDigits :=
  repeat (apply Forall_cons_2; [lia|]); apply Forall_nil_2.

(** * Positional notation *)

Lemma foldl_digits_acc base ds acc :
  foldl (λ acc d, acc * base + d) acc ds
  = acc * base ^ Z.of_nat (length ds) + digitsValue base ds.
Proof.
  unfold digitsValue. revert acc.
  induction ds as [|d ds IH]; intros acc; simpl.
  - lia.
  - rewrite IH, (IH (0 * base + d)).
    replace (Z.of_nat (S (length ds))) with (1 + Z.of_nat (length ds)) by lia.
    rewrite Z.pow_add_r by lia. lia.
Qed.

Lemma digitsValue_nil base : digitsValue base [] = 0.
Proof. reflexivity. Qed.

Lemma digitsValue_cons base d ds :
  digitsValue base (d :: ds) = d * base ^ Z.of_nat (length ds) + digitsValue base ds.
Proof.
  unfold digitsValue at 1. simpl. rewrite foldl_digits_acc. lia.
Qed.

Lemma digitsValue_app base l1 l2 :
  digitsValue base (l1 ++ l2)
  = digitsValue base l1 * base ^ Z.of_nat (length l2) + digitsValue base l2.
Proof.
  unfold digitsValue at 1. rewrite foldl_app.
  fold (digitsValue base l1). apply foldl_digits_acc.
Qed.

Lemma digitsValue_snoc base l d :
  digitsValue base (l ++ [d]) = digitsValue base l * base + d.
Proof. rewrite digitsValue_app. simpl. unfold digitsValue at 2. simpl. lia. Qed.

Lemma digitsValue_bound base ds :
  0 < base → isDigits base ds →
  0 <= digitsValue base ds < base ^ Z.of_nat (length ds).
Proof.
  intros Hb. induction 1 as [|d ds Hd _ IH].
  - rewrite digitsValue_nil. simpl. lia.
  - rewrite digitsValue_cons.
    replace (Z.of_nat (length (d :: ds))) with (1 + Z.of_nat (length ds))
      by (simpl; lia).
    rewrite Z.pow_add_r by lia.
    assert (0 < base ^ Z.of_nat (length ds)) by (apply Z.pow_pos_nonneg; lia).
    nia.
Qed.

Lemma digitsValue_zeros base n : digitsValue base (replicate n 0) = 0.
Proof.
  induction n as [|n IH]; [done|].
  simpl. rewrite digitsValue_cons, IH. lia.
Qed.

Lemma digitsValue_take_le base ds n :
  0 < base → isDigits base ds →
  digitsValue base (take n ds) <= digitsValue base ds.
Proof.
  intros Hb Hds.
  rewrite <- (take_drop n ds) at 2. rewrite digitsValue_app.
  assert (isDigits base (take n ds)) as H1 by (by apply Forall_take).
  assert (isDigits base (drop n ds)) as H2 by (by apply Forall_drop).
  apply (digitsValue_bound _ _ Hb) in H1, H2.
  assert (0 < base ^ Z.of_nat (length (drop n ds))) by (apply Z.pow_pos_nonneg; lia).
  nia.
Qed.

(** A number has one representation of a given length. *)
Lemma digitsValue_inj base l1 l2 :
  0 < base → isDigits base l1 → isDigits base l2 → length l1 = length l2 →
  digitsValue base l1 = digitsValue base l2 → l1 = l2.
Proof.
  intros Hb H1. revert l2.
  induction H1 as [|d1 l1 Hd1 Hl1 IH]; intros [|d2 l2] H2 Hlen Hv; try done.
  apply Forall_cons in H2 as [Hd2 Hl2]. simpl in Hlen.
  rewrite !digitsValue_cons in Hv.
  assert (length l1 = length l2) as Hlen' by lia. rewrite <- Hlen' in Hv.
  pose proof (digitsValue_bound _ _ Hb Hl1) as B1.
  pose proof (digitsValue_bound _ _ Hb Hl2) as B2. rewrite <- Hlen' in B2.
  assert (d1 = d2) as -> by nia.
  f_equal. apply IH; [done|done|lia].
Qed.

(** * The base converter *)

(** The word size: the loop leaves with [wordBase = srcBase ^ wordLen], the
    last power of [srcBase] whose product with [dstBase] is a safe integer. *)
Lemma wordLoop_spec srcBase dstBase :
  2 <= srcBase <= 256 → 2 <= dstBase <= 256 →
  ∀ fuel wordLen wordBase,
    1 <= wordLen → wordBase = srcBase ^ wordLen →
    wordBase * dstBase <= MAX_SAFE_INTEGER →
    54 <= Z.of_nat fuel + wordLen →
    ∃ wordLen' wordBase',
      wordLoop fuel srcBase dstBase wordLen wordBase = Ok (wordLen', wordBase')
      ∧ 1 <= wordLen' ∧ wordBase' = srcBase ^ wordLen'
      ∧ wordBase' * dstBase <= MAX_SAFE_INTEGER
      ∧ MAX_SAFE_INTEGER / (srcBase * dstBase) < wordBase'.
Proof.
  intros Hs Hd fuel.
  induction fuel as [|fuel IH]; intros wordLen wordBase Hlen HW Hsafe Hfuel;
    simpl; destruct (Z.leb_spec wordBase (MAX_SAFE_INTEGER / (srcBase * dstBase)))
      as [Hle|Hgt].
  - exfalso.
    assert (2 ^ 54 <= wordBase).
    { subst wordBase. etrans; [apply (Z.pow_le_mono_r 2 54 wordLen); lia|].
      apply Z.pow_le_mono_l. lia. }
    assert (MAX_SAFE_INTEGER / (srcBase * dstBase) <= MAX_SAFE_INTEGER).
    { apply Z.div_le_upper_bound; unfold MAX_SAFE_INTEGER; nia. }
    unfold MAX_SAFE_INTEGER in *. lia.
  - eauto 10.
  - apply IH; [lia| |  |lia].
    + subst wordBase. rewrite Z.pow_add_r by lia. lia.
    + assert (wordBase * (srcBase * dstBase) <= MAX_SAFE_INTEGER); [|lia].
      etrans; [apply Z.mul_le_mono_nonneg_r, Hle; nia|].
      rewrite Z.mul_comm. apply Z.mul_div_le. nia.
  - eauto 10.
Qed.

(** Why the numbers of [sweep] are safe integers: with a word size as
    [wordLoop] selects it, a carry below [wordBase] and a digit below
    [dstBase], the sum [carry + dst[i] * wordBase] is at most
    [MAX_SAFE_INTEGER] and the next carry is again below [wordBase]. *)
Lemma sweep_step_safe wordBase dstBase carry d :
  2 <= dstBase → wordBase * dstBase <= MAX_SAFE_INTEGER →
  0 <= carry < wordBase → 0 <= d < dstBase →
  0 <= carry + d * wordBase <= MAX_SAFE_INTEGER
  ∧ 0 <= Z.quot (carry + d * wordBase) dstBase < wordBase.
Proof.
  intros Hd Hsafe Hc Hdigit.
  assert (0 <= carry + d * wordBase < wordBase * dstBase) as Hsum by nia.
  split; [lia|]. rewrite Z.quot_div_nonneg by lia.
  split; [apply Z.div_pos; lia|apply Z.div_lt_upper_bound; lia].
Qed.

Lemma readWord_ok srcBase src :
  isDigits srcBase src →
  ∀ n i carry, (i + n <= length src)%nat →
    readWord n src srcBase i carry
    = Ok (carry * srcBase ^ Z.of_nat n + digitsValue srcBase (take n (drop i src))).
Proof.
  intros Hsrc n. induction n as [|n IH]; intros i carry Hlen; simpl.
  - rewrite digitsValue_nil. f_equal. lia.
  - destruct (lookup_lt_is_Some_2 src i) as [d Hd]; [lia|]. rewrite Hd.
    pose proof (proj1 (Forall_lookup _ _) Hsrc _ _ Hd) as Hrange. simpl in Hrange.
    assert ((d <? srcBase) = true) as -> by lia. simpl.
    rewrite IH by lia. f_equal.
    rewrite (drop_S _ _ _ Hd). simpl. rewrite digitsValue_cons.
    rewrite length_take, length_drop.
    replace (Z.of_nat (Nat.min n (length src - S i))) with (Z.of_nat n) by lia.
    rewrite Nat2Z.inj_succ, Z.pow_succ_r by lia. lia.
Qed.

Lemma readWord_terminates n src srcBase :
  ∀ i carry, readWord n src srcBase i carry ≠ OutOfFuel.
Proof.
  induction n as [|n IH]; intros i carry; [done|]. simpl.
  destruct (src !! i) as [d|]; [|done].
  destruct (d <? srcBase); result_simpl; [apply IH|done].
Qed.

Lemma digitsValue_all_zero base l :
  (∀ j, (j < length l)%nat → l !! j = Some 0) → digitsValue base l = 0.
Proof.
  intros H. rewrite <- (digitsValue_zeros base (length l)). f_equal.
  apply list_eq. intros j. destruct (decide (j < length l)%nat).
  - rewrite H, lookup_replicate_2; done.
  - rewrite !lookup_ge_None_2; [done|rewrite length_replicate; lia|lia].
Qed.

Lemma sweep_S i wordBase dstBase dst carry dstUsed :
  sweep (S i) wordBase dstBase dst carry dstUsed
  = let carry := carry + default 0 (dst !! i) * wordBase in
    let quo := Z.quot carry dstBase in
    let dst := <[i := u8 (carry - quo * dstBase)]> dst in
    if (quo =? 0) && (i <=? dstUsed)%nat then (dst, quo, i)
    else sweep i wordBase dstBase dst quo dstUsed.
Proof. reflexivity. Qed.

(** One pass over [dst]: the digits [hi] not yet visited are multiplied by
    [wordBase] and [carry] is added; what does not fit is the carry out. *)
Lemma sweep_spec wordBase dstBase :
  2 <= dstBase <= 256 → 0 <= wordBase →
  ∀ hi lo carry dstUsed,
    isDigits dstBase hi → 0 <= carry →
    (∀ j, (j < dstUsed)%nat → (j < length hi)%nat → hi !! j = Some 0) →
    carry ≠ 0 ∨ (dstUsed < length hi)%nat →
    ∃ hi' carry' dstUsed',
      sweep (length hi) wordBase dstBase (hi ++ lo) carry dstUsed
      = (hi' ++ lo, carry', dstUsed')
      ∧ length hi' = length hi ∧ isDigits dstBase hi' ∧ 0 <= carry'
      ∧ digitsValue dstBase hi' + carry' * dstBase ^ Z.of_nat (length hi)
        = digitsValue dstBase hi * wordBase + carry
      ∧ (carry' = 0 →
         (dstUsed' < length hi)%nat ∧ ∀ j, (j < dstUsed')%nat → hi' !! j = Some 0).
Proof.
  intros Hd HW hi.
  induction hi as [|d hi IH] using rev_ind; intros lo carry dstUsed Hhi Hc Hzero Hused.
  - exists [], carry, dstUsed. simpl. rewrite digitsValue_nil.
    repeat split; [done|lia|lia|simpl in *; lia|simpl in *; lia].
  - apply Forall_app in Hhi as [Hhi Hdd]. apply Forall_inv in Hdd.
    simpl in Hdd.
    rewrite length_app. simpl length.
    replace (length hi + 1)%nat with (S (length hi)) by lia.
    rewrite sweep_S, <- app_assoc. simpl app.
    rewrite list_lookup_middle by done. simpl default.
    set (carry1 := carry + d * wordBase).
    assert (0 <= carry1) by (unfold carry1; nia).
    cbv zeta. rewrite Z.quot_div_nonneg by lia.
    set (quo := carry1 / dstBase).
    assert (carry1 - quo * dstBase = carry1 mod dstBase) as ->
      by (unfold quo; rewrite Z.mod_eq by lia; lia).
    set (r := carry1 mod dstBase).
    assert (0 <= r < dstBase) by (apply Z.mod_pos_bound; lia).
    assert (carry1 = quo * dstBase + r) as Hcarry1
      by (unfold quo, r; pose proof (Z.div_mod carry1 dstBase); lia).
    assert (0 <= quo) by (apply Z.div_pos; lia).
    assert (u8 r = r) as -> by (unfold u8; apply Z.mod_small; lia).
    replace (<[length hi:=r]> (hi ++ d :: lo)) with (hi ++ r :: lo)
      by (rewrite insert_app_r_alt, Nat.sub_diag by lia; done).
    destruct ((quo =? 0) && (length hi <=? dstUsed)%nat) eqn:Hbreak.
    + apply andb_true_iff in Hbreak as [Hq Hle].
      apply Z.eqb_eq in Hq. apply Nat.leb_le in Hle.
      assert (digitsValue dstBase hi = 0) as Hz.
      { apply digitsValue_all_zero. intros j Hj.
        rewrite <- (Hzero j); [|lia|rewrite length_app; lia].
        by rewrite lookup_app_l. }
      exists (hi ++ [r]), quo, (length hi).
      rewrite <- app_assoc, length_app. simpl.
      repeat split; try lia.
      * apply Forall_app. split; [done|by apply Forall_singleton].
      * rewrite !digitsValue_snoc, Hz. fold carry1. lia.
      * intros j Hj. rewrite lookup_app_l by done.
        rewrite <- (Hzero j); [|lia|rewrite length_app; lia].
        by rewrite lookup_app_l.
    + destruct (IH (r :: lo) quo dstUsed) as (hi' & carry' & dstUsed' & Hsw & Hlen & Hdig & Hc' & Hval & Hz);
        [done|done| | |].
      { intros j Hj1 Hj2. rewrite <- (Hzero j); [|lia|rewrite length_app; lia].
        by rewrite lookup_app_l. }
      { apply andb_false_iff in Hbreak as [Hq|Hle].
        - left. by apply Z.eqb_neq in Hq.
        - right. apply Nat.leb_gt in Hle. lia. }
      exists (hi' ++ [r]), carry', dstUsed'.
      rewrite Hsw, <- app_assoc, !length_app, Hlen. simpl.
      split_and!; try lia; try done.
      * apply Forall_app. split; [done|by apply Forall_singleton].
      * rewrite !digitsValue_snoc, Nat2Z.inj_succ, Z.pow_succ_r by lia.
        unfold carry1 in Hcarry1. apply (f_equal (Z.mul dstBase)) in Hval. lia.
      * intros Hc0. destruct (Hz Hc0) as [Hlt Hz']. split; [lia|].
        intros j Hj. rewrite lookup_app_l by lia. by apply Hz'.
Qed.

Lemma wordsLoop_S fuel src srcBase dstBase wordLen wordBase dstSize wordHead dst dstUsed :
  wordHead < Z.of_nat (length src) →
  wordsLoop (S fuel) src srcBase dstBase wordLen wordBase dstSize wordHead dst dstUsed
  = let lo := if wordHead <? 0 then 0 else wordHead in
    carry ← readWord (Z.to_nat (wordHead + wordLen - lo)) src srcBase (Z.to_nat lo) 0;
    let '(dst, carry, dstUsed) := sweep dstSize wordBase dstBase dst carry dstUsed in
    assert (carry =? 0) "too small dst";;
    wordsLoop fuel src srcBase dstBase wordLen wordBase dstSize
      (wordHead + wordLen) dst dstUsed.
Proof. intros H. simpl. by apply Z.ltb_lt in H as ->. Qed.

Section words.
Variables (src : list Z) (srcBase dstBase wordLen wordBase : Z) (dstSize : nat).
Hypothesis HsrcBase : 2 <= srcBase <= 256.
Hypothesis HdstBase : 2 <= dstBase <= 256.
Hypothesis HwordLen : 1 <= wordLen.
Hypothesis HwordBase : wordBase = srcBase ^ wordLen.
Hypothesis Hsrc : isDigits srcBase src.

Local Abbreviation prefix := (wordsPrefix srcBase src).
Local Abbreviation invariant := (wordsInvariant srcBase dstBase dstSize src).

Lemma word_step wordHead :
  - wordLen < wordHead → wordHead + wordLen <= Z.of_nat (length src) →
  let lo := if wordHead <? 0 then 0 else wordHead in
  prefix wordHead * wordBase
  + digitsValue srcBase (take (Z.to_nat (wordHead + wordLen - lo)) (drop (Z.to_nat lo) src))
  = prefix (wordHead + wordLen).
Proof.
  intros Hlo Hhi. unfold wordsPrefix. destruct (Z.ltb_spec wordHead 0) as [Hneg|Hpos]; simpl.
  - replace (Z.to_nat wordHead) with 0%nat by lia. simpl.
    rewrite digitsValue_nil, Z.sub_0_r. change (Z.to_nat 0) with 0%nat.
    rewrite drop_0. lia.
  - replace (wordHead + wordLen - wordHead) with wordLen by lia.
    replace (Z.to_nat (wordHead + wordLen))
      with (Z.to_nat wordHead + Z.to_nat wordLen)%nat by lia.
    rewrite <- take_take_drop, digitsValue_app, length_take, length_drop.
    replace (Z.of_nat (Nat.min (Z.to_nat wordLen) (length src - Z.to_nat wordHead)))
      with wordLen by lia.
    by rewrite HwordBase.
Qed.

(** One turn of the outer loop: the word is read and carried into [dst];
    the carry out is what of the new prefix does not fit [dstSize] digits. *)
Lemma wordsLoop_step fuel wordHead dst dstUsed :
  - wordLen < wordHead → wordHead + wordLen <= Z.of_nat (length src) →
  invariant wordHead dst dstUsed →
  ∃ dst' carry' dstUsed',
    wordsLoop (S fuel) src srcBase dstBase wordLen wordBase dstSize wordHead dst dstUsed
    = (assert (carry' =? 0) "too small dst";;
       wordsLoop fuel src srcBase dstBase wordLen wordBase dstSize
         (wordHead + wordLen) dst' dstUsed')
    ∧ 0 <= carry'
    ∧ length dst' = dstSize ∧ isDigits dstBase dst'
    ∧ digitsValue dstBase dst' + carry' * dstBase ^ Z.of_nat dstSize
      = prefix (wordHead + wordLen)
    ∧ (carry' = 0 → invariant (wordHead + wordLen) dst' dstUsed').
Proof.
  intros Hhead Hend (Hlen & Hdst & Hused & Hzero & Hval).
  rewrite wordsLoop_S by lia. cbv zeta.
  pose proof (word_step wordHead Hhead Hend) as Hstep. cbv zeta in Hstep.
  set (lo := if wordHead <? 0 then 0 else wordHead) in *.
  assert (lo = Z.max 0 wordHead) as Hlo
    by (unfold lo; destruct (Z.ltb_spec wordHead 0); lia).
  clearbody lo.
  rewrite (readWord_ok _ _ Hsrc) by lia. simpl mbind.
  set (w := digitsValue srcBase (take _ (drop _ src))) in *.
  assert (0 <= w) as Hw.
  { apply digitsValue_bound; [lia|]. by apply Forall_take, Forall_drop. }
  destruct (sweep_spec wordBase dstBase HdstBase) with
    (hi := dst) (lo := @nil Z)
    (carry := 0 * srcBase ^ Z.of_nat (Z.to_nat (wordHead + wordLen - lo)) + w)
    (dstUsed := dstUsed)
    as (dst' & carry' & dstUsed' & Hsw & Hlen' & Hdst' & Hc' & Hval' & Hz');
    [subst wordBase; apply Z.pow_nonneg; lia|done|lia|intros; by apply Hzero|right; lia|].
  rewrite !app_nil_r, Hlen in Hsw. rewrite Hsw.
  exists dst', carry', dstUsed'. rewrite Hlen, Hval in Hval'.
  split_and!; [done|done|lia|done|lia|].
  intros Hzero'. destruct (Hz' Hzero') as [Hused' Hz'']. subst carry'.
  split_and!; [lia|done|lia|done|lia].
Qed.

Lemma wordsLoop_ok (k : nat) :
  digitsValue srcBase src < dstBase ^ Z.of_nat dstSize →
  ∀ fuel wordHead dst dstUsed,
    Z.of_nat (length src) = wordHead + Z.of_nat k * wordLen →
    (k <= fuel)%nat → - wordLen < wordHead →
    invariant wordHead dst dstUsed →
    ∃ dst',
      wordsLoop fuel src srcBase dstBase wordLen wordBase dstSize wordHead dst dstUsed
      = Ok dst'
      ∧ length dst' = dstSize ∧ isDigits dstBase dst'
      ∧ digitsValue dstBase dst' = digitsValue srcBase src.
Proof.
  intros Hfits.
  induction k as [|k IH]; intros fuel wordHead dst dstUsed Hk Hfuel Hhead Hinv.
  - destruct Hinv as (Hlen & Hdst & Hused & Hzero & Hval).
    exists dst. assert (wordHead = Z.of_nat (length src)) as -> by lia.
    assert (digitsValue dstBase dst = digitsValue srcBase src)
      by (rewrite Hval; unfold wordsPrefix; by rewrite Nat2Z.id, firstn_all).
    destruct fuel; simpl; by rewrite Z.ltb_irrefl.
  - destruct fuel as [|fuel]; [lia|].
    assert (wordHead + wordLen <= Z.of_nat (length src)) as Hend by nia.
    destruct (wordsLoop_step fuel wordHead dst dstUsed Hhead Hend Hinv)
      as (dst' & carry' & dstUsed' & -> & Hc' & Hlen' & Hdst' & Hval' & Hinv').
    assert (0 < dstBase) as Hpos by lia.
    pose proof (digitsValue_bound _ _ Hpos Hdst') as Hb'. rewrite Hlen' in Hb'.
    assert (prefix (wordHead + wordLen) <= digitsValue srcBase src) as Hpre
      by (apply digitsValue_take_le; [lia|done]).
    assert (carry' = 0) as Hzero.
    { assert (0 < dstBase ^ Z.of_nat dstSize) by (apply Z.pow_pos_nonneg; lia).
      nia. }
    rewrite Hzero. simpl. apply (IH fuel); [lia|lia|lia|by apply Hinv'].
Qed.

(** When the number does not fit [dstSize] digits, some turn of the loop
    ends with a carry and the assertion fails. *)
Lemma wordsLoop_overflow (k : nat) :
  dstBase ^ Z.of_nat dstSize <= digitsValue srcBase src →
  ∀ fuel wordHead dst dstUsed,
    Z.of_nat (length src) = wordHead + Z.of_nat k * wordLen →
    (k <= fuel)%nat → - wordLen < wordHead →
    invariant wordHead dst dstUsed →
    wordsLoop fuel src srcBase dstBase wordLen wordBase dstSize wordHead dst dstUsed
    = Throw (Error "Assertion failed: too small dst").
Proof.
  intros Hover.
  induction k as [|k IH]; intros fuel wordHead dst dstUsed Hk Hfuel Hhead Hinv.
  - destruct Hinv as (Hlen & Hdst & Hused & Hzero & Hval). exfalso.
    assert (wordHead = Z.of_nat (length src)) as -> by lia.
    unfold wordsPrefix in Hval. rewrite Nat2Z.id, firstn_all in Hval.
    pose proof (digitsValue_bound dstBase dst ltac:(lia) Hdst) as Hb.
    rewrite Hlen in Hb. lia.
  - destruct fuel as [|fuel]; [lia|].
    assert (wordHead + wordLen <= Z.of_nat (length src)) as Hend by nia.
    destruct (wordsLoop_step fuel wordHead dst dstUsed Hhead Hend Hinv)
      as (dst' & carry' & dstUsed' & -> & Hc' & Hlen' & Hdst' & Hval' & Hinv').
    destruct (Z.eqb_spec carry' 0) as [Hzero|Hcarry]; [|done].
    simpl. apply (IH fuel); [lia|lia|lia|by apply Hinv'].
Qed.

(** The outer loop ends: [fuel] turns are enough for [fuel] words. *)
Lemma wordsLoop_terminates (k : nat) :
  ∀ fuel wordHead dst dstUsed,
    Z.of_nat (length src) = wordHead + Z.of_nat k * wordLen →
    (k <= fuel)%nat →
    wordsLoop fuel src srcBase dstBase wordLen wordBase dstSize wordHead dst dstUsed
    ≠ OutOfFuel.
Proof.
  induction k as [|k IH]; intros fuel wordHead dst dstUsed Hk Hfuel.
  - assert (wordHead = Z.of_nat (length src)) as -> by lia.
    destruct fuel; simpl; by rewrite Z.ltb_irrefl.
  - destruct fuel as [|fuel]; [lia|].
    rewrite wordsLoop_S by nia. cbv zeta.
    destruct (readWord _ _ _ _ _) as [carry| |] eqn:Hread; result_simpl; [|done|].
    + destruct (sweep _ _ _ _ _ _) as [[dst1 carry1] dstUsed1].
      destruct (carry1 =? 0); result_simpl; [|done]. apply IH; lia.
    + by apply readWord_terminates in Hread.
Qed.
End words.

(** After its assertions [convertBase] enters the outer loop with a word
    size of at least one digit and a first word that ends a whole number of
    words before the end of [src]. *)
Lemma convertBase_words src srcBase dstBase dstSize :
  2 <= srcBase <= 256 → 2 <= dstBase <= 256 → (0 < dstSize)%nat → src ≠ [] →
  ∃ wordLen wordBase wordHead (k : nat),
    convertBase src srcBase dstBase dstSize
    = wordsLoop (length src) src srcBase dstBase wordLen wordBase dstSize
        wordHead (replicate dstSize 0) (dstSize - 1)
    ∧ 1 <= wordLen ∧ wordBase = srcBase ^ wordLen
    ∧ Z.of_nat (length src) = wordHead + Z.of_nat k * wordLen
    ∧ (k <= length src)%nat ∧ - wordLen < wordHead <= 0.
Proof.
  intros Hs Hd Hsize Hsrc. unfold convertBase.
  assert ((2 <=? srcBase) && (srcBase <=? 256) && (2 <=? dstBase) && (dstBase <=? 256) = true)
    as -> by lia.
  destruct (wordLoop_spec srcBase dstBase Hs Hd 64 1 srcBase)
    as (wordLen & wordBase & -> & HwordLen & HwordBase & _);
    [lia|by rewrite Z.pow_1_r|unfold MAX_SAFE_INTEGER; nia|lia|].
  result_simpl.
  assert (0 < length src)%nat as Hlen by (destruct src; [done|simpl; lia]).
  assert ((Z.of_nat (length src) =? 0) = false) as -> by lia.
  assert ((0 <? dstSize)%nat = true) as -> by (apply Nat.ltb_lt; lia).
  result_simpl. rewrite Z.rem_mod_nonneg by lia.
  set (N := Z.of_nat (length src)) in *.
  pose proof (Z.div_mod N wordLen ltac:(lia)) as Hdm.
  pose proof (Z.mod_pos_bound N wordLen ltac:(lia)) as Hm.
  assert (0 <= N / wordLen) as Hq by (apply Z.div_pos; lia).
  assert (N / wordLen <= N) as Hq' by (apply Z.div_le_upper_bound; nia).
  exists wordLen, wordBase.
  destruct (Z.ltb_spec 0 (N `mod` wordLen)) as [Hshort|Hwhole].
  - exists (N `mod` wordLen - wordLen), (Z.to_nat (N / wordLen + 1)).
    split_and!; [done|done|done|nia| |lia|lia].
    assert (N / wordLen < N); [|unfold N in *; lia].
    apply Z.div_lt_upper_bound; nia.
  - exists (N `mod` wordLen), (Z.to_nat (N / wordLen)).
    split_and!; [done|done|done|nia|unfold N in *; lia|lia|lia].
Qed.

Section convertBase.
Variables (src : list Z) (srcBase dstBase : Z) (dstSize : nat).
Hypothesis HsrcBase : 2 <= srcBase <= 256.
Hypothesis HdstBase : 2 <= dstBase <= 256.
Hypothesis HdstSize : (0 < dstSize)%nat.
Hypothesis Hsrc : isDigits srcBase src.

(** The converter returns the [dstSize] digits, in [dstBase], of the number
    [src] denotes in [srcBase], whenever that number has so many digits. *)
Theorem convertBase_ok :
  digitsValue srcBase src < dstBase ^ Z.of_nat dstSize →
  ∃ dst,
    convertBase src srcBase dstBase dstSize = Ok dst
    ∧ length dst = dstSize ∧ isDigits dstBase dst
    ∧ digitsValue dstBase dst = digitsValue srcBase src.
Proof.
  intros Hfits.
  assert (isDigits dstBase (replicate dstSize 0)) as Hzeros
    by (apply Forall_replicate; lia).
  destruct (decide (src = [])) as [->|Hne].
  { exists (replicate dstSize 0). rewrite length_replicate, digitsValue_zeros.
    unfold convertBase.
    assert ((2 <=? srcBase) && (srcBase <=? 256) && (2 <=? dstBase) && (dstBase <=? 256) = true)
      as -> by lia.
    destruct (wordLoop_spec srcBase dstBase HsrcBase HdstBase 64 1 srcBase)
      as (wordLen & wordBase & -> & _);
      [lia|by rewrite Z.pow_1_r|unfold MAX_SAFE_INTEGER; nia|lia|].
    done. }
  destruct (convertBase_words src srcBase dstBase dstSize)
    as (wordLen & wordBase & wordHead & k & -> & HwordLen & HwordBase & Hk & Hfuel & Hhead);
    try done.
  apply (wordsLoop_ok src srcBase dstBase wordLen wordBase dstSize HsrcBase HdstBase
           HwordLen HwordBase Hsrc k Hfits); [done|done|lia|].
  split_and!; [apply length_replicate|done|lia| |].
  - intros j Hj. apply lookup_replicate_2. lia.
  - rewrite digitsValue_zeros. unfold wordsPrefix.
    by replace (Z.to_nat wordHead) with 0%nat by lia.
Qed.

(** Otherwise the assertion on the last carry fails. *)
Theorem convertBase_overflow :
  dstBase ^ Z.of_nat dstSize <= digitsValue srcBase src →
  convertBase src srcBase dstBase dstSize
  = Throw (Error "Assertion failed: too small dst").
Proof.
  intros Hover.
  assert (src ≠ []) as Hne.
  { intros ->. rewrite digitsValue_nil in Hover.
    assert (0 < dstBase ^ Z.of_nat dstSize) by (apply Z.pow_pos_nonneg; lia). lia. }
  destruct (convertBase_words src srcBase dstBase dstSize)
    as (wordLen & wordBase & wordHead & k & -> & HwordLen & HwordBase & Hk & Hfuel & Hhead);
    try done.
  apply (wordsLoop_overflow src srcBase dstBase wordLen wordBase dstSize HsrcBase
           HdstBase HwordLen HwordBase Hsrc k Hover); [done|done|lia|].
  split_and!; [apply length_replicate|apply Forall_replicate; lia|lia| |].
  - intros j Hj. apply lookup_replicate_2. lia.
  - rewrite digitsValue_zeros. unfold wordsPrefix.
    by replace (Z.to_nat wordHead) with 0%nat by lia.
Qed.
End convertBase.

(** The loops of [convertBase] end, whatever its arguments. *)
Lemma convertBase_terminates src srcBase dstBase dstSize :
  convertBase src srcBase dstBase dstSize ≠ OutOfFuel.
Proof.
  destruct (decide (2 <= srcBase <= 256 ∧ 2 <= dstBase <= 256)) as [[Hs Hd]|Hbase].
  - destruct (decide ((0 < dstSize)%nat ∧ src ≠ [])) as [[Hsize Hne]|Hskip].
    + destruct (convertBase_words src srcBase dstBase dstSize)
        as (wordLen & wordBase & wordHead & k & -> & HwordLen & HwordBase & Hk & Hfuel & Hhead);
        try done.
      eapply wordsLoop_terminates; first [eassumption | lia].
    + unfold convertBase.
      assert ((2 <=? srcBase) && (srcBase <=? 256) && (2 <=? dstBase) && (dstBase <=? 256) = true)
        as -> by lia.
      destruct (wordLoop_spec srcBase dstBase Hs Hd 64 1 srcBase)
        as (wordLen & wordBase & -> & _);
        [lia|by rewrite Z.pow_1_r|unfold MAX_SAFE_INTEGER; nia|lia|].
      result_simpl. destruct (Z.eqb_spec (Z.of_nat (length src)) 0) as [|Hlen]; [done|].
      assert (src ≠ []) by (intros ->; done).
      assert ((0 <? dstSize)%nat = false) as ->; [|done].
      apply Nat.ltb_ge. destruct (decide (0 < dstSize)%nat); [|lia]. tauto.
  - unfold convertBase.
    assert ((2 <=? srcBase) && (srcBase <=? 256) && (2 <=? dstBase) && (dstBase <=? 256) = false)
      as -> by lia.
    done.
Qed.

(** * Digits and characters *)

(** A property of the numbers below [n], decided by running through them. *)
Lemma Z_range_forallb (P : Z → bool) (n : nat) :
  forallb P (Z.of_nat <$> seq 0 n) = true →
  ∀ d, 0 <= d < Z.of_nat n → P d = true.
Proof.
  intros H d Hd. rewrite forallb_forall in H. apply H.
  rewrite <- (Z2Nat.id d) by lia. apply in_map, in_seq. lia.
Qed.

Lemma charAt_digit digits e :
  0 <= e < Z.of_nat (length digits) → charAt digits e = [encodeDigit digits e].
Proof.
  intros He. unfold charAt, encodeDigit.
  destruct (lookup_lt_is_Some_2 digits (Z.to_nat e)) as [c Hc]; [lia|].
  rewrite Hc. by assert ((0 <=? e) = true) as -> by lia.
Qed.

Lemma encodeLoop_digits digits ds :
  isDigits (Z.of_nat (length digits)) ds →
  ∀ buffer, encodeLoop digits ds buffer = buffer ++ (encodeDigit digits <$> ds).
Proof.
  induction 1 as [|e ds He _ IH]; intros buffer; simpl.
  - by rewrite app_nil_r.
  - by rewrite IH, charAt_digit, <- app_assoc.
Qed.

Lemma fromDigitValuesLoop_digits digits ds :
  isDigits (Z.of_nat (length digits)) ds →
  ∀ buffer,
    fromDigitValuesLoop digits ds buffer = Ok (buffer ++ (encodeDigit digits <$> ds)).
Proof.
  induction 1 as [|e ds He _ IH]; intros buffer; simpl.
  - by rewrite app_nil_r.
  - assert ((e <? Z.of_nat (length digits)) = true) as -> by lia. simpl.
    by rewrite IH, charAt_digit, <- app_assoc.
Qed.

(** Whatever the digit values, the loop of [fromDigitValues] returns only
    when each is below the number of digits. *)
Lemma fromDigitValuesLoop_inv digits ds :
  ∀ buffer buffer',
    fromDigitValuesLoop digits ds buffer = Ok buffer' →
    Forall (λ e, e < Z.of_nat (length digits)) ds.
Proof.
  induction ds as [|e ds IH]; intros buffer buffer' H; [done|].
  simpl in H. destruct (Z.ltb_spec e (Z.of_nat (length digits))); [|done].
  simpl in H. constructor; [done|]. by eapply IH.
Qed.

Lemma decodeDigitLoop_ok base cs ds :
  Forall2 (λ c d, decodeDigitChar c = d ∧ d < base) cs ds →
  decodeDigitLoop cs base = Ok ds.
Proof.
  induction 1 as [|c d cs ds [Hc Hd] _ IH]; simpl; [done|].
  rewrite Hc. assert ((d <? base) = true) as -> by lia. simpl.
  by rewrite IH.
Qed.

Lemma decodeCrockfordChars_ok cs ds :
  Forall2 (λ c d, decodeCrockfordChar c = d ∧ d < 32) cs ds →
  decodeCrockfordChars cs = Ok ds.
Proof.
  induction 1 as [|c d cs ds [Hc Hd] _ IH]; simpl; [done|].
  rewrite Hc. assert ((d <? 32) = true) as -> by lia. simpl.
  by rewrite IH.
Qed.

Lemma digits36_decode d :
  0 <= d < 36 → decodeDigitChar (encodeDigit digits36 d) = d.
Proof.
  intros Hd. apply Z.eqb_eq.
  by apply (Z_range_forallb (λ d, decodeDigitChar (encodeDigit digits36 d) =? d) 36).
Qed.

Lemma digits16_decode d :
  0 <= d < 16 → decodeDigitChar (encodeDigit digits16 d) = d.
Proof.
  intros Hd. apply Z.eqb_eq.
  by apply (Z_range_forallb (λ d, decodeDigitChar (encodeDigit digits16 d) =? d) 16).
Qed.

Lemma digits32_decode d :
  0 <= d < 32 → decodeCrockfordChar (encodeDigit digits32 d) = d.
Proof.
  intros Hd. apply Z.eqb_eq.
  by apply (Z_range_forallb (λ d, decodeCrockfordChar (encodeDigit digits32 d) =? d) 32).
Qed.

Lemma decodeDigitChars_encode36 ds :
  isDigits 36 ds → decodeDigitChars (encodeDigit digits36 <$> ds) 36 = Ok ds.
Proof.
  intros Hds. unfold decodeDigitChars. simpl.
  apply decodeDigitLoop_ok, Forall2_fmap_l, Forall_Forall2_diag.
  eapply Forall_impl; [exact Hds|]. simpl. intros d Hd.
  split; [by apply digits36_decode|lia].
Qed.

Lemma decodeDigitChars_encode16 ds :
  isDigits 16 ds → decodeDigitChars (encodeDigit digits16 <$> ds) 16 = Ok ds.
Proof.
  intros Hds. unfold decodeDigitChars. simpl.
  apply decodeDigitLoop_ok, Forall2_fmap_l, Forall_Forall2_diag.
  eapply Forall_impl; [exact Hds|]. simpl. intros d Hd.
  split; [by apply digits16_decode|lia].
Qed.

Lemma decodeCrockfordChars_encode32 ds :
  isDigits 32 ds → decodeCrockfordChars (encodeDigit digits32 <$> ds) = Ok ds.
Proof.
  intros Hds.
  apply decodeCrockfordChars_ok, Forall2_fmap_l, Forall_Forall2_diag.
  eapply Forall_impl; [exact Hds|]. simpl. intros d Hd.
  split; [by apply digits32_decode|lia].
Qed.

(** * The order of strings and the order of numbers *)

Section lexicographic.
Variables (enc : Z → Z) (base : Z).
Hypothesis Hbase : 0 < base.
Hypothesis Hmono :
  ∀ a b, 0 <= a < base → 0 <= b < base → (enc a <? enc b) = (a <? b).

(** With an increasing alphabet, strings of one length compare as the
    numbers they denote. *)
Lemma js_lt_digits ds :
  ∀ es, isDigits base ds → isDigits base es → length ds = length es →
    js_lt (enc <$> ds) (enc <$> es)
    = (digitsValue base ds <? digitsValue base es).
Proof.
  induction ds as [|d ds IH]; intros [|e es] Hds Hes Hlen; try done.
  apply Forall_cons in Hds as [Hd Hds]. apply Forall_cons in Hes as [He Hes].
  simpl in Hlen. assert (length ds = length es) as Hlen' by lia.
  simpl. rewrite !Hmono, !digitsValue_cons, IH, Hlen' by done.
  pose proof (digitsValue_bound _ _ Hbase Hds) as B1. rewrite Hlen' in B1.
  pose proof (digitsValue_bound _ _ Hbase Hes) as B2.
  set (P := base ^ Z.of_nat (length es)) in *.
  destruct (Z.ltb_spec d e); [symmetry; apply Z.ltb_lt; nia|].
  destruct (Z.ltb_spec e d); [symmetry; apply Z.ltb_ge; nia|].
  assert (d = e) as -> by lia.
  destruct (Z.ltb_spec (digitsValue base ds) (digitsValue base es));
    symmetry; [apply Z.ltb_lt|apply Z.ltb_ge]; lia.
Qed.
End lexicographic.

Lemma digits36_increasing a b :
  0 <= a < 36 → 0 <= b < 36 →
  (encodeDigit digits36 a <? encodeDigit digits36 b) = (a <? b).
Proof.
  intros Ha Hb. apply Bool.eqb_prop.
  revert b Hb. apply (Z_range_forallb _ 36). revert a Ha.
  by apply (Z_range_forallb
    (λ a, forallb (λ b, Bool.eqb (encodeDigit digits36 a <? encodeDigit digits36 b)
                               (a <? b))
            (Z.of_nat <$> seq 0 36)) 36).
Qed.

Lemma MAX_encode : MAX = encodeDigit digits36 <$> MAX_digits.
Proof. reflexivity. Qed.

Lemma MAX_value : digitsValue 36 MAX_digits = 2 ^ 128 - 1.
Proof. reflexivity. Qed.

Lemma MAX_isDigits : isDigits 36 MAX_digits.
Proof. unfold MAX_digits. repeat constructor; done. Qed.

(** [buffer <= Uuid25.MAX] is the 128-bit bound. *)
Lemma js_le_MAX ds :
  length ds = 25%nat → isDigits 36 ds →
  js_le (encodeDigit digits36 <$> ds) MAX = (digitsValue 36 ds <=? 2 ^ 128 - 1).
Proof.
  intros Hlen Hds. unfold js_le. rewrite MAX_encode.
  rewrite (js_lt_digits _ 36 ltac:(lia) digits36_increasing _ _ MAX_isDigits Hds)
    by (by rewrite Hlen).
  rewrite MAX_value. lia.
Qed.

(** ** Canonical values *)

Lemma in_class_ascii cls c :
  Forall (λ r, 0 <= r.1 ∧ r.2 < 128) cls → in_class cls c = true → 0 <= c < 128.
Proof.
  unfold in_class. intros Hcls H. apply existsb_exists in H as ([lo hi] & Hin & Hc).
  apply list_elem_of_In in Hin.
  pose proof (proj1 (Forall_forall _ _) Hcls _ Hin) as Hr. simpl in *. lia.
Qed.

Lemma cls_0_9a_z_decode c :
  in_class cls_0_9a_z c = true →
  0 <= decodeDigitChar c < 36 ∧ encodeDigit digits36 (decodeDigitChar c) = c.
Proof.
  intros Hc.
  assert (0 <= c < 128) as Hascii
    by (eapply in_class_ascii; [|done]; repeat constructor; simpl; lia).
  revert Hc.
  assert (implb (in_class cls_0_9a_z c)
            ((0 <=? decodeDigitChar c) && (decodeDigitChar c <? 36)
             && (encodeDigit digits36 (decodeDigitChar c) =? c)) = true) as H.
  { revert c Hascii. by apply (Z_range_forallb _ 128). }
  intros Hc. rewrite Hc in H. simpl in H. lia.
Qed.

Lemma digits36_in_class d :
  0 <= d < 36 → in_class cls_0_9a_z (encodeDigit digits36 d) = true.
Proof. revert d. by apply (Z_range_forallb _ 36). Qed.

(** A canonical value is the base-36 numeral of a number below [2 ^ 128]. *)
Lemma canonical_digits s :
  canonical s ↔
  ∃ ds, s = encodeDigit digits36 <$> ds ∧ length ds = 25%nat ∧ isDigits 36 ds
        ∧ digitsValue 36 ds <= 2 ^ 128 - 1.
Proof.
  split.
  - intros (Hlen & Hcls & Hle). exists (decodeDigitChar <$> s).
    assert (s = encodeDigit digits36 <$> (decodeDigitChar <$> s)) as Hs.
    { rewrite <- list_fmap_compose. rewrite <- (list_fmap_id s) at 1.
      apply Forall_fmap_ext_1. eapply Forall_impl; [exact Hcls|].
      intros c Hc. simpl. symmetry. by apply cls_0_9a_z_decode. }
    assert (isDigits 36 (decodeDigitChar <$> s)) as Hds.
    { apply Forall_fmap. eapply Forall_impl; [exact Hcls|].
      intros c Hc. simpl. by apply cls_0_9a_z_decode. }
    split_and!; [done|by rewrite length_fmap|done|].
    rewrite Hs, js_le_MAX in Hle by (by rewrite ?length_fmap). lia.
  - intros (ds & -> & Hlen & Hds & Hv). split_and!.
    + by rewrite length_fmap.
    + apply Forall_fmap. eapply Forall_impl; [exact Hds|].
      intros d Hd. simpl. by apply digits36_in_class.
    + rewrite js_le_MAX by done. lia.
Qed.

(** * The patterns *)

Lemma exec_Cap ignoreCase cls n re g s :
  class_run ignoreCase cls n g = true →
  exec ignoreCase (Cap cls n :: re) (g ++ s) = cons g <$> exec ignoreCase re s.
Proof.
  intros Hg. assert (length g = n) as Hn.
  { unfold class_run in Hg. apply andb_true_iff in Hg as [Hg _].
    by apply Nat.eqb_eq in Hg. }
  simpl. by rewrite take_app_length', drop_app_length', Hg.
Qed.

Lemma lit_match_length ignoreCase text s :
  lit_match ignoreCase text s = true → length s = length text.
Proof.
  revert s. induction text as [|p text IH]; intros [|c s] H; try done.
  simpl in *. apply andb_true_iff in H as [_ H]. f_equal. by apply IH.
Qed.

Lemma exec_Lit ignoreCase text re t s :
  lit_match ignoreCase text t = true →
  exec ignoreCase (Lit text :: re) (t ++ s) = exec ignoreCase re s.
Proof.
  intros Ht. pose proof (lit_match_length _ _ _ Ht) as Hn.
  simpl. by rewrite take_app_length', drop_app_length', Ht.
Qed.

Lemma test_Rep ignoreCase cls n s :
  test ignoreCase [Rep cls n] s = class_run ignoreCase cls n s.
Proof.
  unfold test. simpl. unfold class_run.
  destruct (decide (length s <= n)%nat) as [Hle|Hgt].
  - rewrite take_ge, drop_ge by done.
    by destruct ((length s =? n)%nat && forallb (class_match ignoreCase cls) s).
  - rewrite length_take.
    assert (length s ≠ n) as Hne by lia. apply Nat.eqb_neq in Hne as ->.
    destruct ((Nat.min n (length s) =? n)%nat && _); [|done].
    destruct (drop n s) eqn:Hdrop; [|done].
    apply (f_equal length) in Hdrop. rewrite length_drop in Hdrop. simpl in Hdrop. lia.
Qed.

Lemma class_run_Forall ignoreCase cls n g :
  length g = n → Forall (λ c, class_match ignoreCase cls c = true) g →
  class_run ignoreCase cls n g = true.
Proof.
  intros Hn Hg. unfold class_run. apply andb_true_iff. split.
  - by apply Nat.eqb_eq.
  - apply forallb_forall. intros c Hc. apply list_elem_of_In in Hc.
    by apply (proj1 (Forall_forall _ _) Hg).
Qed.

Lemma class_run_inv ignoreCase cls n g :
  class_run ignoreCase cls n g = true →
  length g = n ∧ Forall (λ c, class_match ignoreCase cls c = true) g.
Proof.
  unfold class_run. intros H. apply andb_true_iff in H as [Hn Hg].
  split; [by apply Nat.eqb_eq|].
  apply Forall_forall. intros c Hc. apply list_elem_of_In in Hc.
  by apply (proj1 (forallb_forall _ _) Hg).
Qed.

Lemma exec_Cap_last ignoreCase cls n g :
  class_run ignoreCase cls n g = true →
  exec ignoreCase [Cap cls n] g = Some [g].
Proof.
  intros Hg. rewrite <- (app_nil_r g) at 1. by rewrite exec_Cap.
Qed.

Lemma class_match_ignoreCase cls c :
  class_match false cls c = true → class_match true cls c = true.
Proof. unfold class_match. intros H. rewrite orb_false_r in H. by rewrite H. Qed.

(** * The length dispatch of [parse] *)

Lemma parse_25 s : length s = 25%nat → parse s = parseUuid25 s.
Proof. unfold parse. by intros ->. Qed.
Lemma parse_26 s : length s = 26%nat → parse s = parseCrockford s.
Proof. unfold parse. by intros ->. Qed.
Lemma parse_32 s : length s = 32%nat → parse s = parseHex s.
Proof. unfold parse. by intros ->. Qed.
Lemma parse_36 s : length s = 36%nat → parse s = parseHyphenated s.
Proof. unfold parse. by intros ->. Qed.
Lemma parse_38 s : length s = 38%nat → parse s = parseBraced s.
Proof. unfold parse. by intros ->. Qed.
Lemma parse_45 s : length s = 45%nat → parse s = parseUrn s.
Proof. unfold parse. by intros ->. Qed.

(** * The hexadecimal formats *)

Lemma hexGroups_spec hex :
  isHex hex →
  ∃ g1 g2 g3 g4 g5,
    hex = g1 ++ g2 ++ g3 ++ g4 ++ g5 ∧ hexGroups hex = [g1; g2; g3; g4; g5]
    ∧ (∀ ignoreCase,
         class_run ignoreCase cls_0_9a_f 8 g1 = true
         ∧ class_run ignoreCase cls_0_9a_f 4 g2 = true
         ∧ class_run ignoreCase cls_0_9a_f 4 g3 = true
         ∧ class_run ignoreCase cls_0_9a_f 4 g4 = true
         ∧ class_run ignoreCase cls_0_9a_f 12 g5 = true).
Proof.
  intros [Hlen Hcls].
  exists (take 8 hex), (take 4 (drop 8 hex)), (take 4 (drop 12 hex)),
    (take 4 (drop 16 hex)), (drop 20 hex).
  split_and!.
  - rewrite <- (take_drop 8 hex) at 1. f_equal.
    rewrite <- (take_drop 4 (drop 8 hex)) at 1. f_equal. rewrite drop_drop. simpl.
    rewrite <- (take_drop 4 (drop 12 hex)) at 1. f_equal. rewrite drop_drop. simpl.
    rewrite <- (take_drop 4 (drop 16 hex)) at 1. f_equal. by rewrite drop_drop.
  - done.
  - assert (∀ ignoreCase, Forall (λ c, class_match ignoreCase cls_0_9a_f c = true) hex) as H.
    { intros [|]; [|done]. eapply Forall_impl; [exact Hcls|].
      intros c. apply class_match_ignoreCase. }
    intros ignoreCase. specialize (H ignoreCase).
    split_and!; apply class_run_Forall;
      rewrite ?length_take, ?length_drop, ?Hlen; try done;
      repeat first [apply Forall_take | apply Forall_drop]; done.
Qed.

Lemma exec_groups hex :
  isHex hex →
  exec false [Cap cls_0_9a_f 8; Cap cls_0_9a_f 4; Cap cls_0_9a_f 4;
              Cap cls_0_9a_f 4; Cap cls_0_9a_f 12] hex
  = Some (hexGroups hex).
Proof.
  intros Hhex.
  destruct (hexGroups_spec hex Hhex) as (g1 & g2 & g3 & g4 & g5 & Heq & -> & Hrun).
  destruct (Hrun false) as (H1 & H2 & H3 & H4 & H5). rewrite Heq.
  by rewrite !exec_Cap, exec_Cap_last by done.
Qed.

Lemma exec_hyphenated hex prefix suffix :
  isHex hex →
  exec true (hyphenated ++ suffix) (join (js "-") (hexGroups hex) ++ prefix)
  = (λ rest, hexGroups hex ++ rest) <$> exec true suffix prefix.
Proof.
  intros Hhex.
  destruct (hexGroups_spec hex Hhex) as (g1 & g2 & g3 & g4 & g5 & Heq & -> & Hrun).
  destruct (Hrun true) as (H1 & H2 & H3 & H4 & H5).
  change (join (js "-") [g1; g2; g3; g4; g5])
    with (g1 ++ js "-" ++ g2 ++ js "-" ++ g3 ++ js "-" ++ g4 ++ js "-" ++ g5).
  change (hyphenated ++ suffix)
    with (Cap cls_0_9a_f 8 :: Lit (js "-") :: Cap cls_0_9a_f 4 :: Lit (js "-")
          :: Cap cls_0_9a_f 4 :: Lit (js "-") :: Cap cls_0_9a_f 4 :: Lit (js "-")
          :: Cap cls_0_9a_f 12 :: suffix).
  rewrite <- !app_assoc.
  rewrite (exec_Cap _ _ _ _ g1), (exec_Lit _ _ _ (js "-")) by done.
  rewrite (exec_Cap _ _ _ _ g2), (exec_Lit _ _ _ (js "-")) by done.
  rewrite (exec_Cap _ _ _ _ g3), (exec_Lit _ _ _ (js "-")) by done.
  rewrite (exec_Cap _ _ _ _ g4), (exec_Lit _ _ _ (js "-")) by done.
  rewrite (exec_Cap _ _ _ _ g5) by done.
  by destruct (exec true suffix prefix).
Qed.

Lemma exec_hyphenated_only hex :
  isHex hex →
  exec true hyphenated (join (js "-") (hexGroups hex)) = Some (hexGroups hex).
Proof.
  intros Hhex. pose proof (exec_hyphenated hex [] [] Hhex) as H.
  rewrite !app_nil_r in H. rewrite H.
  change (exec true [] []) with (Some (@nil (list Z))).
  cbn [fmap option_fmap option_map]. by rewrite app_nil_r.
Qed.

Lemma join_hexGroups hex : isHex hex → join [] (hexGroups hex) = hex.
Proof.
  intros Hhex.
  destruct (hexGroups_spec hex Hhex) as (g1 & g2 & g3 & g4 & g5 & Heq & -> & _).
  by rewrite Heq.
Qed.

Lemma length_join_hexGroups hex :
  isHex hex → length (join (js "-") (hexGroups hex)) = 36%nat.
Proof.
  intros Hhex.
  destruct (hexGroups_spec hex Hhex) as (g1 & g2 & g3 & g4 & g5 & Heq & -> & Hrun).
  destruct (Hrun false) as (H1 & H2 & H3 & H4 & H5).
  apply class_run_inv in H1 as [H1 _], H2 as [H2 _], H3 as [H3 _], H4 as [H4 _],
    H5 as [H5 _].
  change (join (js "-") [g1; g2; g3; g4; g5])
    with (g1 ++ js "-" ++ g2 ++ js "-" ++ g3 ++ js "-" ++ g4 ++ js "-" ++ g5).
  rewrite !length_app, H1, H2, H3, H4, H5. done.
Qed.

(** The four hexadecimal syntaxes of one string reach [parseHexImpl] with
    that string. *)
Lemma parse_hex hex : isHex hex → parse hex = parseHexImpl (Some hex).
Proof.
  intros Hhex. rewrite parse_32 by apply Hhex. unfold parseHex.
  rewrite test_Rep, class_run_Forall; [done|apply Hhex|].
  eapply Forall_impl; [apply Hhex|]. intros c. apply class_match_ignoreCase.
Qed.

Lemma parse_hyphenated hex :
  isHex hex → parse (join (js "-") (hexGroups hex)) = parseHexImpl (Some hex).
Proof.
  intros Hhex. rewrite parse_36 by by apply length_join_hexGroups.
  unfold parseHyphenated. rewrite exec_hyphenated_only by done.
  cbn [fmap option_fmap option_map]. by rewrite join_hexGroups.
Qed.

Lemma parse_braced hex :
  isHex hex →
  parse (js "{" ++ join (js "-") (hexGroups hex) ++ js "}") = parseHexImpl (Some hex).
Proof.
  intros Hhex.
  rewrite parse_38 by (rewrite !length_app, length_join_hexGroups; done).
  unfold parseBraced.
  change ([Lit (js "{")] ++ hyphenated ++ [Lit (js "}")])
    with (Lit (js "{") :: hyphenated ++ [Lit (js "}")]).
  rewrite (exec_Lit _ _ _ (js "{")), exec_hyphenated by done.
  change (exec true [Lit (js "}")] (js "}")) with (Some (@nil (list Z))).
  cbn [fmap option_fmap option_map]. by rewrite app_nil_r, join_hexGroups.
Qed.

Lemma parse_urn hex :
  isHex hex →
  parse (js "urn:uuid:" ++ join (js "-") (hexGroups hex)) = parseHexImpl (Some hex).
Proof.
  intros Hhex.
  rewrite parse_45 by (rewrite !length_app, length_join_hexGroups; done).
  unfold parseUrn.
  rewrite (exec_Lit _ _ _ (js "urn:uuid:")), exec_hyphenated_only by done.
  cbn [fmap option_fmap option_map]. by rewrite join_hexGroups.
Qed.

(** * The operations on a value *)

Lemma pow2_128_lt_36_25 : 2 ^ 128 - 1 < 36 ^ 25.
Proof. by apply Z.ltb_lt. Qed.

Lemma digits16_isHex hs :
  length hs = 32%nat → isDigits 16 hs → isHex (encodeDigit digits16 <$> hs).
Proof.
  intros Hlen Hhs. split; [by rewrite length_fmap|].
  apply Forall_fmap. eapply Forall_impl; [exact Hhs|]. simpl.
  by apply (Z_range_forallb (λ d, class_match false cls_0_9a_f (encodeDigit digits16 d)) 16).
Qed.

Lemma digits32_class cs :
  isDigits 32 cs →
  Forall (λ c, class_match false cls_0_9A_Za_z c = true) (encodeDigit digits32 <$> cs).
Proof.
  intros Hcs. apply Forall_fmap. eapply Forall_impl; [exact Hcs|]. simpl.
  by apply (Z_range_forallb
    (λ d, class_match false cls_0_9A_Za_z (encodeDigit digits32 d)) 32).
Qed.

Lemma digits36_class ds :
  isDigits 36 ds →
  Forall (λ c, class_match true cls_0_9a_z c = true) (encodeDigit digits36 <$> ds).
Proof.
  intros Hds. apply Forall_fmap. eapply Forall_impl; [exact Hds|]. simpl.
  by apply (Z_range_forallb (λ d, class_match true cls_0_9a_z (encodeDigit digits36 d)) 36).
Qed.

Lemma digits36_lowercase ds :
  isDigits 36 ds →
  toLowerCase (encodeDigit digits36 <$> ds) = encodeDigit digits36 <$> ds.
Proof.
  intros Hds. unfold toLowerCase. rewrite <- list_fmap_compose.
  apply Forall_fmap_ext_1. eapply Forall_impl; [exact Hds|]. simpl.
  intros d Hd. apply Z.eqb_eq. revert d Hd.
  by apply (Z_range_forallb
    (λ d, toLower1 (encodeDigit digits36 d) =? encodeDigit digits36 d) 36).
Qed.

Section value.
Variable ds : list Z.
Hypothesis Hlen : length ds = 25%nat.
Hypothesis Hds : isDigits 36 ds.
Hypothesis Hval : digitsValue 36 ds <= 2 ^ 128 - 1.

(** The value whose digits are [ds]. *)
Local Abbreviation v := (new_Uuid25 (encodeDigit digits36 <$> ds)).

Lemma fromDigitValues_ok : fromDigitValues ds = Ok v.
Proof.
  unfold fromDigitValues. rewrite Hlen. change (25 =? 25)%nat with true.
  result_simpl. rewrite (fromDigitValuesLoop_digits digits36 ds Hds).
  result_simpl. rewrite app_nil_l, js_le_MAX by done.
  assert ((digitsValue 36 ds <=? 2 ^ 128 - 1) = true) as -> by lia.
  done.
Qed.

(** Converting the same number to base 36 gives back [ds]. *)
Lemma convertBase_to_36 src srcBase :
  2 <= srcBase <= 256 → isDigits srcBase src →
  digitsValue srcBase src = digitsValue 36 ds →
  convertBase src srcBase 36 25 = Ok ds.
Proof.
  intros Hbase Hsrc Heq. pose proof pow2_128_lt_36_25.
  destruct (convertBase_ok src srcBase 36 25) as (dst & -> & Hl & Hd & Hv);
    [done|lia|lia|done|change (Z.of_nat 25) with 25; lia|].
  f_equal. apply (digitsValue_inj 36); [lia|done|done|lia|lia].
Qed.

Lemma convertBase_from_36 dstBase dstSize :
  2 <= dstBase <= 256 → (0 < dstSize)%nat → 2 ^ 128 <= dstBase ^ Z.of_nat dstSize →
  ∃ dst, convertBase ds 36 dstBase dstSize = Ok dst
         ∧ length dst = dstSize ∧ isDigits dstBase dst
         ∧ digitsValue dstBase dst = digitsValue 36 ds.
Proof. intros Hbase Hsize Hfit. apply convertBase_ok; try done; lia. Qed.

Lemma decodeDigitChars_value : decodeDigitChars (value v) 36 = Ok ds.
Proof. by apply decodeDigitChars_encode36. Qed.

Lemma toBytes_ok :
  ∃ bs, toBytes v = Ok bs ∧ length bs = 16%nat ∧ isDigits 256 bs
        ∧ digitsValue 256 bs = digitsValue 36 ds.
Proof.
  unfold toBytes. rewrite decodeDigitChars_value. result_simpl.
  apply convertBase_from_36; [lia|lia|done].
Qed.

Lemma toHex_ok :
  ∃ hs, toHex v = Ok (encodeDigit digits16 <$> hs) ∧ length hs = 32%nat
        ∧ isDigits 16 hs ∧ digitsValue 16 hs = digitsValue 36 ds.
Proof.
  unfold toHex. rewrite decodeDigitChars_value. result_simpl.
  destruct (convertBase_from_36 16 32) as (hs & -> & Hl & Hd & Hv); [lia|lia|done|].
  exists hs. result_simpl. by rewrite (encodeLoop_digits digits16 hs Hd).
Qed.

Lemma toCrockford_ok :
  ∃ cs, toCrockford v = Ok (encodeDigit digits32 <$> cs) ∧ length cs = 26%nat
        ∧ isDigits 32 cs ∧ digitsValue 32 cs = digitsValue 36 ds.
Proof.
  unfold toCrockford. rewrite decodeDigitChars_value. result_simpl.
  destruct (convertBase_from_36 32 26) as (cs & -> & Hl & Hd & Hv); [lia|lia|done|].
  exists cs. result_simpl. by rewrite (encodeLoop_digits digits32 cs Hd).
Qed.

Lemma toHyphenated_ok :
  ∃ hex, toHex v = Ok hex ∧ isHex hex
         ∧ toHyphenated v = Ok (join (js "-") (hexGroups hex)).
Proof.
  destruct toHex_ok as (hs & Hhex & Hl & Hd & Hv).
  pose proof (digits16_isHex hs Hl Hd) as His.
  exists (encodeDigit digits16 <$> hs). split_and!; [done|done|].
  unfold toHyphenated. rewrite Hhex. result_simpl. by rewrite exec_groups.
Qed.

Lemma parseHexImpl_ok hs :
  isDigits 16 hs → digitsValue 16 hs = digitsValue 36 ds →
  parseHexImpl (Some (encodeDigit digits16 <$> hs)) = Ok v.
Proof.
  intros Hd Hv. unfold parseHexImpl.
  rewrite decodeDigitChars_encode16 by done. result_simpl.
  rewrite (convertBase_to_36 hs 16) by (done || lia). result_simpl.
  apply fromDigitValues_ok.
Qed.

Lemma parseCrockford_ok cs :
  length cs = 26%nat → isDigits 32 cs → digitsValue 32 cs = digitsValue 36 ds →
  parseCrockford (encodeDigit digits32 <$> cs) = Ok v.
Proof.
  intros Hl Hd Hv. unfold parseCrockford.
  rewrite test_Rep, class_run_Forall;
    [|by rewrite length_fmap|by apply digits32_class].
  cbn [negb]. rewrite decodeCrockfordChars_encode32 by done. result_simpl.
  rewrite (convertBase_to_36 cs 32) by (done || lia). result_simpl.
  apply fromDigitValues_ok.
Qed.

Lemma parseUuid25_ok : parseUuid25 (value v) = Ok v.
Proof.
  unfold parseUuid25. simpl value.
  rewrite test_Rep, class_run_Forall;
    [|by rewrite length_fmap|by apply digits36_class].
  cbv zeta. rewrite digits36_lowercase, js_le_MAX by done.
  by assert ((digitsValue 36 ds <=? 2 ^ 128 - 1) = true) as -> by lia.
Qed.
End value.

Lemma equals_eq (a b : Uuid25) : equals a b = true ↔ a = b.
Proof.
  unfold equals. rewrite bool_decide_eq_true. destruct a, b; simpl.
  split; [by intros ->|by intros [= ->]].
Qed.

Lemma fromBytes_ok b :
  length b = 16%nat → isDigits 256 b →
  ∃ ds, length ds = 25%nat ∧ isDigits 36 ds
        ∧ digitsValue 36 ds = digitsValue 256 b
        ∧ digitsValue 36 ds <= 2 ^ 128 - 1
        ∧ fromBytes b = Ok (new_Uuid25 (encodeDigit digits36 <$> ds)).
Proof.
  intros Hlen Hb. unfold fromBytes. rewrite Hlen. change (16 =? 16)%nat with true.
  cbn [negb].
  pose proof (digitsValue_bound 256 b ltac:(lia) Hb) as Hbound.
  rewrite Hlen in Hbound. change (256 ^ Z.of_nat 16) with (2 ^ 128) in Hbound.
  pose proof pow2_128_lt_36_25.
  destruct (convertBase_ok b 256 36 25) as (ds & -> & Hl & Hd & Hv);
    [lia|lia|lia|done|change (Z.of_nat 25) with 25; lia|].
  exists ds. result_simpl. split_and!; [done|done|done|lia|].
  apply fromDigitValues_ok; [done|done|lia].
Qed.

Lemma decodeCrockfordChar_nonneg c : 0 <= decodeCrockfordChar c.
Proof. unfold decodeCrockfordChar, u8. apply Z.mod_pos_bound. lia. Qed.

Lemma fromDigitValues_overflow ds :
  length ds = 25%nat → isDigits 36 ds → 2 ^ 128 - 1 < digitsValue 36 ds →
  fromDigitValues ds = Throw (Error "Assertion failed: 128-bit overflow").
Proof.
  intros Hlen Hds Hover. unfold fromDigitValues. rewrite Hlen.
  change (25 =? 25)%nat with true. result_simpl.
  rewrite (fromDigitValuesLoop_digits digits36 ds Hds). result_simpl.
  rewrite app_nil_l, js_le_MAX by done.
  by assert ((digitsValue 36 ds <=? 2 ^ 128 - 1) = false) as -> by lia.
Qed.

(** The two ways the bound check of [parseCrockford] fails, evaluated: a
    value of [2 ^ 130 - 1] does not fit 25 digits of base 36, a value of
    [2 ^ 128] fits them and is above [Uuid25.MAX]. *)
Example parseCrockford_overflow_examples :
  parse (js "ZZZZZZZZZZZZZZZZZZZZZZZZZZ")
  = Throw (Error "Assertion failed: too small dst")
  ∧ parse (js "80000000000000000000000000")
    = Throw (Error "Assertion failed: 128-bit overflow").
Proof. by vm_compute. Qed.

Lemma decodeCrockfordChars_invalid s :
  Exists (λ c, 32 <= decodeCrockfordChar c) s →
  decodeCrockfordChars s
  = Throw (Error "Assertion failed: invalid Crockford Base32 character").
Proof.
  induction s as [|c s IH]; intros H; [by apply Exists_nil in H|].
  simpl. destruct (Z.ltb_spec (decodeCrockfordChar c) 32) as [Hlt|Hge]; [|done].
  apply Exists_cons in H as [H|H]; [lia|].
  result_simpl. by rewrite IH.
Qed.

(** * The construction paths *)

Lemma sweep_nonneg wordBase dstBase n :
  ∀ dst carry dstUsed,
    Forall (λ d, 0 <= d) dst →
    Forall (λ d, 0 <= d) (sweep n wordBase dstBase dst carry dstUsed).1.1.
Proof.
  induction n as [|n IH]; intros dst carry dstUsed Hdst; [done|].
  rewrite sweep_S. cbv zeta.
  assert (∀ x, Forall (λ d, 0 <= d) (<[n:=u8 x]> dst)) as Hins.
  { intros x. apply Forall_insert; [done|]. unfold u8.
    apply Z.mod_pos_bound. lia. }
  destruct (_ && _); [apply Hins|apply IH, Hins].
Qed.

Lemma wordsLoop_nonneg src srcBase dstBase wordLen wordBase dstSize fuel :
  ∀ wordHead dst dstUsed dst',
    Forall (λ d, 0 <= d) dst →
    wordsLoop fuel src srcBase dstBase wordLen wordBase dstSize wordHead dst dstUsed
    = Ok dst' →
    Forall (λ d, 0 <= d) dst'.
Proof.
  induction fuel as [|fuel IH]; intros wordHead dst dstUsed dst' Hdst; simpl;
    destruct (wordHead <? Z.of_nat (length src)); try congruence.
  destruct (readWord _ _ _ _ _) as [carry| |]; result_simpl; try done.
  pose proof (sweep_nonneg wordBase dstBase dstSize dst carry dstUsed Hdst) as Hsw.
  destruct (sweep _ _ _ _ _ _) as [[dst1 carry1] dstUsed1]. simpl in Hsw.
  destruct (carry1 =? 0); result_simpl; [|done]. by apply IH.
Qed.

(** The elements of the array [convertBase] returns are never negative. *)
Lemma convertBase_nonneg src srcBase dstBase dstSize dst :
  convertBase src srcBase dstBase dstSize = Ok dst → Forall (λ d, 0 <= d) dst.
Proof.
  unfold convertBase.
  destruct (_ && _); result_simpl; [|done].
  destruct (wordLoop 64 srcBase dstBase 1 srcBase) as [[wordLen wordBase]| |];
    result_simpl; try done.
  assert (Forall (λ d, 0 <= d) (replicate dstSize 0)) as Hzeros
    by (by apply Forall_replicate).
  destruct (_ =? 0); [by intros [= <-]|].
  destruct (_ <? _)%nat; result_simpl; [|done].
  by apply wordsLoop_nonneg.
Qed.

(** [fromDigitValues] returns canonical values on arrays of digit values
    (numbers that are not negative). *)
Lemma fromDigitValues_canonical digitValues v :
  Forall (λ e, 0 <= e) digitValues →
  fromDigitValues digitValues = Ok v → canonical (value v).
Proof.
  intros Hnonneg. unfold fromDigitValues.
  destruct (Nat.eqb_spec (length digitValues) 25) as [Hlen|]; result_simpl; [|done].
  destruct (fromDigitValuesLoop digits36 digitValues []) as [buffer| |] eqn:Hloop;
    result_simpl; try done.
  assert (isDigits 36 digitValues) as Hds.
  { apply fromDigitValuesLoop_inv in Hloop.
    apply Forall_and; split; [done|exact Hloop]. }
  rewrite (fromDigitValuesLoop_digits digits36 _ Hds), app_nil_l in Hloop.
  injection Hloop as <-.
  destruct (js_le _ MAX) eqn:Hle; result_simpl; [|done].
  intros [= <-]. cbn [value]. apply canonical_digits. exists digitValues.
  rewrite js_le_MAX in Hle by done. split_and!; try done. lia.
Qed.

Lemma convertBase_fromDigitValues_canonical src srcBase v :
  convertBase src srcBase 36 25 ≫= fromDigitValues = Ok v → canonical (value v).
Proof.
  destruct (convertBase src srcBase 36 25) as [dst| |] eqn:Hconv; result_simpl;
    try done.
  apply fromDigitValues_canonical. by eapply convertBase_nonneg.
Qed.

Lemma parseHexImpl_canonical uuidString v :
  parseHexImpl uuidString = Ok v → canonical (value v).
Proof.
  unfold parseHexImpl. destruct uuidString as [hex|]; [|done].
  destruct (decodeDigitChars hex 16) as [src| |]; result_simpl;
    [|intros [=]..].
  apply convertBase_fromDigitValues_canonical.
Qed.

Lemma class_match_ascii ignoreCase cls c :
  Forall (λ r, 0 <= r.1 ∧ r.2 < 128) cls →
  class_match ignoreCase cls c = true → 0 <= c < 128.
Proof.
  intros Hcls. unfold class_match.
  intros [H|H]%orb_true_iff; [by eapply in_class_ascii|].
  apply andb_true_iff in H as [_ [H|H]%orb_true_iff];
    apply (in_class_ascii cls _ Hcls) in H;
    unfold toUpper1, toLower1 in H;
    repeat case_match; lia.
Qed.

Lemma cls_0_9a_z_lowercase c :
  class_match true cls_0_9a_z c = true → in_class cls_0_9a_z (toLower1 c) = true.
Proof.
  intros Hc.
  assert (0 <= c < 128) as Hascii
    by (eapply class_match_ascii; [|done]; repeat constructor; simpl; lia).
  revert Hc.
  assert (implb (class_match true cls_0_9a_z c) (in_class cls_0_9a_z (toLower1 c))
          = true) as H.
  { revert c Hascii. by apply (Z_range_forallb _ 128). }
  intros Hc. by rewrite Hc in H.
Qed.

Lemma parseUuid25_canonical s v : parseUuid25 s = Ok v → canonical (value v).
Proof.
  unfold parseUuid25. destruct (test _ _ _) eqn:Htest; [|done]. cbv zeta.
  destruct (js_le _ MAX) eqn:Hle; [|done]. intros [= <-]. cbn [value].
  rewrite test_Rep in Htest. apply class_run_inv in Htest as [Hlen Hcls].
  unfold toLowerCase in *.
  split_and!; [by rewrite length_fmap| |done].
  apply Forall_fmap. eapply Forall_impl; [exact Hcls|].
  intros c. apply cls_0_9a_z_lowercase.
Qed.

Lemma parseCrockford_canonical s v : parseCrockford s = Ok v → canonical (value v).
Proof.
  unfold parseCrockford. destruct (negb _); [done|].
  destruct (decodeCrockfordChars s) as [src| |]; result_simpl;
    [|intros [=]..].
  apply convertBase_fromDigitValues_canonical.
Qed.

(** What [parse] returns, one of its six parsers returned. *)
Lemma parse_Ok s v :
  parse s = Ok v →
  parseUuid25 s = Ok v ∨ parseCrockford s = Ok v ∨ parseHex s = Ok v
  ∨ parseHyphenated s = Ok v ∨ parseBraced s = Ok v ∨ parseUrn s = Ok v.
Proof.
  unfold parse. generalize (length s). intros n.
  do 46 (destruct n as [|n]; [first [discriminate | tauto]|]).
  discriminate.
Qed.

Lemma parse_canonical s v : parse s = Ok v → canonical (value v).
Proof.
  intros [H|[H|[H|[H|[H|H]]]]]%parse_Ok.
  - by eapply parseUuid25_canonical.
  - by eapply parseCrockford_canonical.
  - by eapply parseHexImpl_canonical.
  - by eapply parseHexImpl_canonical.
  - by eapply parseHexImpl_canonical.
  - by eapply parseHexImpl_canonical.
Qed.

Lemma fromBytes_canonical b v : fromBytes b = Ok v → canonical (value v).
Proof.
  unfold fromBytes. destruct (negb _); [done|].
  apply convertBase_fromDigitValues_canonical.
Qed.

(** * The accepted strings are ASCII *)

Lemma char_match_ascii ignoreCase p c :
  0 <= p < 128 → char_match ignoreCase p c = true → 0 <= c < 128.
Proof.
  unfold char_match. intros Hp H. destruct ignoreCase; [|lia].
  apply Z.eqb_eq in H. revert H. unfold toUpper1. repeat case_match; lia.
Qed.

Lemma lit_match_ascii ignoreCase text :
  isAscii text → ∀ g, lit_match ignoreCase text g = true → isAscii g.
Proof.
  induction 1 as [|p text Hp _ IH]; intros [|c g] H; try done; [constructor|].
  simpl in H. apply andb_true_iff in H as [Hc Hg].
  constructor; [by eapply char_match_ascii|by apply IH].
Qed.

Lemma class_run_ascii ignoreCase cls n g :
  asciiClass cls → class_run ignoreCase cls n g = true → isAscii g.
Proof.
  intros Hcls [_ Hg]%class_run_inv.
  eapply Forall_impl; [exact Hg|]. intros c. by apply class_match_ascii.
Qed.

(** A string that a pattern of ASCII pieces matches is ASCII. *)
Lemma exec_ascii ignoreCase re :
  Forall asciiPiece re → ∀ s, is_Some (exec ignoreCase re s) → isAscii s.
Proof.
  induction 1 as [|p re Hp _ IH]; intros s Hs.
  - destruct s; [constructor|by destruct Hs].
  - destruct p as [text|cls n|cls n]; simpl in Hs, Hp.
    + destruct (lit_match _ _ _) eqn:Hlit; [|by destruct Hs].
      rewrite <- (take_drop (length text) s). apply Forall_app. split.
      * by eapply lit_match_ascii.
      * by apply IH.
    + destruct (class_run _ _ _ _) eqn:Hrun; [|by destruct Hs].
      rewrite <- (take_drop n s). apply Forall_app. split.
      * by eapply class_run_ascii.
      * by apply IH.
    + destruct (class_run _ _ _ _) eqn:Hrun; [|by destruct Hs].
      rewrite <- (take_drop n s). apply Forall_app. split.
      * by eapply class_run_ascii.
      * apply IH. by destruct (exec ignoreCase re (drop n s)).
Qed.

Lemma test_ascii ignoreCase re s :
  Forall asciiPiece re → test ignoreCase re s = true → isAscii s.
Proof.
  unfold test. intros Hre H. apply (exec_ascii ignoreCase re Hre).
  by destruct (exec ignoreCase re s).
Qed.

Lemma parseGroups_ascii re s v :
  Forall asciiPiece re →
  parseHexImpl (join [] <$> exec true re s) = Ok v → isAscii s.
Proof.
  intros Hre H. apply (exec_ascii true re Hre).
  by destruct (exec true re s).
Qed.

Lemma hyphenated_ascii : Forall asciiPiece hyphenated.
Proof. repeat constructor; compute_done. Qed.

(** [parse] accepts ASCII strings only; on them [toUpperCase] and
    [toLowerCase] are the case mappings of JavaScript. *)
Lemma parse_ascii s v : parse s = Ok v → isAscii s.
Proof.
  intros [H|[H|[H|[H|[H|H]]]]]%parse_Ok.
  - unfold parseUuid25 in H. destruct (test _ _ _) eqn:Htest; [|done].
    eapply test_ascii; [|exact Htest]. repeat constructor; compute_done.
  - unfold parseCrockford in H. destruct (test _ _ _) eqn:Htest; [|done].
    eapply test_ascii; [|exact Htest]. repeat constructor; compute_done.
  - unfold parseHex in H. destruct (test _ _ _) eqn:Htest; [|done].
    eapply test_ascii; [|exact Htest]. repeat constructor; compute_done.
  - eapply parseGroups_ascii; [|exact H]. apply hyphenated_ascii.
  - eapply parseGroups_ascii; [|exact H].
    apply Forall_app; split; [repeat constructor; compute_done|].
    apply Forall_app; split; [apply hyphenated_ascii|].
    repeat constructor; compute_done.
  - eapply parseGroups_ascii; [|exact H].
    constructor; [compute_done|apply hyphenated_ascii].
Qed.

(** * Termination *)

Lemma decodeDigitChars_terminates s base : decodeDigitChars s base ≠ OutOfFuel.
Proof.
  unfold decodeDigitChars. destruct (_ && _); result_simpl; [|done].
  induction s as [|c s IH]; [done|]. cbn [decodeDigitLoop].
  destruct (_ <? _); result_simpl; [|done].
  by destruct (decodeDigitLoop s base).
Qed.

Lemma decodeCrockfordChars_terminates s : decodeCrockfordChars s ≠ OutOfFuel.
Proof.
  induction s as [|c s IH]; [done|]. cbn [decodeCrockfordChars].
  destruct (_ <? _); result_simpl; [|done].
  by destruct (decodeCrockfordChars s).
Qed.

Lemma fromDigitValues_terminates ds : fromDigitValues ds ≠ OutOfFuel.
Proof.
  unfold fromDigitValues. destruct (_ =? _)%nat; result_simpl; [|done].
  assert (∀ buffer, fromDigitValuesLoop digits36 ds buffer ≠ OutOfFuel) as Hloop.
  { induction ds as [|e ds IH]; intros buffer; [done|]. cbn [fromDigitValuesLoop].
    destruct (_ <? _); result_simpl; [apply IH|done]. }
  specialize (Hloop []).
  destruct (fromDigitValuesLoop digits36 ds []) as [buffer| |]; result_simpl;
    [|done|done].
  by destruct (js_le buffer MAX).
Qed.

Lemma convertBase_fromDigitValues_terminates src srcBase :
  convertBase src srcBase 36 25 ≫= fromDigitValues ≠ OutOfFuel.
Proof.
  pose proof (convertBase_terminates src srcBase 36 25) as Hconv.
  destruct (convertBase src srcBase 36 25) as [dst| |]; result_simpl; [|done|done].
  apply fromDigitValues_terminates.
Qed.

Lemma parseHexImpl_terminates uuidString : parseHexImpl uuidString ≠ OutOfFuel.
Proof.
  unfold parseHexImpl. destruct uuidString as [hex|]; [|done].
  pose proof (decodeDigitChars_terminates hex 16) as Hdec.
  destruct (decodeDigitChars hex 16) as [src| |]; result_simpl; [|done|done].
  apply convertBase_fromDigitValues_terminates.
Qed.

Lemma parseCrockford_terminates s : parseCrockford s ≠ OutOfFuel.
Proof.
  unfold parseCrockford. destruct (negb _); [done|].
  pose proof (decodeCrockfordChars_terminates s) as Hdec.
  destruct (decodeCrockfordChars s) as [src| |]; result_simpl; [|done|done].
  apply convertBase_fromDigitValues_terminates.
Qed.

Lemma parseUuid25_terminates s : parseUuid25 s ≠ OutOfFuel.
Proof.
  unfold parseUuid25. destruct (test _ _ _); [|done]. cbv zeta.
  by destruct (js_le _ _).
Qed.

(** [parse] returns or throws: no loop under it runs out of fuel. *)
Lemma parse_terminates s : parse s ≠ OutOfFuel.
Proof.
  unfold parse. generalize (length s). intros n.
  do 46 (destruct n as [|n];
    [first [discriminate | apply parseUuid25_terminates
           | apply parseCrockford_terminates | apply parseHexImpl_terminates]|]).
  discriminate.
Qed.

(** * Case and the confusable letters *)

Lemma case_cases c :
  (toUpper1 c = c ∧ toLower1 c = c)
  ∨ (65 <= c <= 90 ∧ toUpper1 c = c ∧ toLower1 c = c + 32)
  ∨ (97 <= c <= 122 ∧ toUpper1 c = c - 32 ∧ toLower1 c = c).
Proof. unfold toUpper1, toLower1. repeat case_match; lia. Qed.

Lemma caseMapping_upper m c : caseMapping m → toUpper1 (m c) = toUpper1 c.
Proof.
  intros [-> | ->]; unfold toUpper1, toLower1; repeat case_match; lia.
Qed.

Lemma caseMapping_lower m c : caseMapping m → toLower1 (m c) = toLower1 c.
Proof.
  intros [-> | ->]; unfold toUpper1, toLower1; repeat case_match; lia.
Qed.

Lemma caseMapping_cases m c :
  caseMapping m → m c = c ∨ (m c = toUpper1 c ∧ c = toLower1 c)
                  ∨ (m c = toLower1 c ∧ c = toUpper1 c).
Proof.
  intros [-> | ->]; destruct (case_cases c) as [[H1 H2]|[(? & H1 & H2)|(? & H1 & H2)]];
    rewrite ?H1, ?H2; auto.
Qed.

(** Under the [i] flag a class matches a code unit and its two case forms
    alike. *)
Lemma class_match_caseMapping m cls c :
  caseMapping m → class_match true cls (m c) = class_match true cls c.
Proof.
  intros Hm. unfold class_match.
  rewrite (caseMapping_upper m c Hm), (caseMapping_lower m c Hm). simpl.
  remember (in_class cls (toUpper1 c)) as up eqn:Hup.
  remember (in_class cls (toLower1 c)) as low eqn:Hlow.
  destruct (caseMapping_cases m c Hm) as [->|[[-> Hc]|[-> Hc]]]; [done| |].
  - rewrite <- Hup, Hc, <- Hlow. by destruct up, low.
  - rewrite <- Hlow, Hc, <- Hup. by destruct up, low.
Qed.

(** A function of the code units below 128 that does not see the case there
    does not see it anywhere. *)
Lemma caseMapping_invariant {A} `{EqDecision A} (f : Z → A) :
  forallb (λ c, bool_decide (f (toUpper1 c) = f c ∧ f (toLower1 c) = f c))
    (Z.of_nat <$> seq 0 128) = true →
  ∀ m c, caseMapping m → f (m c) = f c.
Proof.
  intros Hall m c Hm.
  assert (f (toUpper1 c) = f c ∧ f (toLower1 c) = f c) as [Hup Hlow].
  { destruct (decide (0 <= c < 128)) as [Hc|Hc].
    - eapply bool_decide_eq_true_1, (Z_range_forallb _ 128 Hall c Hc).
    - destruct (case_cases c) as [[-> ->]|[?|?]]; [done|lia|lia]. }
  by destruct Hm as [-> | ->].
Qed.

Lemma decodeDigitChar_caseMapping m c :
  caseMapping m → decodeDigitChar (m c) = decodeDigitChar c.
Proof. by apply caseMapping_invariant. Qed.

Lemma decodeCrockfordChar_caseMapping m c :
  caseMapping m → decodeCrockfordChar (m c) = decodeCrockfordChar c.
Proof. by apply caseMapping_invariant. Qed.

Lemma cls_0_9A_Za_z_caseMapping m c :
  caseMapping m →
  class_match false cls_0_9A_Za_z (m c) = class_match false cls_0_9A_Za_z c.
Proof. by apply caseMapping_invariant. Qed.

Lemma class_run_fmap (m : Z → Z) ignoreCase cls n s :
  (∀ c, class_match ignoreCase cls (m c) = class_match ignoreCase cls c) →
  class_run ignoreCase cls n (m <$> s) = class_run ignoreCase cls n s.
Proof.
  intros Hclass. unfold class_run. rewrite length_fmap. f_equal.
  induction s as [|c s IH]; [done|].
  rewrite fmap_cons. cbn [forallb]. by rewrite Hclass, IH.
Qed.

Section invariance.
(** A change of characters [m] that the patterns do not see. *)
Variable m : Z → Z.
Variable ignoreCase : bool.
Hypothesis Hclass :
  ∀ cls c, class_match ignoreCase cls (m c) = class_match ignoreCase cls c.
Hypothesis Hchar :
  ∀ p c, char_match ignoreCase p (m c) = char_match ignoreCase p c.

Lemma lit_match_fmap text s :
  lit_match ignoreCase text (m <$> s) = lit_match ignoreCase text s.
Proof.
  revert s. induction text as [|p text IH]; intros [|c s]; try done.
  simpl. by rewrite Hchar, IH.
Qed.

Lemma exec_fmap re :
  ∀ s : list Z,
    exec ignoreCase re (m <$> s)
    = fmap (M:=list) (fmap (M:=list) m) <$> exec ignoreCase re s.
Proof.
  induction re as [|[text|cls n|cls n] re IH]; intros s.
  - by destruct s.
  - simpl. rewrite <- fmap_take, <- fmap_drop, lit_match_fmap, IH.
    by destruct (lit_match _ _ _).
  - simpl. rewrite <- fmap_take, <- fmap_drop, class_run_fmap, IH by done.
    by destruct (class_run _ _ _ _).
  - simpl. rewrite <- fmap_take, <- fmap_drop, class_run_fmap, IH by done.
    destruct (class_run _ _ _ _); [|done].
    by destruct (exec ignoreCase re (drop n s)).
Qed.

Lemma test_fmap re s : test ignoreCase re (m <$> s) = test ignoreCase re s.
Proof. unfold test. rewrite exec_fmap. by destruct (exec ignoreCase re s). Qed.
End invariance.

Lemma join_nil_fmap (m : Z → Z) (groups : list (list Z)) :
  join [] (fmap (M:=list) m <$> groups) = m <$> join [] groups.
Proof.
  induction groups as [|g [|g' groups] IH]; [done|done|].
  change (join [] (fmap (M:=list) m <$> g :: g' :: groups))
    with ((m <$> g) ++ [] ++ join [] (fmap (M:=list) m <$> g' :: groups)).
  change (join [] (g :: g' :: groups)) with (g ++ [] ++ join [] (g' :: groups)).
  by rewrite IH, !fmap_app.
Qed.

Section caseInsensitive.
Variable m : Z → Z.
Hypothesis Hm : caseMapping m.

Lemma char_match_caseMapping p c : char_match true p (m c) = char_match true p c.
Proof. unfold char_match. by rewrite caseMapping_upper. Qed.

Lemma decodeDigitLoop_caseMapping s base :
  decodeDigitLoop (m <$> s) base = decodeDigitLoop s base.
Proof.
  induction s as [|c s IH]; [done|].
  rewrite fmap_cons. cbn [decodeDigitLoop].
  by rewrite decodeDigitChar_caseMapping, IH.
Qed.

Lemma decodeDigitChars_caseMapping s base :
  decodeDigitChars (m <$> s) base = decodeDigitChars s base.
Proof. unfold decodeDigitChars. by rewrite decodeDigitLoop_caseMapping. Qed.

Lemma decodeCrockfordChars_caseMapping s :
  decodeCrockfordChars (m <$> s) = decodeCrockfordChars s.
Proof.
  induction s as [|c s IH]; [done|].
  rewrite fmap_cons. cbn [decodeCrockfordChars].
  by rewrite decodeCrockfordChar_caseMapping, IH.
Qed.

Lemma parseHexImpl_caseMapping (groups : option (list (list Z))) :
  parseHexImpl (join [] <$> (fmap (M:=list) (fmap (M:=list) m) <$> groups))
  = parseHexImpl (join [] <$> groups).
Proof.
  destruct groups as [groups|]; [|done].
  cbn [fmap option_fmap option_map]. rewrite join_nil_fmap.
  unfold parseHexImpl. by rewrite decodeDigitChars_caseMapping.
Qed.

Lemma parseUuid25_caseMapping s : parseUuid25 (m <$> s) = parseUuid25 s.
Proof.
  unfold parseUuid25.
  rewrite test_fmap
    by (intros; by apply class_match_caseMapping || apply char_match_caseMapping).
  assert (toLowerCase (m <$> s) = toLowerCase s) as ->; [|done].
  unfold toLowerCase. rewrite <- list_fmap_compose.
  apply list_fmap_ext. intros _ c _. by apply caseMapping_lower.
Qed.

Lemma parseCrockford_caseMapping s : parseCrockford (m <$> s) = parseCrockford s.
Proof.
  unfold parseCrockford.
  rewrite !test_Rep, class_run_fmap
    by (intros; by apply cls_0_9A_Za_z_caseMapping).
  by rewrite decodeCrockfordChars_caseMapping.
Qed.

Lemma parseHex_caseMapping s : parseHex (m <$> s) = parseHex s.
Proof.
  unfold parseHex.
  rewrite test_fmap
    by (intros; by apply class_match_caseMapping || apply char_match_caseMapping).
  destruct (test _ _ _); [|done].
  unfold parseHexImpl. by rewrite decodeDigitChars_caseMapping.
Qed.

Lemma parseGroups_caseMapping re s :
  parseHexImpl (join [] <$> exec true re (m <$> s))
  = parseHexImpl (join [] <$> exec true re s).
Proof.
  rewrite exec_fmap
    by (intros; by apply class_match_caseMapping || apply char_match_caseMapping).
  apply parseHexImpl_caseMapping.
Qed.

(** [parse] does not see the case of its argument. *)
Lemma parse_caseMapping s : parse (m <$> s) = parse s.
Proof.
  unfold parse. rewrite length_fmap. generalize (length s). intros n.
  do 46 (destruct n as [|n];
    [first [reflexivity | apply parseUuid25_caseMapping
           | apply parseCrockford_caseMapping | apply parseHex_caseMapping
           | apply parseGroups_caseMapping]|]).
  reflexivity.
Qed.
End caseInsensitive.

Lemma replaceConfusable_cases c :
  replaceConfusable c = c ∨ 0 <= c < 128.
Proof.
  unfold replaceConfusable.
  destruct (bool_decide_reflect (c ∈ js "IiLl")) as [Hin|_]; [right|].
  { assert (Forall (λ c, 0 <= c < 128) (js "IiLl")) as Hall by compute_done.
    by apply (proj1 (Forall_forall _ _) Hall). }
  destruct (bool_decide_reflect (c ∈ js "Oo")) as [Hin|_]; [right|by left].
  assert (Forall (λ c, 0 <= c < 128) (js "Oo")) as Hall by compute_done.
  by apply (proj1 (Forall_forall _ _) Hall).
Qed.

Lemma replaceConfusable_invariant {A} `{EqDecision A} (f : Z → A) :
  forallb (λ c, bool_decide (f (replaceConfusable c) = f c))
    (Z.of_nat <$> seq 0 128) = true →
  ∀ c, f (replaceConfusable c) = f c.
Proof.
  intros Hall c. destruct (replaceConfusable_cases c) as [->|Hc]; [done|].
  eapply bool_decide_eq_true_1, (Z_range_forallb _ 128 Hall c Hc).
Qed.

Lemma decodeCrockfordChars_replaceConfusable s :
  decodeCrockfordChars (replaceConfusable <$> s) = decodeCrockfordChars s.
Proof.
  induction s as [|c s IH]; [done|].
  rewrite fmap_cons. cbn [decodeCrockfordChars].
  by rewrite (replaceConfusable_invariant decodeCrockfordChar), IH.
Qed.

(** * More on the base converter *)


Lemma convertBase_nil srcBase dstBase dstSize :
  2 <= srcBase <= 256 → 2 <= dstBase <= 256 →
  convertBase [] srcBase dstBase dstSize = Ok (replicate dstSize 0).
Proof.
  intros Hs Hd. unfold convertBase.
  assert ((2 <=? srcBase) && (srcBase <=? 256) && (2 <=? dstBase) && (dstBase <=? 256) = true)
    as -> by lia.
  destruct (wordLoop_spec srcBase dstBase Hs Hd 64 1 srcBase)
    as (wordLen & wordBase & -> & _);
    [lia|by rewrite Z.pow_1_r|unfold MAX_SAFE_INTEGER; nia|lia|].
  done.
Qed.

Lemma convertBase_zero_size src srcBase dstBase :
  2 <= srcBase <= 256 → 2 <= dstBase <= 256 → src ≠ [] →
  convertBase src srcBase dstBase 0 = Throw (Error "Assertion failed: too small dst").
Proof.
  intros Hs Hd Hsrc. unfold convertBase.
  assert ((2 <=? srcBase) && (srcBase <=? 256) && (2 <=? dstBase) && (dstBase <=? 256) = true)
    as -> by lia.
  destruct (wordLoop_spec srcBase dstBase Hs Hd 64 1 srcBase)
    as (wordLen & wordBase & -> & _);
    [lia|by rewrite Z.pow_1_r|unfold MAX_SAFE_INTEGER; nia|lia|].
  result_simpl.
  assert ((Z.of_nat (length src) =? 0) = false) as ->; [|done].
  destruct src; [done|simpl; lia].
Qed.







(** * More on the decoders *)

Lemma decodeDigitChar_closed c : decodeDigitChar c = alphanumericValue c.
Proof.
  destruct (decide (0 <= c < 128)) as [Hc|Hc].
  - apply Z.eqb_eq. revert c Hc.
    by apply (Z_range_forallb (λ c, decodeDigitChar c =? alphanumericValue c) 128).
  - assert (alphanumericValue c = 0x7f) as ->
      by (unfold alphanumericValue; repeat case_match; lia).
    unfold decodeDigitChar. destruct (decide (c < 0)) as [Hneg|Hbig].
    + by replace (Z.to_nat c) with 0%nat by lia.
    + by rewrite lookup_ge_None_2 by (change (length DECODE_MAP) with 128%nat; lia).
Qed.

Lemma decodeCrockfordChar_closed c : decodeCrockfordChar c = crockfordValue c.
Proof.
  destruct (decide (0 <= c < 128)) as [Hc|Hc].
  - apply Z.eqb_eq. revert c Hc.
    by apply (Z_range_forallb (λ c, decodeCrockfordChar c =? crockfordValue c) 128).
  - assert (crockfordValue c = 0x7f) as ->.
    { unfold crockfordValue. destruct (case_cases c) as [[-> _]|[[? _]|[? _]]]; [|lia|lia].
      cbv zeta. repeat case_match; lia. }
    unfold decodeCrockfordChar. destruct (Z.ltb_spec c 128) as [Hneg|Hbig]; [|done].
    by replace (Z.to_nat c) with 0%nat by lia.
Qed.

Lemma crockfordValue_valid c :
  crockfordValue c < 32 ↔ in_class cls_0_9A_Za_z c = true ∧ c ≠ 85 ∧ c ≠ 117.
Proof.
  destruct (decide (0 <= c < 128)) as [Hc|Hc].
  - assert ((crockfordValue c <? 32)
            = in_class cls_0_9A_Za_z c && negb (c =? 85) && negb (c =? 117)) as H.
    { apply Bool.eqb_prop. revert c Hc.
      by apply (Z_range_forallb
        (λ c, Bool.eqb (crockfordValue c <? 32)
                (in_class cls_0_9A_Za_z c && negb (c =? 85) && negb (c =? 117))) 128). }
    destruct (in_class cls_0_9A_Za_z c); simpl in H; [lia|].
    split; [lia|]. by intros [? _].
  - rewrite <- decodeCrockfordChar_closed. split.
    + intros Hlt. exfalso. rewrite decodeCrockfordChar_closed in Hlt.
      assert (crockfordValue c = 0x7f); [|lia].
      unfold crockfordValue. destruct (case_cases c) as [[-> _]|[[? _]|[? _]]]; [|lia|lia].
      cbv zeta. repeat case_match; lia.
    + intros [Hin _]. apply in_class_ascii in Hin; [lia|].
      repeat constructor; simpl; lia.
Qed.

Lemma decodeDigitLoop_closed s base :
  decodeDigitLoop s base
  = if forallb (λ c, alphanumericValue c <? base) s
    then Ok (alphanumericValue <$> s)
    else Throw (Error "Assertion failed: invalid digit character").
Proof.
  induction s as [|c s IH]; [done|].
  cbn [decodeDigitLoop forallb]. rewrite decodeDigitChar_closed, IH.
  destruct (alphanumericValue c <? base); result_simpl; [|done].
  by destruct (forallb _ s).
Qed.

Lemma decodeCrockfordChars_closed s :
  decodeCrockfordChars s
  = if forallb (λ c, crockfordValue c <? 32) s
    then Ok (crockfordValue <$> s)
    else Throw (Error "Assertion failed: invalid Crockford Base32 character").
Proof.
  induction s as [|c s IH]; [done|].
  cbn [decodeCrockfordChars forallb]. rewrite decodeCrockfordChar_closed, IH.
  destruct (crockfordValue c <? 32); result_simpl; [|done].
  by destruct (forallb _ s).
Qed.

(** * More on the parsers and the formatters *)

Lemma numberOf_valueOfDigits ds :
  isDigits 36 ds → numberOf (valueOfDigits ds) = digitsValue 36 ds.
Proof.
  intros Hds. unfold numberOf, valueOfDigits. cbn [value]. f_equal.
  rewrite <- list_fmap_compose. rewrite <- (list_fmap_id ds) at 2.
  apply Forall_fmap_ext_1. eapply Forall_impl; [exact Hds|].
  intros d Hd. simpl. by apply digits36_decode.
Qed.

Lemma canonical_valueOfDigits v :
  canonical (value v) ↔
  ∃ ds, v = valueOfDigits ds ∧ length ds = 25%nat ∧ isDigits 36 ds
        ∧ digitsValue 36 ds <= 2 ^ 128 - 1.
Proof.
  rewrite canonical_digits. destruct v as [s]. cbn [value]. unfold valueOfDigits.
  split; intros (ds & H & ?); exists ds; (split; [|done]); congruence.
Qed.

(** A 25-character string over [0-9a-z] is a numeral of base 36. *)
Lemma base36_digits s :
  Forall (λ c, in_class cls_0_9a_z c = true) s →
  ∃ ds, s = encodeDigit digits36 <$> ds ∧ ds = decodeDigitChar <$> s
        ∧ isDigits 36 ds.
Proof.
  intros Hcls. exists (decodeDigitChar <$> s). split_and!; [|done|].
  - rewrite <- list_fmap_compose. rewrite <- (list_fmap_id s) at 1.
    apply Forall_fmap_ext_1. eapply Forall_impl; [exact Hcls|].
    intros c Hc. simpl. symmetry. by apply cls_0_9a_z_decode.
  - apply Forall_fmap. eapply Forall_impl; [exact Hcls|].
    intros c Hc. simpl. by apply cls_0_9a_z_decode.
Qed.

Lemma cls_0_9a_f_decode c :
  class_match false cls_0_9a_f c = true →
  0 <= decodeDigitChar c < 16 ∧ encodeDigit digits16 (decodeDigitChar c) = c.
Proof.
  intros Hc.
  assert (0 <= c < 128) as Hascii
    by (eapply class_match_ascii; [|done]; repeat constructor; simpl; lia).
  revert Hc.
  assert (implb (class_match false cls_0_9a_f c)
            ((0 <=? decodeDigitChar c) && (decodeDigitChar c <? 16)
             && (encodeDigit digits16 (decodeDigitChar c) =? c)) = true) as H.
  { revert c Hascii. by apply (Z_range_forallb _ 128). }
  intros Hc. rewrite Hc in H. simpl in H. lia.
Qed.

Lemma cls_0_9a_f_lowercase c :
  class_match true cls_0_9a_f c = true →
  class_match false cls_0_9a_f (toLower1 c) = true.
Proof.
  intros Hc.
  assert (0 <= c < 128) as Hascii
    by (eapply class_match_ascii; [|done]; repeat constructor; simpl; lia).
  revert Hc.
  assert (implb (class_match true cls_0_9a_f c)
            (class_match false cls_0_9a_f (toLower1 c)) = true) as H.
  { revert c Hascii. by apply (Z_range_forallb _ 128). }
  intros Hc. by rewrite Hc in H.
Qed.

Lemma isHexI_lower s : isHexI s → isHex (toLowerCase s).
Proof.
  intros [Hlen Hcls]. unfold toLowerCase. split; [by rewrite length_fmap|].
  apply Forall_fmap. eapply Forall_impl; [exact Hcls|].
  intros c. apply cls_0_9a_f_lowercase.
Qed.

Lemma isHex_isHexI s : isHex s → isHexI s.
Proof.
  intros [Hlen Hcls]. split; [done|].
  eapply Forall_impl; [exact Hcls|]. intros c. apply class_match_ignoreCase.
Qed.

Lemma pow2_128_16_32 : 16 ^ Z.of_nat 32 = 2 ^ 128.
Proof. reflexivity. Qed.

(** Thirty-two lower-case hexadecimal digits parse to the value of their
    number, and [toHex] of that value gives them back. *)
Lemma parseHexImpl_isHex hex :
  isHex hex →
  ∃ ds, length ds = 25%nat ∧ isDigits 36 ds
        ∧ digitsValue 36 ds <= 2 ^ 128 - 1
        ∧ digitsValue 36 ds = digitsValue 16 (decodeDigitChar <$> hex)
        ∧ parseHexImpl (Some hex) = Ok (valueOfDigits ds)
        ∧ toHex (valueOfDigits ds) = Ok hex.
Proof.
  intros [Hlen Hcls].
  set (hs := decodeDigitChar <$> hex).
  assert (isDigits 16 hs) as Hhs.
  { apply Forall_fmap. eapply Forall_impl; [exact Hcls|].
    intros c Hc. simpl. by apply cls_0_9a_f_decode. }
  assert (hex = encodeDigit digits16 <$> hs) as Hhex.
  { unfold hs. rewrite <- list_fmap_compose. rewrite <- (list_fmap_id hex) at 1.
    apply Forall_fmap_ext_1. eapply Forall_impl; [exact Hcls|].
    intros c Hc. simpl. symmetry. by apply cls_0_9a_f_decode. }
  assert (length hs = 32%nat) as Hhl by (unfold hs; by rewrite length_fmap).
  pose proof (digitsValue_bound 16 hs ltac:(lia) Hhs) as Hbound.
  rewrite Hhl, pow2_128_16_32 in Hbound. pose proof pow2_128_lt_36_25.
  destruct (convertBase_ok hs 16 36 25) as (ds & Hconv & Hl & Hd & Hv);
    [lia|lia|lia|done|change (Z.of_nat 25) with 25; lia|].
  exists ds. split_and!; [done|done|lia|done| |].
  - rewrite Hhex. apply parseHexImpl_ok; [done|done|lia|done|lia].
  - destruct (toHex_ok ds Hl Hd ltac:(lia)) as (hs' & Hto & Hl' & Hd' & Hv').
    unfold valueOfDigits. rewrite Hto, Hhex. do 2 f_equal.
    apply (digitsValue_inj 16); [lia|done|done|lia|lia].
Qed.

Lemma parseHexImpl_lower hex :
  parseHexImpl (Some hex) = parseHexImpl (Some (toLowerCase hex)).
Proof.
  unfold parseHexImpl, toLowerCase.
  by rewrite (decodeDigitChars_caseMapping toLower1 (or_intror eq_refl)).
Qed.

(** ** What the patterns match *)

Lemma exec_Cap_inv ignoreCase cls n re s gs :
  exec ignoreCase (Cap cls n :: re) s = Some gs →
  ∃ g gs' rest,
    s = g ++ rest ∧ gs = g :: gs' ∧ class_run ignoreCase cls n g = true
    ∧ exec ignoreCase re rest = Some gs'.
Proof.
  simpl. destruct (class_run _ _ _ _) eqn:Hrun; [|done].
  destruct (exec ignoreCase re (drop n s)) as [gs'|] eqn:Hrest; [|done].
  intros [= <-]. exists (take n s), gs', (drop n s).
  by rewrite take_drop.
Qed.

Lemma exec_Lit_inv ignoreCase text re s gs :
  exec ignoreCase (Lit text :: re) s = Some gs →
  ∃ t rest,
    s = t ++ rest ∧ lit_match ignoreCase text t = true
    ∧ exec ignoreCase re rest = Some gs.
Proof.
  simpl. destruct (lit_match _ _ _) eqn:Hlit; [|done].
  intros Hrest. exists (take (length text) s), (drop (length text) s).
  by rewrite take_drop.
Qed.

Lemma exec_nil_inv ignoreCase s gs :
  exec ignoreCase [] s = Some gs → s = [] ∧ gs = [].
Proof. destruct s; [by intros [= <-]|done]. Qed.

Lemma lit_match_lower text :
  ∀ t, lit_match true text t = true → toLowerCase t = toLowerCase text.
Proof.
  induction text as [|p text IH]; intros [|c t] H; try done.
  simpl in H. apply andb_true_iff in H as [Hc Ht]. apply Z.eqb_eq in Hc.
  unfold toLowerCase in *. rewrite !fmap_cons, (IH t Ht). f_equal.
  rewrite <- (caseMapping_lower toUpper1 c (or_introl eq_refl)).
  rewrite <- (caseMapping_lower toUpper1 p (or_introl eq_refl)).
  by rewrite Hc.
Qed.

Lemma hexGroups_app (g1 g2 g3 g4 l : list Z) :
  length g1 = 8%nat → length g2 = 4%nat → length g3 = 4%nat → length g4 = 4%nat →
  hexGroups (g1 ++ g2 ++ g3 ++ g4 ++ l) = [g1; g2; g3; g4; l].
Proof.
  intros L1 L2 L3 L4.
  destruct g1 as [|a1 [|a2 [|a3 [|a4 [|a5 [|a6 [|a7 [|a8 [|]]]]]]]]]; try done.
  destruct g2 as [|b1 [|b2 [|b3 [|b4 [|]]]]]; try done.
  destruct g3 as [|c1 [|c2 [|c3 [|c4 [|]]]]]; try done.
  destruct g4 as [|d1 [|d2 [|d3 [|d4 [|]]]]]; try done.
Qed.

Lemma hyphenated_inv suffix s gs :
  exec true (hyphenated ++ suffix) s = Some gs →
  ∃ hex rest gs',
    isHexI hex
    ∧ toLowerCase s = join (js "-") (hexGroups (toLowerCase hex)) ++ toLowerCase rest
    ∧ gs = hexGroups hex ++ gs' ∧ join [] (hexGroups hex) = hex
    ∧ exec true suffix rest = Some gs'.
Proof.
  change (hyphenated ++ suffix)
    with (Cap cls_0_9a_f 8 :: Lit (js "-") :: Cap cls_0_9a_f 4 :: Lit (js "-")
          :: Cap cls_0_9a_f 4 :: Lit (js "-") :: Cap cls_0_9a_f 4 :: Lit (js "-")
          :: Cap cls_0_9a_f 12 :: suffix).
  intros (g1 & gs1 & r1 & -> & -> & Hg1 & H)%exec_Cap_inv.
  apply exec_Lit_inv in H as (h1 & r1' & -> & Hh1 & H).
  apply exec_Cap_inv in H as (g2 & gs2 & r2 & -> & -> & Hg2 & H).
  apply exec_Lit_inv in H as (h2 & r2' & -> & Hh2 & H).
  apply exec_Cap_inv in H as (g3 & gs3 & r3 & -> & -> & Hg3 & H).
  apply exec_Lit_inv in H as (h3 & r3' & -> & Hh3 & H).
  apply exec_Cap_inv in H as (g4 & gs4 & r4 & -> & -> & Hg4 & H).
  apply exec_Lit_inv in H as (h4 & r4' & -> & Hh4 & H).
  apply exec_Cap_inv in H as (g5 & gs5 & rest & -> & -> & Hg5 & H).
  apply lit_match_lower in Hh1, Hh2, Hh3, Hh4.
  apply class_run_inv in Hg1 as [L1 C1], Hg2 as [L2 C2], Hg3 as [L3 C3],
    Hg4 as [L4 C4], Hg5 as [L5 C5].
  assert (∀ l : list Z, hexGroups (g1 ++ g2 ++ g3 ++ g4 ++ l)
                        = [g1; g2; g3; g4; l]) as Hgroups
    by (intros l; by apply hexGroups_app).
  exists (g1 ++ g2 ++ g3 ++ g4 ++ g5), rest, gs5.
  split_and!; [| | |by rewrite Hgroups|done].
  - split; [rewrite !length_app; lia|]. by rewrite !Forall_app.
  - unfold toLowerCase in *. rewrite !fmap_app.
    fold (toLowerCase g1) (toLowerCase g2) (toLowerCase g3) (toLowerCase g4)
      (toLowerCase g5).
    unfold toLowerCase.
    rewrite hexGroups_app by (by rewrite length_fmap).
    rewrite Hh1, Hh2, Hh3, Hh4.
    change (join (js "-") [toLower1 <$> g1; toLower1 <$> g2; toLower1 <$> g3;
                            toLower1 <$> g4; toLower1 <$> g5])
      with ((toLower1 <$> g1) ++ js "-" ++ (toLower1 <$> g2) ++ js "-"
            ++ (toLower1 <$> g3) ++ js "-" ++ (toLower1 <$> g4) ++ js "-"
            ++ (toLower1 <$> g5)).
    by rewrite <- !app_assoc.
  - by rewrite Hgroups.
Qed.

Lemma decodeDigitChar_lower s :
  decodeDigitChar <$> toLowerCase s = decodeDigitChar <$> s.
Proof.
  unfold toLowerCase. rewrite <- list_fmap_compose. apply list_fmap_ext.
  intros _ c _. simpl. by apply decodeDigitChar_caseMapping; right.
Qed.

(** Thirty-two hexadecimal digits of either case parse to the value of
    their number, and [toHex] of that value gives them back in lower
    case. *)
Lemma parseHexImpl_isHexI hex :
  isHexI hex →
  ∃ ds, length ds = 25%nat ∧ isDigits 36 ds
        ∧ digitsValue 36 ds <= 2 ^ 128 - 1
        ∧ digitsValue 36 ds = digitsValue 16 (decodeDigitChar <$> hex)
        ∧ parseHexImpl (Some hex) = Ok (valueOfDigits ds)
        ∧ toHex (valueOfDigits ds) = Ok (toLowerCase hex).
Proof.
  intros Hhex. rewrite parseHexImpl_lower, <- decodeDigitChar_lower.
  by apply parseHexImpl_isHex, isHexI_lower.
Qed.

Lemma formats_of_toHex v hex :
  toHex v = Ok hex → isHex hex →
  toHyphenated v = Ok (join (js "-") (hexGroups hex))
  ∧ toBraced v = Ok (js "{" ++ join (js "-") (hexGroups hex) ++ js "}")
  ∧ toUrn v = Ok (js "urn:uuid:" ++ join (js "-") (hexGroups hex)).
Proof.
  intros Hto Hhex.
  assert (toHyphenated v = Ok (join (js "-") (hexGroups hex))) as Hhyph.
  { unfold toHyphenated. rewrite Hto. result_simpl. by rewrite exec_groups. }
  split_and!; [done| |].
  - unfold toBraced. by rewrite Hhyph.
  - unfold toUrn. by rewrite Hhyph.
Qed.

Lemma parseHex_outcome s : hexOutcome s (parseHex s) toHex.
Proof.
  unfold parseHex. rewrite test_Rep.
  destruct (class_run _ _ _ _) eqn:Hrun; [|by left].
  apply class_run_inv in Hrun.
  destruct (parseHexImpl_isHexI s Hrun) as (ds & Hl & Hd & Hmax & _ & Hparse & Hto).
  right. by exists ds.
Qed.

Lemma parseHyphenated_outcome s : hexOutcome s (parseHyphenated s) toHyphenated.
Proof.
  unfold parseHyphenated.
  destruct (exec true hyphenated s) as [gs|] eqn:Hexec; [|by left].
  rewrite <- (app_nil_r hyphenated) in Hexec.
  apply hyphenated_inv in Hexec as (hex & rest & gs' & Hhex & Hs & -> & Hjoin & Hrest).
  apply exec_nil_inv in Hrest as [-> ->]. rewrite app_nil_r in *.
  cbn [fmap option_fmap option_map]. rewrite Hjoin.
  destruct (parseHexImpl_isHexI hex Hhex) as (ds & Hl & Hd & Hmax & _ & Hparse & Hto).
  right. exists ds. split_and!; try done.
  rewrite Hs. by apply formats_of_toHex, isHexI_lower.
Qed.

Lemma parseBraced_outcome s : hexOutcome s (parseBraced s) toBraced.
Proof.
  unfold parseBraced.
  destruct (exec true _ s) as [gs|] eqn:Hexec; [|by left].
  change ([Lit (js "{")] ++ hyphenated ++ [Lit (js "}")])
    with (Lit (js "{") :: hyphenated ++ [Lit (js "}")]) in Hexec.
  apply exec_Lit_inv in Hexec as (open & s' & -> & Hopen & Hexec).
  apply hyphenated_inv in Hexec as (hex & rest & gs' & Hhex & Hs & -> & Hjoin & Hrest).
  apply exec_Lit_inv in Hrest as (close & rest' & -> & Hclose & Hrest).
  apply exec_nil_inv in Hrest as [-> ->]. rewrite app_nil_r in *.
  apply lit_match_lower in Hopen, Hclose.
  cbn [fmap option_fmap option_map]. rewrite Hjoin.
  destruct (parseHexImpl_isHexI hex Hhex) as (ds & Hl & Hd & Hmax & _ & Hparse & Hto).
  right. exists ds. split_and!; try done.
  unfold toLowerCase in *. rewrite fmap_app, Hopen, Hs, Hclose.
  by apply formats_of_toHex, isHexI_lower.
Qed.

Lemma parseUrn_outcome s : hexOutcome s (parseUrn s) toUrn.
Proof.
  unfold parseUrn.
  destruct (exec true _ s) as [gs|] eqn:Hexec; [|by left].
  apply exec_Lit_inv in Hexec as (urn & s' & -> & Hurn & Hexec).
  rewrite <- (app_nil_r hyphenated) in Hexec.
  apply hyphenated_inv in Hexec as (hex & rest & gs' & Hhex & Hs & -> & Hjoin & Hrest).
  apply exec_nil_inv in Hrest as [-> ->]. rewrite app_nil_r in *.
  apply lit_match_lower in Hurn.
  cbn [fmap option_fmap option_map]. rewrite Hjoin.
  destruct (parseHexImpl_isHexI hex Hhex) as (ds & Hl & Hd & Hmax & _ & Hparse & Hto).
  right. exists ds. split_and!; try done.
  unfold toLowerCase in *. rewrite fmap_app, Hurn, Hs.
  by apply formats_of_toHex, isHexI_lower.
Qed.

Lemma parseUuid25_outcome s :
  hexOutcome s (parseUuid25 s) (λ v, Ok (toString v)).
Proof.
  unfold parseUuid25. destruct (test _ _ _) eqn:Htest; [|by left]. cbv zeta.
  destruct (js_le _ MAX) eqn:Hle; [|by left].
  assert (canonical (toLowerCase s)) as Hcanon.
  { by apply (parseUuid25_canonical s (new_Uuid25 (toLowerCase s)));
      unfold parseUuid25; rewrite Htest; cbv zeta; rewrite Hle. }
  apply canonical_digits in Hcanon as (ds & Hs & Hl & Hd & Hmax).
  right. exists ds. unfold valueOfDigits, toString. cbn [value].
  by rewrite Hs.
Qed.

(** ** More on the construction from digit values *)

Lemma fromDigitValuesLoop_closed digits ds :
  Forall (λ e, 0 <= e) ds →
  ∀ buffer,
    fromDigitValuesLoop digits ds buffer
    = if forallb (λ e, e <? Z.of_nat (length digits)) ds
      then Ok (buffer ++ (encodeDigit digits <$> ds))
      else Throw (Error "Assertion failed: invalid digit value").
Proof.
  induction 1 as [|e ds He _ IH]; intros buffer.
  - simpl. by rewrite app_nil_r.
  - cbn [fromDigitValuesLoop forallb].
    destruct (Z.ltb_spec e (Z.of_nat (length digits))) as [Hlt|Hge]; result_simpl;
      [|done].
    rewrite IH, charAt_digit by lia. cbn [andb].
    by rewrite fmap_cons, <- app_assoc.
Qed.

Lemma fromDigitValues_closed ds :
  Forall (λ e, 0 <= e) ds →
  fromDigitValues ds
  = if (length ds =? 25)%nat then
      if forallb (λ e, e <? 36) ds then
        if digitsValue 36 ds <=? 2 ^ 128 - 1 then Ok (valueOfDigits ds)
        else Throw (Error "Assertion failed: 128-bit overflow")
      else Throw (Error "Assertion failed: invalid digit value")
    else Throw (Error "Assertion failed: invalid length of digit value array").
Proof.
  intros Hnonneg. unfold fromDigitValues.
  destruct (Nat.eqb_spec (length ds) 25) as [Hlen|]; result_simpl; [|done].
  rewrite (fromDigitValuesLoop_closed digits36 ds Hnonneg).
  change (Z.of_nat (length digits36)) with 36.
  destruct (forallb (λ e, e <? 36) ds) eqn:Hall; result_simpl; [|done].
  assert (isDigits 36 ds) as Hds.
  { apply Forall_and; split; [done|].
    apply Forall_forall. intros e He. apply list_elem_of_In in He.
    pose proof (proj1 (forallb_forall _ _) Hall e He). simpl in *. lia. }
  rewrite app_nil_l, js_le_MAX by done.
  by destruct (digitsValue 36 ds <=? 2 ^ 128 - 1).
Qed.

Lemma charAt_length digits e :
  (length (charAt digits e) <= 1)%nat ∧ (e < 0 → charAt digits e = []).
Proof.
  unfold charAt. destruct (Z.leb_spec 0 e); [|split; [simpl; lia|done]].
  split; [|lia]. destruct (digits !! Z.to_nat e); simpl; lia.
Qed.

(** A digit value below zero adds no character to the buffer. *)
Lemma fromDigitValuesLoop_length digits ds :
  ∀ buffer buffer',
    fromDigitValuesLoop digits ds buffer = Ok buffer' →
    (length buffer' <= length buffer + length ds)%nat
    ∧ (Exists (λ e, e < 0) ds → (length buffer' < length buffer + length ds)%nat).
Proof.
  induction ds as [|e ds IH]; intros buffer buffer' H.
  - injection H as <-. split; [simpl; lia|]. by intros ?%Exists_nil.
  - cbn [fromDigitValuesLoop] in H.
    destruct (e <? Z.of_nat (length digits)); result_simpl; [|done].
    apply IH in H as [Hle Hlt]. rewrite length_app in Hle, Hlt.
    destruct (charAt_length digits e) as [H1 H0]. simpl.
    split; [lia|]. intros [He|Hds]%Exists_cons.
    + rewrite (H0 He) in Hle. simpl in Hle. lia.
    + specialize (Hlt Hds). lia.
Qed.

(** ** More on the Crockford format *)

Lemma digits32_upper c :
  decodeCrockfordChar c < 32 →
  encodeDigit digits32 (decodeCrockfordChar c) = toUpper1 (replaceConfusable c).
Proof.
  intros Hc.
  assert (0 <= c < 128) as Hascii.
  { rewrite decodeCrockfordChar_closed in Hc.
    apply crockfordValue_valid in Hc as [Hin _].
    eapply in_class_ascii; [|done]. repeat constructor; simpl; lia. }
  revert Hc.
  assert (implb (decodeCrockfordChar c <? 32)
            (encodeDigit digits32 (decodeCrockfordChar c)
             =? toUpper1 (replaceConfusable c)) = true) as H.
  { revert c Hascii. by apply (Z_range_forallb _ 128). }
  intros Hc. assert ((decodeCrockfordChar c <? 32) = true) as Hlt by lia.
  rewrite Hlt in H. simpl in H. lia.
Qed.


Lemma pow2_128_le_32_26 : 2 ^ 128 <= 32 ^ Z.of_nat 26.
Proof. by apply Z.leb_le. Qed.

Lemma pow36_25_le_32_26 : 36 ^ Z.of_nat 25 <= 32 ^ Z.of_nat 26.
Proof. by apply Z.leb_le. Qed.

(** Twenty-six Crockford digits: the parser returns the value of their
    number when it is at most [2 ^ 128 - 1], and [toCrockford] of that value
    gives the digits back in upper case, the confusable letters replaced. *)
Lemma parseCrockford_accepts s :
  length s = 26%nat → Forall (λ c, decodeCrockfordChar c < 32) s →
  digitsValue 32 (decodeCrockfordChar <$> s) <= 2 ^ 128 - 1 →
  ∃ ds, length ds = 25%nat ∧ isDigits 36 ds ∧ digitsValue 36 ds <= 2 ^ 128 - 1
        ∧ digitsValue 36 ds = digitsValue 32 (decodeCrockfordChar <$> s)
        ∧ parseCrockford s = Ok (valueOfDigits ds)
        ∧ toCrockford (valueOfDigits ds)
          = Ok (toUpperCase (replaceConfusable <$> s)).
Proof.
  intros Hlen Hvalid Hmax.
  set (cs := decodeCrockfordChar <$> s) in *.
  assert (isDigits 32 cs) as Hcs.
  { apply Forall_fmap. eapply Forall_impl; [exact Hvalid|]. simpl.
    intros c Hc. pose proof (decodeCrockfordChar_nonneg c). lia. }
  assert (length cs = 26%nat) as Hcl by (unfold cs; by rewrite length_fmap).
  assert (encodeDigit digits32 <$> cs = toUpperCase (replaceConfusable <$> s)) as Henc.
  { unfold cs, toUpperCase. rewrite <- !list_fmap_compose.
    apply Forall_fmap_ext_1. eapply Forall_impl; [exact Hvalid|].
    intros c Hc. simpl. by apply digits32_upper. }
  pose proof pow2_128_lt_36_25.
  destruct (convertBase_ok cs 32 36 25) as (ds & Hconv & Hl & Hd & Hv);
    [lia|lia|lia|done|change (Z.of_nat 25) with 25; lia|].
  exists ds. split_and!; [done|done|lia|done| |].
  - unfold parseCrockford.
    rewrite test_Rep, class_run_Forall; [|done|].
    2:{ eapply Forall_impl; [exact Hvalid|]. intros c Hc. simpl in Hc.
        rewrite decodeCrockfordChar_closed in Hc.
        apply crockfordValue_valid in Hc as [Hin _].
        unfold class_match. by rewrite Hin. }
    cbn [negb]. rewrite (decodeCrockfordChars_ok s cs).
    2:{ apply Forall2_fmap_r, Forall_Forall2_diag.
        eapply Forall_impl; [exact Hvalid|].
        intros c Hc. split; [reflexivity|exact Hc]. }
    result_simpl. rewrite Hconv. result_simpl.
    apply fromDigitValues_ok; [done|done|lia].
  - destruct (toCrockford_ok ds Hl Hd ltac:(lia)) as (cs' & Hto & Hl' & Hd' & Hv').
    unfold valueOfDigits. rewrite Hto, <- Henc. do 2 f_equal.
    apply (digitsValue_inj 32); [lia|done|done|lia|lia].
Qed.

Lemma parseCrockford_overflow s :
  test false [Rep cls_0_9A_Za_z 26] s = true →
  Forall (λ c, decodeCrockfordChar c < 32) s →
  2 ^ 128 - 1 < digitsValue 32 (decodeCrockfordChar <$> s) →
  parseCrockford s = Throw (Error "Assertion failed: too small dst")
  ∨ parseCrockford s = Throw (Error "Assertion failed: 128-bit overflow").
Proof.
  intros Htest Hvalid Hover.
  unfold parseCrockford. rewrite Htest. cbn [negb].
  set (src := decodeCrockfordChar <$> s) in *.
  assert (isDigits 32 src) as Hsrc.
  { apply Forall_fmap. eapply Forall_impl; [exact Hvalid|]. simpl.
    intros c Hc. pose proof (decodeCrockfordChar_nonneg c). lia. }
  rewrite (decodeCrockfordChars_ok s src).
  2:{ apply Forall2_fmap_r, Forall_Forall2_diag.
      eapply Forall_impl; [exact Hvalid|].
        intros c Hc. split; [reflexivity|exact Hc]. }
  result_simpl.
  destruct (decide (digitsValue 32 src < 36 ^ Z.of_nat 25)) as [Hfits|Hbig].
  - right.
    destruct (convertBase_ok src 32 36 25) as (ds & -> & Hl & Hd & Hv);
      [lia|lia|lia|done|done|].
    result_simpl. apply fromDigitValues_overflow; [done|done|lia].
  - left. rewrite convertBase_overflow; [done|lia|lia|lia|done|lia].
Qed.

(** What a return of the Crockford parser tells. *)
Lemma parseCrockford_Ok_inv s v :
  parseCrockford s = Ok v →
  length s = 26%nat ∧ Forall (λ c, decodeCrockfordChar c < 32) s
  ∧ digitsValue 32 (decodeCrockfordChar <$> s) <= 2 ^ 128 - 1.
Proof.
  intros Hparse.
  assert (test false [Rep cls_0_9A_Za_z 26] s = true) as Htest.
  { unfold parseCrockford in Hparse. by destruct (test _ _ _). }
  pose proof Htest as Hrun. rewrite test_Rep in Hrun.
  apply class_run_inv in Hrun as [Hlen _].
  assert (Forall (λ c, decodeCrockfordChar c < 32) s) as Hvalid.
  { apply Forall_forall. intros c Hc.
    destruct (Z.lt_ge_cases (decodeCrockfordChar c) 32) as [|Hge]; [done|].
    unfold parseCrockford in Hparse. rewrite Htest in Hparse. cbn [negb] in Hparse.
    rewrite decodeCrockfordChars_invalid in Hparse; [done|].
    apply Exists_exists. eauto. }
  split_and!; [done|done|].
  destruct (Z.le_gt_cases (digitsValue 32 (decodeCrockfordChar <$> s)) (2 ^ 128 - 1))
    as [|Hover]; [done|].
  destruct (parseCrockford_overflow s Htest Hvalid Hover) as [H|H]; congruence.
Qed.

(** ** More on the values *)

Lemma alphanumericValue_valid c :
  alphanumericValue c < 36 ↔ in_class cls_0_9A_Za_z c = true.
Proof. unfold alphanumericValue, in_class. simpl. repeat case_match; lia. Qed.

Lemma decodeDigitChars_closed s base :
  decodeDigitChars s base
  = if (2 <=? base) && (base <=? 36) then
      if forallb (λ c, alphanumericValue c <? base) s
      then Ok (alphanumericValue <$> s)
      else Throw (Error "Assertion failed: invalid digit character")
    else Throw (Error "Assertion failed: invalid base").
Proof.
  unfold decodeDigitChars. destruct (_ && _); result_simpl; [|done].
  apply decodeDigitLoop_closed.
Qed.

Lemma decodeDigitChars_invalid s :
  Exists (λ c, in_class cls_0_9A_Za_z c = false) s →
  decodeDigitChars s 36 = Throw (Error "Assertion failed: invalid digit character").
Proof.
  intros Hbad. rewrite decodeDigitChars_closed. cbn [Z.leb andb Z.compare Pos.compare Pos.compare_cont].
  destruct (forallb _ s) eqn:Hall; [|done]. exfalso.
  apply Exists_exists in Hbad as (c & Hin & Hc). apply list_elem_of_In in Hin.
  pose proof (proj1 (forallb_forall _ _) Hall c Hin) as Hlt. simpl in Hlt.
  assert (alphanumericValue c < 36) as Hval by lia.
  apply alphanumericValue_valid in Hval. congruence.
Qed.


Lemma decode_encode32 cs :
  isDigits 32 cs → decodeCrockfordChar <$> (encodeDigit digits32 <$> cs) = cs.
Proof.
  intros Hcs. rewrite <- list_fmap_compose. rewrite <- (list_fmap_id cs) at 2.
  apply Forall_fmap_ext_1. eapply Forall_impl; [exact Hcs|].
  intros d Hd. simpl. by apply digits32_decode.
Qed.

Section canonicalValue.
Variable ds : list Z.
Hypothesis Hlen : length ds = 25%nat.
Hypothesis Hds : isDigits 36 ds.
Hypothesis Hmax : digitsValue 36 ds <= 2 ^ 128 - 1.

Lemma fromBytes_toBytes_digits :
  ∃ bs, toBytes (valueOfDigits ds) = Ok bs ∧ length bs = 16%nat ∧ Forall isByte bs
        ∧ digitsValue 256 bs = digitsValue 36 ds
        ∧ fromBytes bs = Ok (valueOfDigits ds).
Proof.
  destruct (toBytes_ok ds Hlen Hds Hmax) as (bs & Hto & Hbl & Hbd & Hbv).
  exists bs. split_and!; [done|done|done|done|].
  destruct (fromBytes_ok bs Hbl Hbd) as (ds' & Hl' & Hd' & Hv' & _ & ->).
  unfold valueOfDigits. do 3 f_equal.
  apply (digitsValue_inj 36); [lia|done|done|lia|lia].
Qed.

Lemma roundtrips_digits :
  roundtrips (λ v, Ok (toString v)) (valueOfDigits ds)
  ∧ roundtrips toHex (valueOfDigits ds)
  ∧ roundtrips toHyphenated (valueOfDigits ds)
  ∧ roundtrips toBraced (valueOfDigits ds)
  ∧ roundtrips toUrn (valueOfDigits ds)
  ∧ roundtrips toCrockford (valueOfDigits ds).
Proof.
  set (v := valueOfDigits ds).
  assert (equals v v = true) as Hrefl by by apply equals_eq.
  destruct (toHyphenated_ok ds Hlen Hds Hmax) as (hex & Hhex & His & Hhyph).
  destruct (toHex_ok ds Hlen Hds Hmax) as (hs & Hhex' & Hhl & Hhd & Hhv).
  fold (valueOfDigits ds) in Hhex, Hhyph, Hhex'. fold v in Hhex, Hhyph, Hhex'.
  assert (hex = encodeDigit digits16 <$> hs) as Hhs by congruence.
  assert (parseHexImpl (Some hex) = Ok v) as Himpl
    by (rewrite Hhs; by apply parseHexImpl_ok).
  destruct (formats_of_toHex v hex Hhex His) as (_ & Hbraced & Hurn).
  split_and!.
  - exists (value v), v. split_and!; [done| |done].
    rewrite parse_25 by (simpl; by rewrite length_fmap). by apply parseUuid25_ok.
  - exists hex, v. split_and!; [done| |done]. by rewrite parse_hex.
  - exists (join (js "-") (hexGroups hex)), v. split_and!; [done| |done].
    by rewrite parse_hyphenated.
  - exists (js "{" ++ join (js "-") (hexGroups hex) ++ js "}"), v.
    split_and!; [done|by rewrite parse_braced|done].
  - exists (js "urn:uuid:" ++ join (js "-") (hexGroups hex)), v.
    split_and!; [done|by rewrite parse_urn|done].
  - destruct (toCrockford_ok ds Hlen Hds Hmax) as (cs & Hcr & Hcl & Hcd & Hcv).
    exists (encodeDigit digits32 <$> cs), v. split_and!; [done| |done].
    rewrite parse_26 by by rewrite length_fmap. by apply parseCrockford_ok.
Qed.
End canonicalValue.

Lemma hexOutcome_cases s parsed format :
  hexOutcome s parsed format →
  (∃ v, parsed = Ok v) ∨ parsed = Throw newParseError.
Proof. intros [->|(ds & _ & _ & _ & -> & _)]; [by right|left; eauto]. Qed.

Lemma hexOutcome_Ok s parsed format v :
  hexOutcome s parsed format → parsed = Ok v →
  canonical (value v) ∧ format v = Ok (toLowerCase s).
Proof.
  intros [->|(ds & Hl & Hd & Hmax & -> & Hfmt)]; [done|]. intros [= <-].
  split; [|done]. apply canonical_valueOfDigits. by exists ds.
Qed.

Lemma lower_join_hexGroups h :
  toLowerCase (join (js "-") (hexGroups h))
  = join (js "-") (hexGroups (toLowerCase h)).
Proof.
  unfold hexGroups, toLowerCase.
  change (join (js "-") [?g1; ?g2; ?g3; ?g4; ?g5])
    with (g1 ++ js "-" ++ g2 ++ js "-" ++ g3 ++ js "-" ++ g4 ++ js "-" ++ g5).
  by rewrite !fmap_app, !fmap_take, !fmap_drop.
Qed.

Lemma length_join_hexGroupsI h :
  isHexI h → length (join (js "-") (hexGroups h)) = 36%nat.
Proof.
  intros Hh. rewrite <- (length_join_hexGroups (toLowerCase h)) by by apply isHexI_lower.
  rewrite <- lower_join_hexGroups. unfold toLowerCase. by rewrite length_fmap.
Qed.

(** The class of the canonical pattern under the [i] flag is the class of
    the alphanumeric characters. *)
Lemma cls_0_9a_z_ignoreCase c :
  class_match true cls_0_9a_z c = in_class cls_0_9A_Za_z c.
Proof.
  destruct (decide (0 <= c < 128)) as [Hc|Hc].
  - apply Bool.eqb_prop. revert c Hc.
    by apply (Z_range_forallb
      (λ c, Bool.eqb (class_match true cls_0_9a_z c) (in_class cls_0_9A_Za_z c)) 128).
  - destruct (class_match true cls_0_9a_z c) eqn:H1.
    { apply class_match_ascii in H1; [lia|]. repeat constructor; simpl; lia. }
    destruct (in_class cls_0_9A_Za_z c) eqn:H2; [|done].
    apply in_class_ascii in H2; [lia|]. repeat constructor; simpl; lia.
Qed.

Lemma forallb_pointwise {A} (f g : A → bool) (l : list A) :
  (∀ x, f x = g x) → forallb f l = forallb g l.
Proof. intros H. induction l as [|x l IH]; [done|]. simpl. by rewrite H, IH. Qed.

Lemma parseUuid25_closed s :
  length s = 25%nat →
  parseUuid25 s
  = if forallb (in_class cls_0_9A_Za_z) s
       && (digitsValue 36 (decodeDigitChar <$> s) <=? 2 ^ 128 - 1)
    then Ok (new_Uuid25 (toLowerCase s)) else Throw newParseError.
Proof.
  intros Hlen. unfold parseUuid25. rewrite test_Rep. unfold class_run.
  rewrite Hlen. change (25 =? 25)%nat with true. cbn [andb].
  rewrite (forallb_pointwise _ (in_class cls_0_9A_Za_z))
    by (intros c; apply cls_0_9a_z_ignoreCase).
  destruct (forallb (in_class cls_0_9A_Za_z) s) eqn:Hall; [|done].
  cbv zeta. cbn [andb].
  assert (Forall (λ c, in_class cls_0_9a_z c = true) (toLowerCase s)) as Hlow.
  { unfold toLowerCase. apply Forall_fmap, Forall_forall. intros c Hc.
    apply list_elem_of_In in Hc. simpl. apply cls_0_9a_z_lowercase.
    rewrite cls_0_9a_z_ignoreCase. by apply (proj1 (forallb_forall _ _) Hall). }
  destruct (base36_digits _ Hlow) as (ds & Hs & Hds & Hdig).
  rewrite decodeDigitChar_lower in Hds. rewrite <- Hds.
  rewrite Hs at 1. rewrite js_le_MAX; [|rewrite Hds; by rewrite length_fmap|done].
  by destruct (digitsValue 36 ds <=? 2 ^ 128 - 1).
Qed.

(** * The claims *)

(** C1.  Round trip: for every 16-byte array [b], each of the six textual
    formats of [fromBytes(b)] (the canonical string, [toHex], [toHyphenated],
    [toBraced], [toUrn], [toCrockford]) parses to a value equal to
    [fromBytes(b)], and [toBytes(fromBytes(b))] is [b]. *)
Theorem roundtrip_six_formats (b : list Z) :
  length b = 16%nat → isDigits 256 b →
  ∃ v, fromBytes b = Ok v
       ∧ roundtrips (λ v, Ok (toString v)) v
       ∧ roundtrips toHex v
       ∧ roundtrips toHyphenated v
       ∧ roundtrips toBraced v
       ∧ roundtrips toUrn v
       ∧ roundtrips toCrockford v
       ∧ toBytes v = Ok b.
Proof.
  intros Hlen Hb.
  destruct (fromBytes_ok b Hlen Hb) as (ds & Hl & Hd & Hv & Hmax & Hfrom).
  set (v := new_Uuid25 (encodeDigit digits36 <$> ds)) in *.
  assert (equals v v = true) as Hrefl by by apply equals_eq.
  destruct (toHyphenated_ok ds Hl Hd Hmax) as (hex & Hhex & His & Hhyph).
  destruct (toHex_ok ds Hl Hd Hmax) as (hs & Hhex' & Hhl & Hhd & Hhv).
  fold v in Hhex, Hhyph, Hhex'.
  assert (hex = encodeDigit digits16 <$> hs) as Hhs by congruence.
  assert (parseHexImpl (Some hex) = Ok v) as Himpl
    by (rewrite Hhs; by apply parseHexImpl_ok).
  exists v. split_and!; [done| | | | | | |].
  - exists (value v), v. split_and!; [done| |done].
    rewrite parse_25 by (simpl; by rewrite length_fmap). by apply parseUuid25_ok.
  - exists hex, v. split_and!; [done| |done]. by rewrite parse_hex.
  - exists (join (js "-") (hexGroups hex)), v. split_and!; [done| |done].
    by rewrite parse_hyphenated.
  - exists (js "{" ++ join (js "-") (hexGroups hex) ++ js "}"), v.
    split_and!; [|by rewrite parse_braced|done].
    unfold toBraced. rewrite Hhyph. by result_simpl.
  - exists (js "urn:uuid:" ++ join (js "-") (hexGroups hex)), v.
    split_and!; [|by rewrite parse_urn|done].
    unfold toUrn. rewrite Hhyph. by result_simpl.
  - destruct (toCrockford_ok ds Hl Hd Hmax) as (cs & Hcr & Hcl & Hcd & Hcv).
    exists (encodeDigit digits32 <$> cs), v. split_and!; [done| |done].
    rewrite parse_26 by by rewrite length_fmap. by apply parseCrockford_ok.
  - destruct (toBytes_ok ds Hl Hd Hmax) as (bs & Hbs & Hbl & Hbd & Hbv).
    fold v in Hbs. rewrite Hbs. f_equal. apply (digitsValue_inj 256); [lia|done|done|lia|lia].
Qed.

Lemma roundtrip_six_formats_witness :
  let b := [0x8d; 0xa9; 0x42; 0xa4; 0x1f; 0xbe; 0x4c; 0xa6;
            0x85; 0x2c; 0x95; 0xc4; 0x73; 0x22; 0x9c; 0x7d] in
  length b = 16%nat ∧ isDigits 256 b
  ∧ ∃ v, fromBytes b = Ok v
         ∧ roundtrips (λ v, Ok (toString v)) v
         ∧ roundtrips toHex v
         ∧ roundtrips toHyphenated v
         ∧ roundtrips toBraced v
         ∧ roundtrips toUrn v
         ∧ roundtrips toCrockford v
         ∧ toBytes v = Ok b.
Proof.
  intros b.
  assert (length b = 16%nat) as Hlen by reflexivity.
  assert (isDigits 256 b) as Hb by solve_isDigits.
  exact (conj Hlen (conj Hb (roundtrip_six_formats b Hlen Hb))).
Defined.

(** C2.  Bound enforcement: sixteen [0xff] bytes give the value
    ["f5lxx1zz5pnorynqglhzmsp33"], and [parse] throws a [SyntaxError] on
    every 25-character string over [0-9a-zA-Z] whose lower-case form is
    greater than that constant. *)
Theorem bound_enforcement :
  fromBytes (replicate 16 0xff) = Ok (new_Uuid25 (js "f5lxx1zz5pnorynqglhzmsp33"))
  ∧ ∀ s,
      length s = 25%nat →
      Forall (λ c, in_class cls_0_9A_Za_z c = true) s →
      js_lt (js "f5lxx1zz5pnorynqglhzmsp33") (toLowerCase s) = true →
      parse s = Throw (SyntaxError "could not parse a UUID string").
Proof.
  split; [by vm_compute|].
  intros s Hlen _ Hgt. rewrite parse_25 by done. unfold parseUuid25.
  destruct (test true [Rep cls_0_9a_z 25] s); [|done].
  cbv zeta. unfold js_le. fold MAX in Hgt. by rewrite Hgt.
Qed.

Lemma bound_enforcement_witness :
  let s := js "F5LXX1ZZ5PNORYNQGLHZMSP34" in
  length s = 25%nat
  ∧ Forall (λ c, in_class cls_0_9A_Za_z c = true) s
  ∧ js_lt (js "f5lxx1zz5pnorynqglhzmsp33") (toLowerCase s) = true
  ∧ parse s = Throw (SyntaxError "could not parse a UUID string").
Proof.
  intros s.
  assert (length s = 25%nat) as Hlen by reflexivity.
  assert (Forall (λ c, in_class cls_0_9A_Za_z c = true) s) as Hcls
    by (repeat (apply Forall_cons_2; [reflexivity|]); apply Forall_nil_2).
  assert (js_lt (js "f5lxx1zz5pnorynqglhzmsp33") (toLowerCase s) = true) as Hgt
    by reflexivity.
  exact (conj Hlen (conj Hcls (conj Hgt (proj2 bound_enforcement s Hlen Hcls Hgt)))).
Defined.

(** C3.  The 128-bit bound check of the Crockford parser: on every
    26-character string over [0-9A-Za-z] that decodes to a number above
    [2 ^ 128 - 1], [parse] throws the plain [Error] of a failed assertion,
    where its documentation promises a [SyntaxError]. *)
Theorem parseCrockford_overflow_error (s : list Z) :
  test false [Rep cls_0_9A_Za_z 26] s = true →
  Forall (λ c, decodeCrockfordChar c < 32) s →
  2 ^ 128 - 1 < digitsValue 32 (decodeCrockfordChar <$> s) →
  parse s = Throw (Error "Assertion failed: too small dst")
  ∨ parse s = Throw (Error "Assertion failed: 128-bit overflow").
Proof.
  intros Htest Hvalid Hover.
  pose proof Htest as Hrun. rewrite test_Rep in Hrun.
  apply class_run_inv in Hrun as [Hlen _].
  rewrite parse_26 by done. unfold parseCrockford. rewrite Htest. cbn [negb].
  set (src := decodeCrockfordChar <$> s) in *.
  assert (isDigits 32 src) as Hsrc.
  { apply Forall_fmap. eapply Forall_impl; [exact Hvalid|]. simpl.
    intros c Hc. pose proof (decodeCrockfordChar_nonneg c). lia. }
  rewrite (decodeCrockfordChars_ok s src).
  2:{ apply Forall2_fmap_r, Forall_Forall2_diag.
      eapply Forall_impl; [exact Hvalid|]. by intros c Hc. }
  result_simpl.
  destruct (decide (digitsValue 32 src < 36 ^ Z.of_nat 25)) as [Hfits|Hbig].
  - right.
    destruct (convertBase_ok src 32 36 25) as (ds & -> & Hl & Hd & Hv);
      [lia|lia|lia|done|done|].
    result_simpl. apply fromDigitValues_overflow; [done|done|lia].
  - left. rewrite convertBase_overflow; [done|lia|lia|lia|done|lia].
Qed.

Lemma parseCrockford_overflow_error_witness :
  let s := js "80000000000000000000000000" in
  test false [Rep cls_0_9A_Za_z 26] s = true
  ∧ Forall (λ c, decodeCrockfordChar c < 32) s
  ∧ 2 ^ 128 - 1 < digitsValue 32 (decodeCrockfordChar <$> s)
  ∧ (parse s = Throw (Error "Assertion failed: too small dst")
     ∨ parse s = Throw (Error "Assertion failed: 128-bit overflow")).
Proof.
  intros s.
  assert (test false [Rep cls_0_9A_Za_z 26] s = true) as Htest by reflexivity.
  assert (Forall (λ c, decodeCrockfordChar c < 32) s) as Hvalid by compute_done.
  assert (2 ^ 128 - 1 < digitsValue 32 (decodeCrockfordChar <$> s)) as Hover
    by reflexivity.
  exact (conj Htest (conj Hvalid (conj Hover
           (parseCrockford_overflow_error s Htest Hvalid Hover)))).
Defined.

(** C4.  The letter U in Crockford input: on a 26-character string over
    [0-9A-Za-z] that contains ['U'] or ['u'], for which the decoder gives
    the invalid value [0x7f], [parse] throws the plain [Error] of a failed
    assertion, where its documentation promises a [SyntaxError]. *)
Theorem parseCrockford_U_error (s : list Z) :
  test false [Rep cls_0_9A_Za_z 26] s = true →
  Exists (λ c, c = 85 ∨ c = 117) s →
  decodeCrockfordChar 85 = 0x7f ∧ decodeCrockfordChar 117 = 0x7f
  ∧ parse s
    = Throw (Error "Assertion failed: invalid Crockford Base32 character").
Proof.
  intros Htest HU. split_and!; [done|done|].
  pose proof Htest as Hrun. rewrite test_Rep in Hrun.
  apply class_run_inv in Hrun as [Hlen _].
  rewrite parse_26 by done. unfold parseCrockford. rewrite Htest. cbn [negb].
  rewrite decodeCrockfordChars_invalid; [done|].
  eapply Exists_impl; [exact HU|]. intros c [->| ->]; by vm_compute.
Qed.

Lemma parseCrockford_U_error_witness :
  let s := js "0000000000000000000000000U" in
  test false [Rep cls_0_9A_Za_z 26] s = true
  ∧ Exists (λ c, c = 85 ∨ c = 117) s
  ∧ parse s
    = Throw (Error "Assertion failed: invalid Crockford Base32 character").
Proof.
  intros s.
  assert (test false [Rep cls_0_9A_Za_z 26] s = true) as Htest by reflexivity.
  assert (Exists (λ c, c = 85 ∨ c = 117) s) as HU
    by (do 25 apply Exists_cons_tl; apply Exists_cons_hd; left; reflexivity).
  exact (conj Htest (conj HU (proj2 (proj2 (parseCrockford_U_error s Htest HU))))).
Defined.

(** C5 as the specification states it fails: for bases 256 and 36 the loop
    selects [wordBase = 256 ^ 5], above [MAX_SAFE_INTEGER / (256 * 36)]. *)
Lemma word_size_counterexample :
  ¬ (∀ srcBase dstBase wordLen wordBase,
       2 <= srcBase <= 256 → 2 <= dstBase <= 256 →
       wordLoop 64 srcBase dstBase 1 srcBase = Ok (wordLen, wordBase) →
       wordBase <= MAX_SAFE_INTEGER / (srcBase * dstBase)).
Proof.
  intros H. specialize (H 256 36 5 (256 ^ 5)).
  assert (256 ^ 5 <= MAX_SAFE_INTEGER / (256 * 36)) as Hle
    by (apply H; [lia|lia|by vm_compute]).
  vm_compute in Hle. by apply Hle.
Qed.

(** C5, amended.  For all bases between 2 and 256 the word size that
    [convertBase] selects is [wordBase = srcBase ^ wordLen] with
    [wordBase <= MAX_SAFE_INTEGER / dstBase]: it is the previous power,
    [srcBase ^ (wordLen - 1)], that is at most
    [MAX_SAFE_INTEGER / (srcBase * dstBase)], and [wordBase] itself is the
    first power above that quotient. *)
Theorem word_size_selection (srcBase dstBase : Z) :
  2 <= srcBase <= 256 → 2 <= dstBase <= 256 →
  ∃ wordLen wordBase,
    wordLoop 64 srcBase dstBase 1 srcBase = Ok (wordLen, wordBase)
    ∧ 1 <= wordLen ∧ wordBase = srcBase ^ wordLen
    ∧ wordBase <= MAX_SAFE_INTEGER / dstBase
    ∧ srcBase ^ (wordLen - 1) <= MAX_SAFE_INTEGER / (srcBase * dstBase)
    ∧ MAX_SAFE_INTEGER / (srcBase * dstBase) < wordBase.
Proof.
  intros Hs Hd.
  destruct (wordLoop_spec srcBase dstBase Hs Hd 64 1 srcBase)
    as (wordLen & wordBase & Hloop & Hlen & Hbase & Hsafe & Hlast);
    [lia|by rewrite Z.pow_1_r|unfold MAX_SAFE_INTEGER; nia|lia|].
  exists wordLen, wordBase. split_and!; try done.
  - apply Z.div_le_lower_bound; lia.
  - apply Z.div_le_lower_bound; [nia|].
    replace wordLen with (wordLen - 1 + 1) in Hbase by lia.
    rewrite Z.pow_add_r, Z.pow_1_r in Hbase by lia. subst wordBase. lia.
Qed.

Lemma word_size_selection_witness :
  2 <= 256 <= 256 ∧ 2 <= 36 <= 256
  ∧ ∃ wordLen wordBase,
      wordLoop 64 256 36 1 256 = Ok (wordLen, wordBase)
      ∧ 1 <= wordLen ∧ wordBase = 256 ^ wordLen
      ∧ wordBase <= MAX_SAFE_INTEGER / 36
      ∧ 256 ^ (wordLen - 1) <= MAX_SAFE_INTEGER / (256 * 36)
      ∧ MAX_SAFE_INTEGER / (256 * 36) < wordBase.
Proof.
  assert (2 <= 256 <= 256) as Hs by lia.
  assert (2 <= 36 <= 256) as Hd by lia.
  exact (conj Hs (conj Hd (word_size_selection 256 36 Hs Hd))).
Defined.

(** C6 as the specification states it fails: the constructor stores any
    string, here one above [Uuid25.MAX]. *)
Lemma constructor_unchecked :
  ¬ (∀ s, canonical (value (new_Uuid25 s))).
Proof.
  intros H. destruct (H (js "zzzzzzzzzzzzzzzzzzzzzzzzz")) as (_ & _ & Hle).
  by vm_compute in Hle.
Qed.

(** C6, amended.  Every value that [parse], [fromBytes] or [fromDigitValues]
    (on an array of digit values, numbers that are not negative) returns
    wraps a canonical string: 25 characters over [0-9a-z], at most
    ["f5lxx1zz5pnorynqglhzmsp33"], denoting a number of at most
    [2 ^ 128 - 1].  The constructor itself checks nothing. *)
Theorem construction_paths_canonical (v : Uuid25) :
  (∃ s, parse s = Ok v)
  ∨ (∃ b, fromBytes b = Ok v)
  ∨ (∃ digitValues,
       Forall (λ e, 0 <= e) digitValues ∧ fromDigitValues digitValues = Ok v) →
  canonical (value v)
  ∧ digitsValue 36 (decodeDigitChar <$> value v) <= 2 ^ 128 - 1.
Proof.
  intros H.
  assert (canonical (value v)) as Hcanon.
  { destruct H as [[s H]|[[b H]|(ds & Hds & H)]].
    - by eapply parse_canonical.
    - by eapply fromBytes_canonical.
    - by eapply fromDigitValues_canonical. }
  split; [done|].
  apply canonical_digits in Hcanon as (ds & -> & Hl & Hd & Hmax).
  rewrite <- list_fmap_compose.
  replace ((decodeDigitChar ∘ encodeDigit digits36) <$> ds) with ds; [done|].
  rewrite <- (list_fmap_id ds) at 1. apply Forall_fmap_ext_1.
  eapply Forall_impl; [exact Hd|]. intros d Hd'. simpl.
  symmetry. by apply digits36_decode.
Qed.

Lemma construction_paths_canonical_witness :
  let v := new_Uuid25 (js "8dx554y5rzerz1syhqsvsdw8t") in
  ((∃ s, parse s = Ok v)
   ∨ (∃ b, fromBytes b = Ok v)
   ∨ (∃ digitValues,
        Forall (λ e, 0 <= e) digitValues ∧ fromDigitValues digitValues = Ok v))
  ∧ canonical (value v)
  ∧ digitsValue 36 (decodeDigitChar <$> value v) <= 2 ^ 128 - 1.
Proof.
  intros v.
  assert (parse (js "8da942a4-1fbe-4ca6-852c-95c473229c7d") = Ok v) as Hparse
    by (vm_compute; reflexivity).
  pose (H := or_introl (ex_intro (λ s, parse s = Ok v) _ Hparse)
             : (∃ s, parse s = Ok v)
               ∨ (∃ b, fromBytes b = Ok v)
               ∨ (∃ digitValues,
                    Forall (λ e, 0 <= e) digitValues
                    ∧ fromDigitValues digitValues = Ok v)).
  exact (conj H (construction_paths_canonical v H)).
Defined.

(** C7.  Length dispatch: [parse] throws a [SyntaxError] on every string
    whose length is none of 25, 26, 32, 36, 38 and 45. *)
Theorem parse_other_lengths (s : list Z) :
  length s ∉ [25; 26; 32; 36; 38; 45]%nat →
  parse s = Throw (SyntaxError "could not parse a UUID string").
Proof.
  unfold parse. generalize (length s). intros n H.
  do 46 (destruct n as [|n];
         [first [reflexivity | exfalso; apply H; by repeat constructor]|]).
  reflexivity.
Qed.

Lemma parse_other_lengths_witness :
  let s := js "not-a-uuid" in
  (length s ∉ [25; 26; 32; 36; 38; 45]%nat)
  ∧ parse s = Throw (SyntaxError "could not parse a UUID string").
Proof.
  intros s.
  assert (length s ∉ [25; 26; 32; 36; 38; 45]%nat) as H by compute_done.
  exact (conj H (parse_other_lengths s H)).
Defined.

(** C8.  Case insensitivity: when [parse] accepts a string, which is then
    an ASCII string in one of the six formats, it accepts its upper-case and
    its lower-case form and returns equal values for the three. *)
Theorem parse_case_insensitive (s : list Z) (v : Uuid25) :
  parse s = Ok v →
  isAscii s
  ∧ ∃ vu vl,
      parse (toUpperCase s) = Ok vu ∧ parse (toLowerCase s) = Ok vl
      ∧ equals vu v = true ∧ equals vl v = true.
Proof.
  intros Hparse. split; [by eapply parse_ascii|]. exists v, v.
  unfold toUpperCase, toLowerCase.
  rewrite (parse_caseMapping toUpper1 (or_introl eq_refl)),
    (parse_caseMapping toLower1 (or_intror eq_refl)), Hparse.
  split_and!; try done; by apply equals_eq.
Qed.

Lemma parse_case_insensitive_witness :
  let s := js "urn:uuid:E7a1d63b-7117-4423-8988-AFCF12161878" in
  let v := new_Uuid25 (js "dpoadk8izg9y4tte7vy1xt94o") in
  parse s = Ok v
  ∧ isAscii s
  ∧ ∃ vu vl,
      parse (toUpperCase s) = Ok vu ∧ parse (toLowerCase s) = Ok vl
      ∧ equals vu v = true ∧ equals vl v = true.
Proof.
  intros s v.
  assert (parse s = Ok v) as Hparse by (vm_compute; reflexivity).
  exact (conj Hparse (parse_case_insensitive s v Hparse)).
Defined.

(** C9.  Crockford tolerance: on a 26-character input [parse] returns what
    it returns on the input with I, i, L and l replaced by 1 and O and o
    replaced by 0: the same value, or the same exception. *)
Theorem parse_crockford_tolerance (s : list Z) :
  length s = 26%nat →
  parse (replaceConfusable <$> s) = parse s ∧ parse s ≠ OutOfFuel.
Proof.
  intros Hlen. split; [|apply parse_terminates].
  rewrite !parse_26 by by rewrite ?length_fmap.
  unfold parseCrockford.
  rewrite !test_Rep, class_run_fmap, decodeCrockfordChars_replaceConfusable; [done|].
  by apply (replaceConfusable_invariant (class_match false cls_0_9A_Za_z)).
Qed.

Lemma parse_crockford_tolerance_witness :
  let s := js "OoIiLl0123456789abcdefghjk" in
  length s = 26%nat
  ∧ replaceConfusable <$> s = js "0011110123456789abcdefghjk"
  ∧ parse (replaceConfusable <$> s) = parse s ∧ parse s ≠ OutOfFuel.
Proof.
  intros s.
  assert (length s = 26%nat) as Hlen by reflexivity.
  exact (conj Hlen (conj eq_refl (parse_crockford_tolerance s Hlen))).
Defined.

(** C10.  The formatters are safe: for a value whose string is canonical,
    [toHex] returns 32 characters over [0-9a-f], the pattern of
    [toHyphenated] matches them, and [toHyphenated], [toBraced] and [toUrn]
    return. *)
Theorem formatters_never_throw (v : Uuid25) :
  canonical (value v) →
  ∃ hex,
    toHex v = Ok hex
    ∧ length hex = 32%nat
    ∧ Forall (λ c, in_class cls_0_9a_f c = true) hex
    ∧ is_Some (exec false [Cap cls_0_9a_f 8; Cap cls_0_9a_f 4; Cap cls_0_9a_f 4;
                           Cap cls_0_9a_f 4; Cap cls_0_9a_f 12] hex)
    ∧ (∃ s, toHyphenated v = Ok s)
    ∧ (∃ s, toBraced v = Ok s)
    ∧ (∃ s, toUrn v = Ok s).
Proof.
  destruct v as [s]. intros Hcanon. cbn [value] in Hcanon.
  apply canonical_digits in Hcanon as (ds & -> & Hl & Hd & Hmax).
  destruct (toHyphenated_ok ds Hl Hd Hmax) as (hex & Hhex & [Hlen Hcls] & Hhyph).
  exists hex. split_and!; [done|done| | | | |].
  - eapply Forall_impl; [exact Hcls|]. intros c Hc. simpl in Hc.
    unfold class_match in Hc. by rewrite orb_false_r in Hc.
  - by rewrite exec_groups.
  - eauto.
  - unfold toBraced. rewrite Hhyph. result_simpl. eauto.
  - unfold toUrn. rewrite Hhyph. result_simpl. eauto.
Qed.

Lemma formatters_never_throw_witness :
  let v := new_Uuid25 (js "dpoadk8izg9y4tte7vy1xt94o") in
  canonical (value v)
  ∧ ∃ hex,
      toHex v = Ok hex
      ∧ length hex = 32%nat
      ∧ Forall (λ c, in_class cls_0_9a_f c = true) hex
      ∧ is_Some (exec false [Cap cls_0_9a_f 8; Cap cls_0_9a_f 4; Cap cls_0_9a_f 4;
                             Cap cls_0_9a_f 4; Cap cls_0_9a_f 12] hex)
      ∧ (∃ s, toHyphenated v = Ok s)
      ∧ (∃ s, toBraced v = Ok s)
      ∧ (∃ s, toUrn v = Ok s).
Proof.
  intros v.
  assert (canonical (value v)) as Hcanon.
  { split_and!; [reflexivity| |reflexivity].
    repeat (apply Forall_cons_2; [reflexivity|]); apply Forall_nil_2. }
  exact (conj Hcanon (formatters_never_throw v Hcanon)).
Defined.

(** * Further properties *)

(** X1.  [convertBase] is correct: for bases between 2 and 256, a source of
    digits of [srcBase] and a positive [dstSize] that the number fits, it
    returns exactly [dstSize] digits of [dstBase] (zero-padded on the left)
    that denote the same number. *)
Theorem convertBase_same_number (src : list Z) (srcBase dstBase : Z) (dstSize : nat) :
  2 <= srcBase <= 256 → 2 <= dstBase <= 256 → (0 < dstSize)%nat →
  isDigits srcBase src →
  digitsValue srcBase src < dstBase ^ Z.of_nat dstSize →
  ∃ dst,
    convertBase src srcBase dstBase dstSize = Ok dst
    ∧ length dst = dstSize ∧ isDigits dstBase dst
    ∧ digitsValue dstBase dst = digitsValue srcBase src.
Proof. apply convertBase_ok. Qed.

Lemma convertBase_same_number_witness :
  2 <= 256 <= 256 ∧ 2 <= 10 <= 256 ∧ (0 < 6)%nat
  ∧ isDigits 256 [255; 255]
  ∧ digitsValue 256 [255; 255] < 10 ^ Z.of_nat 6
  ∧ ∃ dst,
      convertBase [255; 255] 256 10 6 = Ok dst
      ∧ length dst = 6%nat ∧ isDigits 10 dst
      ∧ digitsValue 10 dst = digitsValue 256 [255; 255].
Proof.
  assert (2 <= 256 <= 256) as Hs by lia.
  assert (2 <= 10 <= 256) as Hd by lia.
  assert (0 < 6)%nat as Hn by lia.
  assert (isDigits 256 [255; 255]) as Hsrc by solve_isDigits.
  assert (digitsValue 256 [255; 255] < 10 ^ Z.of_nat 6) as Hfit by reflexivity.
  exact (conj Hs (conj Hd (conj Hn (conj Hsrc (conj Hfit
           (convertBase_same_number [255; 255] 256 10 6 Hs Hd Hn Hsrc Hfit)))))).
Defined.

(** X2.  [convertBase] detects overflow: for bases between 2 and 256, a
    source of digits of [srcBase] and a positive [dstSize], when the number
    does not fit [dstSize] digits of [dstBase] the assertion
    ["too small dst"] fails. *)
Theorem convertBase_too_small (src : list Z) (srcBase dstBase : Z) (dstSize : nat) :
  2 <= srcBase <= 256 → 2 <= dstBase <= 256 → (0 < dstSize)%nat →
  isDigits srcBase src →
  dstBase ^ Z.of_nat dstSize <= digitsValue srcBase src →
  convertBase src srcBase dstBase dstSize
  = Throw (Error "Assertion failed: too small dst").
Proof. apply convertBase_overflow. Qed.

Lemma convertBase_too_small_witness :
  2 <= 256 <= 256 ∧ 2 <= 10 <= 256 ∧ (0 < 4)%nat
  ∧ isDigits 256 [255; 255]
  ∧ 10 ^ Z.of_nat 4 <= digitsValue 256 [255; 255]
  ∧ convertBase [255; 255] 256 10 4
    = Throw (Error "Assertion failed: too small dst").
Proof.
  assert (2 <= 256 <= 256) as Hs by lia.
  assert (2 <= 10 <= 256) as Hd by lia.
  assert (0 < 4)%nat as Hn by lia.
  assert (isDigits 256 [255; 255]) as Hsrc by solve_isDigits.
  assert (10 ^ Z.of_nat 4 <= digitsValue 256 [255; 255]) as Hover
    by (by apply Z.leb_le).
  exact (conj Hs (conj Hd (conj Hn (conj Hsrc (conj Hover
           (convertBase_too_small [255; 255] 256 10 4 Hs Hd Hn Hsrc Hover)))))).
Defined.

(** X3.  The edge cases of [convertBase] on sizes: for bases between 2 and
    256 an empty source gives [dstSize] zeros, for any [dstSize], also 0;
    a source that is not empty and [dstSize = 0] fail the assertion
    ["too small dst"], whatever the digits. *)
Theorem convertBase_sizes (srcBase dstBase : Z) :
  2 <= srcBase <= 256 → 2 <= dstBase <= 256 →
  (∀ dstSize, convertBase [] srcBase dstBase dstSize = Ok (replicate dstSize 0))
  ∧ (∀ src, src ≠ [] →
       convertBase src srcBase dstBase 0
       = Throw (Error "Assertion failed: too small dst")).
Proof.
  intros Hs Hd. split.
  - intros dstSize. by apply convertBase_nil.
  - intros src Hsrc. by apply convertBase_zero_size.
Qed.

Lemma convertBase_sizes_witness :
  2 <= 36 <= 256 ∧ 2 <= 16 <= 256
  ∧ (∀ dstSize, convertBase [] 36 16 dstSize = Ok (replicate dstSize 0))
  ∧ (∀ src, src ≠ [] →
       convertBase src 36 16 0 = Throw (Error "Assertion failed: too small dst")).
Proof.
  assert (2 <= 36 <= 256) as Hs by lia.
  assert (2 <= 16 <= 256) as Hd by lia.
  exact (conj Hs (conj Hd (convertBase_sizes 36 16 Hs Hd))).
Defined.



(** X5.  [convertBase] there and back: when it converts a source of digits
    that is not empty into [dstSize] digits of [dstBase], converting those
    back into as many digits of [srcBase] as the source has returns the
    source. *)
Theorem convertBase_there_and_back (src : list Z) (srcBase dstBase : Z)
    (dstSize : nat) :
  2 <= srcBase <= 256 → 2 <= dstBase <= 256 → (0 < dstSize)%nat →
  src ≠ [] → isDigits srcBase src →
  digitsValue srcBase src < dstBase ^ Z.of_nat dstSize →
  ∃ dst,
    convertBase src srcBase dstBase dstSize = Ok dst
    ∧ convertBase dst dstBase srcBase (length src) = Ok src.
Proof.
  intros Hs Hd Hsize Hne Hsrc Hfits.
  destruct (convertBase_ok src srcBase dstBase dstSize) as (dst & Hdst & Hl & Hdig & Hv);
    try done.
  exists dst. split; [done|].
  pose proof (digitsValue_bound srcBase src ltac:(lia) Hsrc) as Hbound.
  destruct (convertBase_ok dst dstBase srcBase (length src))
    as (src' & -> & Hl' & Hdig' & Hv'); try done.
  - destruct src; [done|simpl; lia].
  - lia.
  - f_equal. apply (digitsValue_inj srcBase); [lia|done|done|done|lia].
Qed.

Lemma convertBase_there_and_back_witness :
  2 <= 36 <= 256 ∧ 2 <= 256 <= 256 ∧ (0 < 2)%nat
  ∧ [1; 2; 3] ≠ [] ∧ isDigits 36 [1; 2; 3]
  ∧ digitsValue 36 [1; 2; 3] < 256 ^ Z.of_nat 2
  ∧ ∃ dst,
      convertBase [1; 2; 3] 36 256 2 = Ok dst
      ∧ convertBase dst 256 36 (length [1; 2; 3]) = Ok [1; 2; 3].
Proof.
  assert (2 <= 36 <= 256) as Hs by lia.
  assert (2 <= 256 <= 256) as Hd by lia.
  assert (0 < 2)%nat as Hn by lia.
  assert ([1; 2; 3] ≠ @nil Z) as Hne by discriminate.
  assert (isDigits 36 [1; 2; 3]) as Hsrc by solve_isDigits.
  assert (digitsValue 36 [1; 2; 3] < 256 ^ Z.of_nat 2) as Hfit by reflexivity.
  exact (conj Hs (conj Hd (conj Hn (conj Hne (conj Hsrc (conj Hfit
           (convertBase_there_and_back [1; 2; 3] 36 256 2 Hs Hd Hn Hne Hsrc Hfit))))))).
Defined.


(** X7.  The table of the alphanumeric decoder, in closed form: for every
    code unit, of any size, [DECODE_MAP[code] ?? 0x7f] is the digit value of
    ['0'-'9'] (0 to 9), of a letter of either case (10 to 35), and [0x7f]
    for anything else. *)
Theorem decodeDigitChar_alphanumeric (c : Z) :
  decodeDigitChar c = alphanumericValue c
  ∧ (alphanumericValue c < 36 ↔ in_class cls_0_9A_Za_z c = true).
Proof.
  split; [apply decodeDigitChar_closed|].
  unfold alphanumericValue, in_class. simpl. repeat case_match; lia.
Qed.

(** X8.  [decodeDigitChars] in closed form: a base outside 2..36 fails the
    assertion ["invalid base"]; otherwise the string decodes, character by
    character and without regard to case, when every character is a digit
    below the base, and fails the assertion ["invalid digit character"]
    when one is not. *)
Theorem decodeDigitChars_outcome (s : list Z) (base : Z) :
  decodeDigitChars s base
  = if (2 <=? base) && (base <=? 36) then
      if forallb (λ c, alphanumericValue c <? base) s
      then Ok (alphanumericValue <$> s)
      else Throw (Error "Assertion failed: invalid digit character")
    else Throw (Error "Assertion failed: invalid base").
Proof.
  unfold decodeDigitChars. destruct (_ && _); result_simpl; [|done].
  apply decodeDigitLoop_closed.
Qed.

(** X9.  The table of the Crockford decoder, in closed form: the loops and
    assignments that build [CROCKFORD_DECODE_MAP] give every code unit the
    value its comments say, and the characters with a digit value are the
    alphanumeric ones other than U and u. *)
Theorem decodeCrockfordChar_crockford (c : Z) :
  decodeCrockfordChar c = crockfordValue c
  ∧ (crockfordValue c < 32
     ↔ in_class cls_0_9A_Za_z c = true ∧ c ≠ 85 ∧ c ≠ 117).
Proof. split; [apply decodeCrockfordChar_closed|apply crockfordValue_valid]. Qed.

(** X10.  [decodeCrockfordChars] in closed form: the string decodes,
    character by character, when every character has a digit value, and
    fails the assertion ["invalid Crockford Base32 character"] when one has
    none. *)
Theorem decodeCrockfordChars_outcome (s : list Z) :
  decodeCrockfordChars s
  = if forallb (λ c, crockfordValue c <? 32) s
    then Ok (crockfordValue <$> s)
    else Throw (Error "Assertion failed: invalid Crockford Base32 character").
Proof. apply decodeCrockfordChars_closed. Qed.

(** X11.  The alphabets of the encoders against the decoders: the character
    [digits.charAt(d)] of a digit value [d] decodes to [d], for the base-36
    and base-16 alphabets with the alphanumeric decoder and for the
    Crockford alphabet with the Crockford decoder. *)
Theorem alphabets_decode :
  (∀ d, 0 <= d < 36 → ∃ c, charAt digits36 d = [c] ∧ decodeDigitChar c = d)
  ∧ (∀ d, 0 <= d < 16 → ∃ c, charAt digits16 d = [c] ∧ decodeDigitChar c = d)
  ∧ (∀ d, 0 <= d < 32 → ∃ c, charAt digits32 d = [c] ∧ decodeCrockfordChar c = d).
Proof.
  split_and!; intros d Hd; eexists; (split; [by apply charAt_digit|]).
  - by apply digits36_decode.
  - by apply digits16_decode.
  - by apply digits32_decode.
Qed.

Lemma alphabets_decode_witness :
  0 <= 31 < 36 ∧ 0 <= 15 < 16 ∧ 0 <= 31 < 32
  ∧ (∃ c, charAt digits36 31 = [c] ∧ decodeDigitChar c = 31)
  ∧ (∃ c, charAt digits16 15 = [c] ∧ decodeDigitChar c = 15)
  ∧ (∃ c, charAt digits32 31 = [c] ∧ decodeCrockfordChar c = 31).
Proof.
  assert (0 <= 31 < 36) as H36 by lia.
  assert (0 <= 15 < 16) as H16 by lia.
  assert (0 <= 31 < 32) as H32 by lia.
  exact (conj H36 (conj H16 (conj H32
    (conj (proj1 alphabets_decode 31 H36)
       (conj (proj1 (proj2 alphabets_decode) 15 H16)
             (proj2 (proj2 alphabets_decode) 31 H32)))))).
Defined.

(** X12.  [fromDigitValues] in closed form, on an array of numbers that are
    not negative: it fails the assertion on the length unless there are 25
    of them, the assertion on the digit values unless all are below 36, the
    assertion on the 128-bit bound when they denote more than
    [2 ^ 128 - 1], and otherwise returns the value whose string is their
    numeral. *)
Theorem fromDigitValues_outcome (digitValues : list Z) :
  Forall (λ e, 0 <= e) digitValues →
  fromDigitValues digitValues
  = if (length digitValues =? 25)%nat then
      if forallb (λ e, e <? 36) digitValues then
        if digitsValue 36 digitValues <=? 2 ^ 128 - 1
        then Ok (valueOfDigits digitValues)
        else Throw (Error "Assertion failed: 128-bit overflow")
      else Throw (Error "Assertion failed: invalid digit value")
    else Throw (Error "Assertion failed: invalid length of digit value array").
Proof. apply fromDigitValues_closed. Qed.

Lemma fromDigitValues_outcome_witness :
  let digitValues := replicate 24 0 ++ [36] in
  Forall (λ e, 0 <= e) digitValues
  ∧ fromDigitValues digitValues
    = Throw (Error "Assertion failed: invalid digit value").
Proof.
  intros digitValues.
  assert (Forall (λ e, 0 <= e) digitValues) as H by solve_isDigits.
  exact (conj H (fromDigitValues_outcome digitValues H)).
Defined.

(** X13.  [fromDigitValues] does not reject a negative digit value: it
    passes the check [e < 36], [charAt] gives it the empty string, and
    whenever the function returns on an array with one the value wraps a
    string of fewer than 25 characters, which is not canonical. *)
Theorem fromDigitValues_negative_digit (digitValues : list Z) (v : Uuid25) :
  Exists (λ e, e < 0) digitValues →
  fromDigitValues digitValues = Ok v →
  (length (value v) < 25)%nat ∧ ¬ canonical (value v).
Proof.
  intros Hneg. unfold fromDigitValues.
  destruct (Nat.eqb_spec (length digitValues) 25) as [Hlen|]; result_simpl; [|done].
  destruct (fromDigitValuesLoop digits36 digitValues []) as [buffer| |] eqn:Hloop;
    result_simpl; try done.
  apply fromDigitValuesLoop_length in Hloop as [_ Hlt]. specialize (Hlt Hneg).
  destruct (js_le buffer MAX); result_simpl; [|done].
  intros [= <-]. cbn [value]. simpl in Hlt.
  split; [lia|]. intros [Hlen' _]. lia.
Qed.

Lemma fromDigitValues_negative_digit_witness :
  let digitValues := (-1) :: replicate 24 0 in
  let v := new_Uuid25 (js "000000000000000000000000") in
  Exists (λ e, e < 0) digitValues
  ∧ fromDigitValues digitValues = Ok v
  ∧ (length (value v) < 25)%nat ∧ ¬ canonical (value v).
Proof.
  intros digitValues v.
  assert (Exists (λ e, e < 0) digitValues) as Hneg by (apply Exists_cons_hd; lia).
  assert (fromDigitValues digitValues = Ok v) as Hfrom by (by vm_compute).
  exact (conj Hneg (conj Hfrom (fromDigitValues_negative_digit digitValues v Hneg Hfrom))).
Defined.

(** X14.  [fromBytes] on an array of bytes: it throws a [TypeError] unless
    there are 16 of them, and for 16 bytes it returns a canonical value that
    denotes their big-endian number. *)
Theorem fromBytes_outcome (uuidBytes : list Z) :
  Forall isByte uuidBytes →
  (length uuidBytes ≠ 16%nat →
   fromBytes uuidBytes = Throw (TypeError "the length of byte array must be 16"))
  ∧ (length uuidBytes = 16%nat →
     ∃ v, fromBytes uuidBytes = Ok v ∧ canonical (value v)
          ∧ numberOf v = digitsValue 256 uuidBytes).
Proof.
  intros Hbytes. split.
  - intros Hlen. unfold fromBytes. by apply Nat.eqb_neq in Hlen as ->.
  - intros Hlen.
    destruct (fromBytes_ok uuidBytes Hlen Hbytes) as (ds & Hl & Hd & Hv & Hmax & Hfrom).
    exists (valueOfDigits ds). split_and!; [done| |].
    + apply canonical_valueOfDigits. by exists ds.
    + by rewrite numberOf_valueOfDigits.
Qed.

Lemma fromBytes_outcome_witness :
  let uuidBytes := replicate 15 0 ++ [255] in
  Forall isByte uuidBytes
  ∧ length uuidBytes = 16%nat
  ∧ ∃ v, fromBytes uuidBytes = Ok v ∧ canonical (value v)
         ∧ numberOf v = digitsValue 256 uuidBytes.
Proof.
  intros uuidBytes.
  assert (Forall isByte uuidBytes) as Hbytes by (unfold isByte; solve_isDigits).
  assert (length uuidBytes = 16%nat) as Hlen by reflexivity.
  exact (conj Hbytes (conj Hlen (proj2 (fromBytes_outcome uuidBytes Hbytes) Hlen))).
Defined.

(** X15.  The encoding preserves the order: for two arrays of 16 bytes the
    canonical strings of [fromBytes] compare, as strings, the way the
    big-endian numbers of the arrays compare. *)
Theorem fromBytes_order (a b : list Z) :
  length a = 16%nat → Forall isByte a → length b = 16%nat → Forall isByte b →
  ∃ va vb,
    fromBytes a = Ok va ∧ fromBytes b = Ok vb
    ∧ js_lt (value va) (value vb) = (digitsValue 256 a <? digitsValue 256 b)
    ∧ js_le (value va) (value vb) = (digitsValue 256 a <=? digitsValue 256 b).
Proof.
  intros Hla Ha Hlb Hb.
  destruct (fromBytes_ok a Hla Ha) as (da & Hl1 & Hd1 & Hv1 & _ & Hfa).
  destruct (fromBytes_ok b Hlb Hb) as (db & Hl2 & Hd2 & Hv2 & _ & Hfb).
  eexists _, _. split_and!; [done|done| |]; cbn [value]; unfold js_le.
  - rewrite (js_lt_digits _ 36 ltac:(lia) digits36_increasing) by (done || lia).
    by rewrite Hv1, Hv2.
  - rewrite (js_lt_digits _ 36 ltac:(lia) digits36_increasing) by (done || lia).
    rewrite Hv1, Hv2. lia.
Qed.

Lemma fromBytes_order_witness :
  let a := replicate 15 0 ++ [255] in
  let b := replicate 14 0 ++ [1; 0] in
  length a = 16%nat ∧ Forall isByte a ∧ length b = 16%nat ∧ Forall isByte b
  ∧ ∃ va vb,
      fromBytes a = Ok va ∧ fromBytes b = Ok vb
      ∧ js_lt (value va) (value vb) = (digitsValue 256 a <? digitsValue 256 b)
      ∧ js_le (value va) (value vb) = (digitsValue 256 a <=? digitsValue 256 b).
Proof.
  intros a b.
  assert (length a = 16%nat) as Hla by reflexivity.
  assert (Forall isByte a) as Ha by (unfold isByte; solve_isDigits).
  assert (length b = 16%nat) as Hlb by reflexivity.
  assert (Forall isByte b) as Hb by (unfold isByte; solve_isDigits).
  exact (conj Hla (conj Ha (conj Hlb (conj Hb (fromBytes_order a b Hla Ha Hlb Hb))))).
Defined.



(** X17.  Bytes and back: on a value whose string is canonical, [toBytes]
    returns bytes from which [fromBytes] returns the value. *)
Theorem fromBytes_toBytes (v : Uuid25) :
  canonical (value v) →
  ∃ bytes, toBytes v = Ok bytes ∧ fromBytes bytes = Ok v.
Proof.
  intros (ds & -> & Hl & Hd & Hmax)%canonical_valueOfDigits.
  destruct (fromBytes_toBytes_digits ds Hl Hd Hmax) as (bs & Hto & _ & _ & _ & Hfrom).
  by exists bs.
Qed.

Lemma fromBytes_toBytes_witness :
  let v := new_Uuid25 (js "f5lxx1zz5pnorynqglhzmsp33") in
  canonical (value v)
  ∧ ∃ bytes, toBytes v = Ok bytes ∧ fromBytes bytes = Ok v.
Proof.
  intros v.
  assert (canonical (value v)) as Hcanon.
  { split_and!; [reflexivity| |reflexivity].
    repeat (apply Forall_cons_2; [reflexivity|]); apply Forall_nil_2. }
  exact (conj Hcanon (fromBytes_toBytes v Hcanon)).
Defined.

(** X18.  Every canonical value round-trips: on a value whose string is
    canonical, however it was made, each of the six formatters returns a
    text that [parse] turns into an equal value. *)
Theorem canonical_roundtrips (v : Uuid25) :
  canonical (value v) →
  roundtrips (λ v, Ok (toString v)) v
  ∧ roundtrips toHex v
  ∧ roundtrips toHyphenated v
  ∧ roundtrips toBraced v
  ∧ roundtrips toUrn v
  ∧ roundtrips toCrockford v.
Proof.
  intros (ds & -> & Hl & Hd & Hmax)%canonical_valueOfDigits.
  by apply roundtrips_digits.
Qed.

Lemma canonical_roundtrips_witness :
  let v := new_Uuid25 (js "0000000000000000000000000") in
  canonical (value v)
  ∧ roundtrips (λ v, Ok (toString v)) v
  ∧ roundtrips toHex v
  ∧ roundtrips toHyphenated v
  ∧ roundtrips toBraced v
  ∧ roundtrips toUrn v
  ∧ roundtrips toCrockford v.
Proof.
  intros v.
  assert (canonical (value v)) as Hcanon.
  { split_and!; [reflexivity| |reflexivity].
    repeat (apply Forall_cons_2; [reflexivity|]); apply Forall_nil_2. }
  exact (conj Hcanon (canonical_roundtrips v Hcanon)).
Defined.

(** X19.  A value that was constructed, unchecked, from 25 characters of
    [0-9a-z] above [Uuid25.MAX]: [toBytes], [toHex], [toHyphenated],
    [toBraced] and [toUrn] fail the assertion of [convertBase] on the size of
    the destination, which 128 bits fill, while [toCrockford], whose 26
    digits hold 130 bits, returns 26 characters that denote the number. *)
Theorem formatters_out_of_range (v : Uuid25) :
  length (value v) = 25%nat →
  Forall (λ c, in_class cls_0_9a_z c = true) (value v) →
  js_lt MAX (value v) = true →
  toBytes v = Throw (Error "Assertion failed: too small dst")
  ∧ toHex v = Throw (Error "Assertion failed: too small dst")
  ∧ toHyphenated v = Throw (Error "Assertion failed: too small dst")
  ∧ toBraced v = Throw (Error "Assertion failed: too small dst")
  ∧ toUrn v = Throw (Error "Assertion failed: too small dst")
  ∧ ∃ text, toCrockford v = Ok text ∧ length text = 26%nat
            ∧ digitsValue 32 (decodeCrockfordChar <$> text) = numberOf v.
Proof.
  destruct v as [s]. cbn [value]. intros Hlen Hcls Hgt.
  destruct (base36_digits s Hcls) as (ds & Hs & _ & Hd).
  assert (length ds = 25%nat) as Hl by (by rewrite Hs, length_fmap in Hlen).
  assert (2 ^ 128 <= digitsValue 36 ds) as Hover.
  { pose proof (js_le_MAX ds Hl Hd) as Hle. unfold js_le in Hle.
    rewrite <- Hs, Hgt in Hle. simpl in Hle. lia. }
  assert (decodeDigitChars s 36 = Ok ds) as Hdec
    by (rewrite Hs; by apply decodeDigitChars_encode36).
  assert (toHex (new_Uuid25 s) = Throw (Error "Assertion failed: too small dst"))
    as Hhex.
  { unfold toHex. cbn [value]. rewrite Hdec. result_simpl.
    rewrite convertBase_overflow; [done|lia|lia|lia|done|].
    by rewrite pow2_128_16_32. }
  assert (toHyphenated (new_Uuid25 s)
          = Throw (Error "Assertion failed: too small dst")) as Hhyph
    by (unfold toHyphenated; by rewrite Hhex).
  split_and!; [|done|done| | |].
  - unfold toBytes. cbn [value]. rewrite Hdec. result_simpl.
    apply convertBase_overflow; [lia|lia|lia|done|].
    by change (256 ^ Z.of_nat 16) with (2 ^ 128).
  - unfold toBraced. by rewrite Hhyph.
  - unfold toUrn. by rewrite Hhyph.
  - pose proof (digitsValue_bound 36 ds ltac:(lia) Hd) as Hbound.
    rewrite Hl in Hbound. pose proof pow36_25_le_32_26.
    destruct (convertBase_ok ds 36 32 26) as (cs & Hconv & Hcl & Hcd & Hcv);
      [lia|lia|lia|done|lia|].
    unfold toCrockford. cbn [value]. rewrite Hdec. result_simpl.
    rewrite Hconv. result_simpl.
    rewrite (encodeLoop_digits digits32 cs Hcd), app_nil_l.
    exists (encodeDigit digits32 <$> cs). split_and!; [done| |].
    + by rewrite length_fmap.
    + rewrite decode_encode32 by done.
      rewrite Hcv. unfold numberOf. cbn [value].
      rewrite Hs, <- list_fmap_compose.
      f_equal. rewrite <- (list_fmap_id ds) at 1. apply Forall_fmap_ext_1.
      eapply Forall_impl; [exact Hd|]. intros d Hd'. simpl.
      symmetry. by apply digits36_decode.
Qed.

Lemma formatters_out_of_range_witness :
  let v := new_Uuid25 (js "zzzzzzzzzzzzzzzzzzzzzzzzz") in
  length (value v) = 25%nat
  ∧ Forall (λ c, in_class cls_0_9a_z c = true) (value v)
  ∧ js_lt MAX (value v) = true
  ∧ toBytes v = Throw (Error "Assertion failed: too small dst")
  ∧ toHex v = Throw (Error "Assertion failed: too small dst")
  ∧ toHyphenated v = Throw (Error "Assertion failed: too small dst")
  ∧ toBraced v = Throw (Error "Assertion failed: too small dst")
  ∧ toUrn v = Throw (Error "Assertion failed: too small dst")
  ∧ ∃ text, toCrockford v = Ok text ∧ length text = 26%nat
            ∧ digitsValue 32 (decodeCrockfordChar <$> text) = numberOf v.
Proof.
  intros v.
  assert (length (value v) = 25%nat) as Hlen by reflexivity.
  assert (Forall (λ c, in_class cls_0_9a_z c = true) (value v)) as Hcls
    by (repeat (apply Forall_cons_2; [reflexivity|]); apply Forall_nil_2).
  assert (js_lt MAX (value v) = true) as Hgt by reflexivity.
  exact (conj Hlen (conj Hcls (conj Hgt (formatters_out_of_range v Hlen Hcls Hgt)))).
Defined.

(** X20.  A value that was constructed, unchecked, from a string with a
    character that is no letter or digit: each of the six formatters fails
    the assertion of [decodeDigitChars] on the digit characters. *)
Theorem formatters_invalid_character (v : Uuid25) :
  Exists (λ c, in_class cls_0_9A_Za_z c = false) (value v) →
  toBytes v = Throw (Error "Assertion failed: invalid digit character")
  ∧ toHex v = Throw (Error "Assertion failed: invalid digit character")
  ∧ toHyphenated v = Throw (Error "Assertion failed: invalid digit character")
  ∧ toBraced v = Throw (Error "Assertion failed: invalid digit character")
  ∧ toUrn v = Throw (Error "Assertion failed: invalid digit character")
  ∧ toCrockford v = Throw (Error "Assertion failed: invalid digit character").
Proof.
  intros Hdec%decodeDigitChars_invalid.
  assert (toHex v = Throw (Error "Assertion failed: invalid digit character"))
    as Hhex by (unfold toHex; by rewrite Hdec).
  assert (toHyphenated v
          = Throw (Error "Assertion failed: invalid digit character")) as Hhyph
    by (unfold toHyphenated; by rewrite Hhex).
  split_and!; [|done|done| | |].
  - unfold toBytes. by rewrite Hdec.
  - unfold toBraced. by rewrite Hhyph.
  - unfold toUrn. by rewrite Hhyph.
  - unfold toCrockford. by rewrite Hdec.
Qed.

Lemma formatters_invalid_character_witness :
  let v := new_Uuid25 (js "not a uuid") in
  Exists (λ c, in_class cls_0_9A_Za_z c = false) (value v)
  ∧ toBytes v = Throw (Error "Assertion failed: invalid digit character")
  ∧ toHex v = Throw (Error "Assertion failed: invalid digit character")
  ∧ toHyphenated v = Throw (Error "Assertion failed: invalid digit character")
  ∧ toBraced v = Throw (Error "Assertion failed: invalid digit character")
  ∧ toUrn v = Throw (Error "Assertion failed: invalid digit character")
  ∧ toCrockford v = Throw (Error "Assertion failed: invalid digit character").
Proof.
  intros v.
  assert (Exists (λ c, in_class cls_0_9A_Za_z c = false) (value v)) as H
    by (do 3 apply Exists_cons_tl; by apply Exists_cons_hd).
  exact (conj H (formatters_invalid_character v H)).
Defined.

(** X21.  Outside the length of the Crockford format [parse] keeps the
    promise of its documentation: on a string whose length is not 26 it
    returns a value or throws the [SyntaxError], and nothing else. *)
Theorem parse_syntax_error_only (s : list Z) :
  length s ≠ 26%nat →
  (∃ v, parse s = Ok v) ∨ parse s = Throw newParseError.
Proof.
  intros Hlen.
  pose proof (hexOutcome_cases _ _ _ (parseUuid25_outcome s)) as H25.
  pose proof (hexOutcome_cases _ _ _ (parseHex_outcome s)) as H32.
  pose proof (hexOutcome_cases _ _ _ (parseHyphenated_outcome s)) as H36.
  pose proof (hexOutcome_cases _ _ _ (parseBraced_outcome s)) as H38.
  pose proof (hexOutcome_cases _ _ _ (parseUrn_outcome s)) as H45.
  revert Hlen. unfold parse. generalize (length s). intros n Hn.
  do 46 (destruct n as [|n]; [first [by right | done]|]).
  by right.
Qed.

Lemma parse_syntax_error_only_witness :
  let s := js "e7a1d63b-7117-4423-8988-afcf1216187g" in
  length s ≠ 26%nat
  ∧ ((∃ v, parse s = Ok v) ∨ parse s = Throw newParseError).
Proof.
  intros s.
  assert (length s ≠ 26%nat) as Hlen by (intros [=]).
  exact (conj Hlen (parse_syntax_error_only s Hlen)).
Defined.

(** X22.  Parsing normalises the case and nothing else: when [parse]
    accepts a string of one of the five lower-case formats, the formatter of
    that format gives back the string in lower case. *)
Theorem parse_then_format (s : list Z) (v : Uuid25) :
  parse s = Ok v →
  (length s = 25%nat → toString v = toLowerCase s)
  ∧ (length s = 32%nat → toHex v = Ok (toLowerCase s))
  ∧ (length s = 36%nat → toHyphenated v = Ok (toLowerCase s))
  ∧ (length s = 38%nat → toBraced v = Ok (toLowerCase s))
  ∧ (length s = 45%nat → toUrn v = Ok (toLowerCase s)).
Proof.
  intros Hparse. split_and!; intros Hlen.
  - rewrite parse_25 in Hparse by done.
    destruct (hexOutcome_Ok _ _ _ _ (parseUuid25_outcome s) Hparse) as [_ [=]].
    done.
  - rewrite parse_32 in Hparse by done.
    by destruct (hexOutcome_Ok _ _ _ _ (parseHex_outcome s) Hparse).
  - rewrite parse_36 in Hparse by done.
    by destruct (hexOutcome_Ok _ _ _ _ (parseHyphenated_outcome s) Hparse).
  - rewrite parse_38 in Hparse by done.
    by destruct (hexOutcome_Ok _ _ _ _ (parseBraced_outcome s) Hparse).
  - rewrite parse_45 in Hparse by done.
    by destruct (hexOutcome_Ok _ _ _ _ (parseUrn_outcome s) Hparse).
Qed.

Lemma parse_then_format_witness :
  let s := js "{E7A1D63B-7117-4423-8988-AFCF12161878}" in
  let v := new_Uuid25 (js "dpoadk8izg9y4tte7vy1xt94o") in
  parse s = Ok v
  ∧ length s = 38%nat
  ∧ toBraced v = Ok (js "{e7a1d63b-7117-4423-8988-afcf12161878}").
Proof.
  intros s v.
  assert (parse s = Ok v) as Hparse by (by vm_compute).
  assert (length s = 38%nat) as Hlen by reflexivity.
  exact (conj Hparse (conj Hlen
           (proj1 (proj2 (proj2 (proj2 (parse_then_format s v Hparse)))) Hlen))).
Defined.

(** X23.  Parsing the Crockford format normalises the case and the
    confusable letters: when [parse] accepts a string of 26 characters, the
    value denotes the number of its Crockford digits and [toCrockford] gives
    back the string in upper case with I and L replaced by 1 and O by 0. *)
Theorem parse_then_toCrockford (s : list Z) (v : Uuid25) :
  length s = 26%nat → parse s = Ok v →
  numberOf v = digitsValue 32 (decodeCrockfordChar <$> s)
  ∧ toCrockford v = Ok (toUpperCase (replaceConfusable <$> s)).
Proof.
  intros Hlen Hparse. rewrite parse_26 in Hparse by done.
  destruct (parseCrockford_Ok_inv s v Hparse) as (_ & Hvalid & Hmax).
  destruct (parseCrockford_accepts s Hlen Hvalid Hmax)
    as (ds & Hl & Hd & _ & Hv & Hp & Hto).
  assert (v = valueOfDigits ds) as -> by congruence.
  split; [|done]. by rewrite numberOf_valueOfDigits.
Qed.

Lemma parse_then_toCrockford_witness :
  let s := js "OoOoOoOoOoOoOoOoOoOoOoidjL" in
  let v := new_Uuid25 (js "0000000000000000000001001") in
  length s = 26%nat
  ∧ parse s = Ok v
  ∧ numberOf v = digitsValue 32 (decodeCrockfordChar <$> s)
  ∧ toCrockford v = Ok (js "00000000000000000000001DJ1").
Proof.
  intros s v.
  assert (length s = 26%nat) as Hlen by reflexivity.
  assert (parse s = Ok v) as Hparse by (by vm_compute).
  exact (conj Hlen (conj Hparse (parse_then_toCrockford s v Hlen Hparse))).
Defined.

(** X24.  The four hexadecimal formats agree: for 32 hexadecimal digits of
    either case, [parse] of the bare digits, of their hyphenated form, of the
    braced form and of the URN form returns one and the same value; it
    denotes the number of the digits, and [toHex] gives them back in lower
    case. *)
Theorem parse_hex_formats_agree (hex : list Z) :
  isHexI hex →
  ∃ v, parse hex = Ok v
       ∧ parse (join (js "-") (hexGroups hex)) = Ok v
       ∧ parse (js "{" ++ join (js "-") (hexGroups hex) ++ js "}") = Ok v
       ∧ parse (js "urn:uuid:" ++ join (js "-") (hexGroups hex)) = Ok v
       ∧ numberOf v = digitsValue 16 (decodeDigitChar <$> hex)
       ∧ toHex v = Ok (toLowerCase hex).
Proof.
  intros Hhex.
  destruct (parseHexImpl_isHexI hex Hhex) as (ds & Hl & Hd & Hmax & Hv & Hparse & Hto).
  pose proof (isHexI_lower hex Hhex) as Hlower.
  rewrite parseHexImpl_lower in Hparse.
  exists (valueOfDigits ds). split_and!.
  - rewrite <- (parse_caseMapping toLower1 (or_intror eq_refl)).
    fold (toLowerCase hex). rewrite parse_32 by apply Hlower.
    unfold parseHex.
    rewrite test_Rep, class_run_Forall;
      [done|apply Hlower|apply (isHex_isHexI _ Hlower)].
  - rewrite <- (parse_caseMapping toLower1 (or_intror eq_refl)).
    fold (toLowerCase (join (js "-") (hexGroups hex))).
    by rewrite lower_join_hexGroups, parse_hyphenated.
  - rewrite <- (parse_caseMapping toLower1 (or_intror eq_refl)).
    rewrite !fmap_app. fold (toLowerCase (join (js "-") (hexGroups hex))).
    change (toLower1 <$> js "{") with (js "{").
    change (toLower1 <$> js "}") with (js "}").
    by rewrite lower_join_hexGroups, parse_braced.
  - rewrite <- (parse_caseMapping toLower1 (or_intror eq_refl)).
    rewrite !fmap_app. fold (toLowerCase (join (js "-") (hexGroups hex))).
    change (toLower1 <$> js "urn:uuid:") with (js "urn:uuid:").
    by rewrite lower_join_hexGroups, parse_urn.
  - by rewrite numberOf_valueOfDigits.
  - done.
Qed.

Lemma parse_hex_formats_agree_witness :
  let hex := js "E7a1d63b711744238988AFCF12161878" in
  isHexI hex
  ∧ ∃ v, parse hex = Ok v
         ∧ parse (js "E7a1d63b-7117-4423-8988-AFCF12161878") = Ok v
         ∧ parse (js "{E7a1d63b-7117-4423-8988-AFCF12161878}") = Ok v
         ∧ parse (js "urn:uuid:E7a1d63b-7117-4423-8988-AFCF12161878") = Ok v
         ∧ numberOf v = digitsValue 16 (decodeDigitChar <$> hex)
         ∧ toHex v = Ok (js "e7a1d63b711744238988afcf12161878").
Proof.
  intros hex.
  assert (isHexI hex) as Hhex.
  { split; [reflexivity|].
    repeat (apply Forall_cons_2; [reflexivity|]); apply Forall_nil_2. }
  exact (conj Hhex (parse_hex_formats_agree hex Hhex)).
Defined.

(** X25.  What [parse] accepts at length 26: a string of 26 characters is
    accepted exactly when each of them is a Crockford digit and the number
    they denote in base 32 is at most [2 ^ 128 - 1]. *)
Theorem parse_crockford_accepts_iff (s : list Z) :
  length s = 26%nat →
  (∃ v, parse s = Ok v)
  ↔ Forall (λ c, crockfordValue c < 32) s
    ∧ digitsValue 32 (crockfordValue <$> s) <= 2 ^ 128 - 1.
Proof.
  intros Hlen. rewrite parse_26 by done.
  assert (crockfordValue <$> s = decodeCrockfordChar <$> s) as ->.
  { apply list_fmap_ext. intros _ c _. symmetry. apply decodeCrockfordChar_closed. }
  assert (Forall (λ c, crockfordValue c < 32) s
          ↔ Forall (λ c, decodeCrockfordChar c < 32) s) as ->.
  { apply Forall_proper; [|done]. intros c. by rewrite decodeCrockfordChar_closed. }
  split.
  - intros [v (_ & Hvalid & Hmax)%parseCrockford_Ok_inv]. done.
  - intros [Hvalid Hmax].
    destruct (parseCrockford_accepts s Hlen Hvalid Hmax) as (ds & _ & _ & _ & _ & Hp & _).
    by exists (valueOfDigits ds).
Qed.

Lemma parse_crockford_accepts_iff_witness :
  let s := js "7zzzzzzzzzzzzzzzzzzzzzzzzz" in
  length s = 26%nat
  ∧ ((∃ v, parse s = Ok v)
     ↔ Forall (λ c, crockfordValue c < 32) s
       ∧ digitsValue 32 (crockfordValue <$> s) <= 2 ^ 128 - 1).
Proof.
  intros s.
  assert (length s = 26%nat) as Hlen by reflexivity.
  exact (conj Hlen (parse_crockford_accepts_iff s Hlen)).
Defined.

(** X26.  What [parse] does at length 25, in closed form: a string of 25
    characters is accepted exactly when each of them is a letter or a digit
    and the number they denote in base 36 is at most [2 ^ 128 - 1]; the
    value is then the string in lower case, and otherwise the [SyntaxError]
    is thrown. *)
Theorem parse_uuid25_closed (s : list Z) :
  length s = 25%nat →
  parse s
  = if forallb (in_class cls_0_9A_Za_z) s
       && (digitsValue 36 (alphanumericValue <$> s) <=? 2 ^ 128 - 1)
    then Ok (new_Uuid25 (toLowerCase s)) else Throw newParseError.
Proof.
  intros Hlen. rewrite parse_25, parseUuid25_closed by done.
  replace (alphanumericValue <$> s) with (decodeDigitChar <$> s); [done|].
  apply list_fmap_ext. intros _ c _. apply decodeDigitChar_closed.
Qed.

Lemma parse_uuid25_closed_witness :
  let s := js "F5LXX1ZZ5PNORYNQGLHZMSP33" in
  length s = 25%nat
  ∧ parse s = Ok (new_Uuid25 (js "f5lxx1zz5pnorynqglhzmsp33")).
Proof.
  intros s.
  assert (length s = 25%nat) as Hlen by reflexivity.
  exact (conj Hlen (parse_uuid25_closed s Hlen)).
Defined.

(** X27.  The canonical string of a number is unique: for two values whose
    strings are canonical, [equals] returns [true] exactly when they denote
    the same number. *)
Theorem equals_same_number (a b : Uuid25) :
  canonical (value a) → canonical (value b) →
  equals a b = true ↔ numberOf a = numberOf b.
Proof.
  intros (da & -> & Hla & Hda & _)%canonical_valueOfDigits
         (db & -> & Hlb & Hdb & _)%canonical_valueOfDigits.
  rewrite equals_eq. split; [by intros ->|].
  rewrite !numberOf_valueOfDigits by done.
  intros Heq. f_equal. apply (digitsValue_inj 36); [lia|done|done|congruence|done].
Qed.

Lemma equals_same_number_witness :
  let a := new_Uuid25 (js "dpoadk8izg9y4tte7vy1xt94o") in
  let b := new_Uuid25 (js "f5lxx1zz5pnorynqglhzmsp33") in
  canonical (value a) ∧ canonical (value b)
  ∧ (equals a b = true ↔ numberOf a = numberOf b).
Proof.
  intros a b.
  assert (canonical (value a)) as Ha.
  { split_and!; [reflexivity| |reflexivity].
    repeat (apply Forall_cons_2; [reflexivity|]); apply Forall_nil_2. }
  assert (canonical (value b)) as Hb.
  { split_and!; [reflexivity| |reflexivity].
    repeat (apply Forall_cons_2; [reflexivity|]); apply Forall_nil_2. }
  exact (conj Ha (conj Hb (equals_same_number a b Ha Hb))).
Defined.
